(** * raysight: echolocating bats in a 2D arena

    A shallow embedding of [raysight.py] and the properties of its
    vector primitives, ray / beam life cycle, collision response and
    steering policy.

    Numbers.  Python floats (and the ints mixed with them) are modelled as
    real numbers [R]: [math.cos], [math.sin], [math.acos], [math.sqrt] and
    [math.pi] are the functions and the constant of the standard library of
    reals, so a statement about such numbers holds over the reals: the
    rounding, overflow and underflow of floats are outside the embedding.
    Integers that reach pygame ([round], rectangles) are [Z]; pygame keeps
    the four numbers of a rectangle as C ints, and the embedding is for
    numbers in that range, as those of a screen are.

    Errors.  A Python exception is a value [Raise e] of the [result] type;
    code that can raise is written in the error monad.

    Objects.  A ray or a beam is a record with an identity field; a Python
    list of objects is a list of such records, object identity ([is], and
    [==] for classes without [__eq__]) is equality of the identity field. *)

From Stdlib Require Import String.
From Stdlib Require Import Reals Lra Lia ZArith List Bool.
Import ListNotations.
Open Scope R_scope.

(* ================================================================= *)
(** ** Python preliminaries *)

Module Py.

Inductive exn : Type :=
| ValueError (msg : string)
| NameError (name : string)
| ZeroDivisionError
| IndexError
| TypeError.

Inductive result (A : Type) : Type :=
| Ok (a : A)
| Raise (e : exn).

Arguments Ok {A} a.
Arguments Raise {A} e.

Definition bind {A B : Type} (c : result A) (k : A -> result B) : result B :=
  match c with
  | Ok a => k a
  | Raise e => Raise e
  end.

(** [list(f(x) for x in l)] where [f] may raise: left to right, the first
    exception wins. *)
Fixpoint mapM {A B : Type} (f : A -> result B) (l : list A) : result (list B) :=
  match l with
  | [] => Ok []
  | x :: t =>
      bind (f x) (fun y => bind (mapM f t) (fun ys => Ok (y :: ys)))
  end.

(** [all(p(x) for x in l)]: stops at the first false, raises what [p]
    raises. *)
Fixpoint all {A : Type} (p : A -> result bool) (l : list A) : result bool :=
  match l with
  | [] => Ok true
  | x :: t => bind (p x) (fun b => if b then all p t else Ok false)
  end.

(** [sum(l)]: starts from 0 and adds from the left. *)
Definition sum (l : list R) : R := fold_left Rplus l 0.

(** [a / b] on numbers. *)
Definition div (a b : R) : result R :=
  if Req_dec_T b 0 then Raise ZeroDivisionError else Ok (a / b).

(** [a % b] on floats, for a positive [b]: [a - b * floor (a / b)]. *)
Definition fmod (a b : R) : R := a - b * IZR (Int_part (a / b)).

(** [math.sqrt] and [math.acos] with their domain errors. *)
Definition math_sqrt (x : R) : result R :=
  if Rlt_dec x 0 then Raise (ValueError "math domain error") else Ok (sqrt x).

Definition math_acos (x : R) : result R :=
  if Rlt_dec x (-1) then Raise (ValueError "math domain error")
  else if Rlt_dec 1 x then Raise (ValueError "math domain error")
  else Ok (acos x).

(** [round(x)] of a float: the nearest integer, ties to the even one. *)
Definition round (x : R) : Z :=
  let f := Int_part x in
  let d := x - IZR f in
  if Rlt_dec d (1 / 2) then f
  else if Rlt_dec (1 / 2) d then (f + 1)%Z
  else if Z.even f then f else (f + 1)%Z.

(** [min(l)] of a non-empty list and [l.index(x)]. *)
Fixpoint min_from (m : R) (l : list R) : R :=
  match l with
  | [] => m
  | x :: t => min_from (if Rlt_dec x m then x else m) t
  end.

Definition min (l : list R) : result R :=
  match l with
  | [] => Raise (ValueError "min() arg is an empty sequence")
  | x :: t => Ok (min_from x t)
  end.

Fixpoint index (x : R) (l : list R) : result nat :=
  match l with
  | [] => Raise (ValueError "x not in list")
  | y :: t => if Req_dec_T y x then Ok 0%nat
              else bind (index x t) (fun i => Ok (S i))
  end.

(** [l[i]] for a non-negative index. *)
Definition getitem {A : Type} (l : list A) (i : nat) : result A :=
  match nth_error l i with
  | Some a => Ok a
  | None => Raise IndexError
  end.

(** [l[i] = a] for a non-negative index. *)
Fixpoint setitem {A : Type} (l : list A) (i : nat) (a : A) : result (list A) :=
  match l, i with
  | [], _ => Raise IndexError
  | _ :: t, O => Ok (a :: t)
  | x :: t, S j => bind (setitem t j a) (fun t' => Ok (x :: t'))
  end.

End Py.

Import Py.

Declare Scope py_scope.
Delimit Scope py_scope with py.
Notation "x <- c ;; k" := (Py.bind c (fun x => k))
  (at level 61, c at next level, right associativity) : py_scope.
Open Scope py_scope.

(* ================================================================= *)
(** ** class Vector *)

Module Vector.

(** [self.values]. *)
Definition t : Type := list R.

(** The right operand of the overloaded arithmetic, a Vector or a number,
    and the components a Vector can hold after [matrix_mult]. *)
Inductive operand : Type :=
| Num (a : R)
| Vec (v : t).

(** The constructor [Vector]: no argument gives the 2D zero vector. *)
Definition init {A : Type} (zero : A) (args : list A) : list A :=
  match args with
  | [] => [zero; zero]
  | _ => args
  end.

Definition Vector (args : list R) : t := init 0 args.

Definition norm (self : t) : result R :=
  math_sqrt (Py.sum (map (fun comp => comp ^ 2) self)).

Definition dot (self other : t) : R :=
  Py.sum (map (fun ab => fst ab * snd ab) (combine self other)).

Definition __getitem__ (self : t) (key : nat) : result R := getitem self key.

Definition __len__ (self : t) : nat := length self.

Definition argument (self : t) : result R :=
  n <- norm self ;;
  q <- Py.div (dot (Vector [1; 0]) self) n ;;
  arg_in_rad <- math_acos q ;;
  y <- getitem self 1 ;;
  if Rlt_dec y 0 then Ok (2 * PI - arg_in_rad) else Ok arg_in_rad.

Definition angle_to (self other : t) : result R :=
  a <- argument self ;;
  b <- argument other ;;
  Ok (fmod (a - b) (2 * PI)).

Definition normalize (self : t) : result t :=
  n <- norm self ;;
  normed <- mapM (fun comp => Py.div comp n) self ;;
  Ok (Vector normed).

Definition _rotate2D (self : t) (theta : R) : result t :=
  let dc := cos theta in
  let ds := sin theta in
  match self with
  | [x; y] => Ok (Vector [dc * x - ds * y; ds * x + dc * y])
  | _ => Raise (ValueError "wrong number of values to unpack")
  end.

Definition __mul__ (self : t) (other : operand) : t :=
  match other with
  | Vec o => Vector (map (fun ab => fst ab * snd ab) (combine self o))
  | Num k => Vector (map (fun a => a * k) self)
  end.

Definition __rmul__ (self : t) (other : operand) : t := __mul__ self other.

Definition __truediv__ (self : t) (other : operand) : result t :=
  match other with
  | Vec o =>
      divided <- mapM (fun ab => Py.div (fst ab) (snd ab)) (combine self o) ;;
      Ok (Vector divided)
  | Num k =>
      divided <- mapM (fun a => Py.div a k) self ;;
      Ok (Vector divided)
  end.

Definition __add__ (self : t) (other : operand) : t :=
  match other with
  | Vec o => Vector (map (fun ab => fst ab + snd ab) (combine self o))
  | Num k => Vector (map (fun a => a + k) self)
  end.

Definition __sub__ (self : t) (other : operand) : t :=
  match other with
  | Vec o => Vector (map (fun ab => fst ab - snd ab) (combine self o))
  | Num k => Vector (map (fun a => a - k) self)
  end.

(** [round(v)]: a Vector of ints. *)
Definition __round__ (self : t) : list Z := init 0%Z (map Py.round self).

(** [matrix_mult]: every row times [self] with [__mul__], which between two
    Vectors is the componentwise product, so the result is a Vector whose
    components are Vectors. *)
Definition matrix_mult (self : t) (matrix : list (list R)) : result (list operand) :=
  ok <- Py.all (fun row => Ok (Nat.eqb (length row) (__len__ self))) matrix ;;
  if negb ok then Raise (ValueError "Matrix must match vector dimensions")
  else
    let product := map (fun row => Vec (__mul__ (Vector row) (Vec self))) matrix in
    Ok (init (Num 0) product).

(** [rotate] looks at the type of its one argument; the embedding has one
    function for each: [rotate] for a number, [rotate_matrix] for a list of
    rows.  [rotate(theta)] for a number [theta]. *)
Definition rotate (self : t) (theta : R) : result t :=
  if negb (Nat.eqb (__len__ self) 2)
  then Raise (ValueError "Rotation axis not defined for greater than 2D vector")
  else _rotate2D self theta.

(** The name [v] of line 50 is bound nowhere: neither a local of
    [rotate] nor a global of the module. *)
Definition len_v : result nat := Raise (NameError "v").

(** [rotate(matrix)] for a list of rows [matrix]. *)
Definition rotate_matrix (self : t) (matrix : list (list R)) : result (list operand) :=
  ok <- Py.all (fun row => n <- len_v ;; Ok (Nat.eqb (length row) n)) matrix ;;
  if negb ok || negb (Nat.eqb (length matrix) (__len__ self))
  then Raise (ValueError "Rotation matrix must be square and same dimensions as vector")
  else matrix_mult self matrix.

End Vector.

(* ================================================================= *)
(** ** pygame.Rect

    The part of pygame's rectangle the program calls: integer rectangles,
    the overlap test of [colliderect] (strict: rectangles that only touch
    do not collide, and a rectangle of width or height 0 collides with
    nothing) and [collidelist], the index of the first rectangle of a list
    that collides, or -1. *)

Module pygame.

Record Rect : Type := mkRect { x : Z; y : Z; w : Z; h : Z }.

Definition left (r : Rect) : Z := x r.
Definition right (r : Rect) : Z := (x r + w r)%Z.
Definition top (r : Rect) : Z := y r.
Definition bottom (r : Rect) : Z := (y r + h r)%Z.

Definition colliderect (a b : Rect) : bool :=
  if (w a =? 0)%Z || (h a =? 0)%Z || (w b =? 0)%Z || (h b =? 0)%Z then false
  else
    (Z.min (x a) (x a + w a) <? Z.max (x b) (x b + w b))%Z
    && (Z.min (y a) (y a + h a) <? Z.max (y b) (y b + h b))%Z
    && (Z.max (x a) (x a + w a) >? Z.min (x b) (x b + w b))%Z
    && (Z.max (y a) (y a + h a) >? Z.min (y b) (y b + h b))%Z.

Fixpoint collidelist_from (i : Z) (a : Rect) (l : list Rect) : Z :=
  match l with
  | [] => (-1)%Z
  | r :: t => if colliderect a r then i else collidelist_from (i + 1)%Z a t
  end.

Definition collidelist (a : Rect) (l : list Rect) : Z := collidelist_from 0%Z a l.

End pygame.

(* ================================================================= *)
(** ** The globals set by [main] *)

Definition RAY_STRENGTH : R := 200.
Definition RAY_DECAY : R := 1.
Definition WALL_DECAY : R := 10.
Definition BEAM_DECAY : R := 2.

Definition RAY_SPEED : R := 8.
Definition FRAMES_PER_EMIT : nat := 16.
Definition RAYS_PER_EMIT : nat := 32.
Definition EMISSION_ANGLE : R := 5 * PI / 4.

Definition BAT_RADIUS : Z := 10.
Definition RAY_RADIUS : Z := 4.
Definition BEAM_WIDTH : Z := 2.
Definition BEAM_LENGTH : R := 100.

Definition AUTO_CONTROLLED : bool := true.
Definition DEFAULT_SPEED : R := 5.
Definition DETECT_OTHER_RAYS : bool := true.

(* ================================================================= *)
(** ** Lists of objects *)

Section Objects.
Context {A : Type} (ident : A -> nat).

(** [l.remove(o)] for an object [o] of a class without [__eq__]: the
    first element that is [o] goes, [ValueError] when there is none. *)
Fixpoint list_remove (o : nat) (l : list A) : result (list A) :=
  match l with
  | [] => Raise (ValueError "list.remove(x): x not in list")
  | a :: t =>
      if Nat.eqb (ident a) o then Ok t
      else t' <- list_remove o t ;; Ok (a :: t')
  end.

(** A write to a field of the object [o'] is seen through every list
    that holds the object. *)
Definition store (o' : A) (l : list A) : list A :=
  map (fun a => if Nat.eqb (ident a) (ident o') then o' else a) l.

Definition holds (l : list A) (o : nat) : Prop := In o (map ident l).
End Objects.

(* ================================================================= *)
(** ** class Wall *)

Module Wall.

Record t : Type := mk {
  rect : pygame.Rect;
  interest : R;
  collides_bat : bool
}.

(** [Wall(topleft, size, interest, collides_bat)]. *)
Definition init (topleft size : Z * Z) (interest : R) (collides_bat : bool) : t :=
  mk (pygame.mkRect (fst topleft) (snd topleft) (fst size) (snd size))
     interest collides_bat.

End Wall.

(** [get_rect] of both Bat and Ray: the pygame rectangle of the rounded
    [pos - radius], of width and height [2 * radius]. *)
Definition get_rect_of (pos : Vector.t) (radius : Z) : result pygame.Rect :=
  match Vector.__round__ (Vector.__sub__ pos (Vector.Num (IZR radius))) with
  | [x; y] => Ok (pygame.mkRect x y (2 * radius) (2 * radius))
  | _ => Raise TypeError
  end.

(** Lines 170-179 and 252-261, the same text in [Bat.test_collision] and
    [Ray.test_collision] up to the vector that is written ([self.vel],
    [self.facing]): the closest of the four edges of [rect] to [pos], and
    the component of [v] across that edge pointed away from the
    rectangle. *)
Definition edge_lengths (pos : Vector.t) (rect : pygame.Rect) : result (list R) :=
  p0 <- Vector.__getitem__ pos 0 ;;
  p1 <- Vector.__getitem__ pos 1 ;;
  Ok [Rabs (p0 - IZR (pygame.left rect));
      Rabs (p0 - IZR (pygame.right rect));
      Rabs (p1 - IZR (pygame.top rect));
      Rabs (p1 - IZR (pygame.bottom rect))].

Definition close_edge_of (pos : Vector.t) (rect : pygame.Rect) : result nat :=
  lengths <- edge_lengths pos rect ;;
  m <- Py.min lengths ;;
  Py.index m lengths.

Definition bounce (pos : Vector.t) (rect : pygame.Rect) (v : Vector.t) : result Vector.t :=
  close_edge <- close_edge_of pos rect ;;
  let vel_index := if Nat.eqb close_edge 0 || Nat.eqb close_edge 1 then 0%nat else 1%nat in
  positivity <- getitem [-1; 1] (close_edge mod 2) ;;
  old <- Vector.__getitem__ v vel_index ;;
  setitem v vel_index (positivity * Rabs old).

(* ================================================================= *)
(** ** class Ray *)

Module Ray.

Record t : Type := mk {
  id : nat;              (* the identity of the object *)
  parent : nat;          (* the identity of the Bat that emitted it *)
  pos : Vector.t;
  facing : Vector.t;
  collided : bool;
  exited_bat : bool;
  strength : R;
  interest : R;
  radius : Z
}.

Definition set_pos (self : t) (v : Vector.t) : t :=
  mk (id self) (parent self) v (facing self) (collided self) (exited_bat self)
     (strength self) (interest self) (radius self).
Definition set_facing (self : t) (v : Vector.t) : t :=
  mk (id self) (parent self) (pos self) v (collided self) (exited_bat self)
     (strength self) (interest self) (radius self).
Definition set_collided (self : t) (b : bool) : t :=
  mk (id self) (parent self) (pos self) (facing self) b (exited_bat self)
     (strength self) (interest self) (radius self).
Definition set_exited_bat (self : t) (b : bool) : t :=
  mk (id self) (parent self) (pos self) (facing self) (collided self) b
     (strength self) (interest self) (radius self).
Definition set_strength (self : t) (s : R) : t :=
  mk (id self) (parent self) (pos self) (facing self) (collided self) (exited_bat self)
     s (interest self) (radius self).
Definition set_interest (self : t) (i : R) : t :=
  mk (id self) (parent self) (pos self) (facing self) (collided self) (exited_bat self)
     (strength self) i (radius self).

(** [Ray(parent, pos, angle)]; [fresh] is the identity of the new object. *)
Definition init (fresh : nat) (parent : nat) (pos : Vector.t) (angle : R) : result t :=
  facing <- Vector.rotate (Vector.Vector [1; 0]) angle ;;
  Ok (mk fresh parent pos facing false false RAY_STRENGTH 0 RAY_RADIUS).

Definition get_rect (self : t) : result pygame.Rect :=
  get_rect_of (pos self) (radius self).

Definition test_collision (walls : list Wall.t) (self : t) : result t :=
  r <- get_rect self ;;
  let collide_index := pygame.collidelist r (map Wall.rect walls) in
  if (collide_index =? -1)%Z then Ok self
  else
    let self := if negb (collided self) then set_collided self true else self in
    let self := set_strength self (strength self - WALL_DECAY) in
    wall <- getitem walls (Z.to_nat collide_index) ;;
    let self := set_interest self (interest self + Wall.interest wall) in
    let self := set_interest self (interest self / 2) in
    half <- Vector.__truediv__ (Vector.__mul__ (facing self) (Vector.Num RAY_SPEED))
                               (Vector.Num 2) ;;
    let self := set_pos self (Vector.__sub__ (pos self) (Vector.Vec half)) in
    let rect := Wall.rect wall in
    facing' <- bounce (pos self) rect (facing self) ;;
    Ok (set_facing self facing').

(** [update]: [parent_rays] is the list [self.parent.rays].  The result is
    the object after the call and the parent's list after the call, where
    the object is either gone or seen with its new fields. *)
Definition update (walls : list Wall.t) (self : t) (parent_rays : list t)
  : result (t * list t) :=
  let self := set_strength self (strength self - RAY_DECAY) in
  self <- test_collision walls self ;;
  if Rle_dec (strength self) 0 then
    rays' <- list_remove id (id self) parent_rays ;;
    Ok (self, rays')
  else
    let self :=
      set_pos self (Vector.__add__ (pos self)
                      (Vector.Vec (Vector.__mul__ (facing self) (Vector.Num RAY_SPEED)))) in
    Ok (self, store id self parent_rays).

End Ray.

(* ================================================================= *)
(** ** class Beam *)

Module Beam.

Record t : Type := mk {
  id : nat;              (* the identity of the object *)
  parent : nat;          (* the identity of the Bat that owns it *)
  start : Vector.t;
  rel : Vector.t;
  strength : R;
  interest : R;
  width : Z
}.

(** [Beam(parent, start, rel, strength, interest)]. *)
Definition init (fresh : nat) (parent : nat) (start rel : Vector.t)
    (strength interest : R) : t :=
  mk fresh parent start rel strength interest BEAM_WIDTH.

Definition set_strength (self : t) (s : R) : t :=
  mk (id self) (parent self) (start self) (rel self) s (interest self) (width self).

Definition update (self : t) (parent_beams : list t) : result (t * list t) :=
  let self := set_strength self (strength self - BEAM_DECAY) in
  if Rle_dec (strength self) 0 then
    beams' <- list_remove id (id self) parent_beams ;;
    Ok (self, beams')
  else Ok (self, store id self parent_beams).

End Beam.

(* ================================================================= *)
(** ** class Bat *)

(** The truth value of a number: everything but zero. *)
Definition truthy (a : R) : bool := if Req_dec_T a 0 then false else true.

(** [v[0] or v[1]] as a condition; [v[1]] is read only when [v[0]] is 0. *)
Definition first_or_second (v : Vector.t) : result bool :=
  a0 <- Vector.__getitem__ v 0 ;;
  if truthy a0 then Ok true
  else a1 <- Vector.__getitem__ v 1 ;; Ok (truthy a1).

Module Bat.

Record t : Type := mk {
  id : nat;              (* the identity of the object *)
  pos : Vector.t;
  vel : Vector.t;
  facing : Vector.t;
  ang_vel : R;
  friction : R;
  rays : list Ray.t;
  beams : list Beam.t;
  radius : Z
}.

Definition set_pos (self : t) (v : Vector.t) : t :=
  mk (id self) v (vel self) (facing self) (ang_vel self) (friction self)
     (rays self) (beams self) (radius self).
Definition set_vel (self : t) (v : Vector.t) : t :=
  mk (id self) (pos self) v (facing self) (ang_vel self) (friction self)
     (rays self) (beams self) (radius self).
Definition set_facing (self : t) (v : Vector.t) : t :=
  mk (id self) (pos self) (vel self) v (ang_vel self) (friction self)
     (rays self) (beams self) (radius self).
Definition set_ang_vel (self : t) (a : R) : t :=
  mk (id self) (pos self) (vel self) (facing self) a (friction self)
     (rays self) (beams self) (radius self).
Definition set_rays (self : t) (l : list Ray.t) : t :=
  mk (id self) (pos self) (vel self) (facing self) (ang_vel self) (friction self)
     l (beams self) (radius self).
Definition set_beams (self : t) (l : list Beam.t) : t :=
  mk (id self) (pos self) (vel self) (facing self) (ang_vel self) (friction self)
     (rays self) l (radius self).

(** [Bat(pos, angle)]; [fresh] is the identity of the new object. *)
Definition init (fresh : nat) (pos : Vector.t) (angle : R) : result t :=
  facing <- Vector.rotate (Vector.Vector [1; 0]) angle ;;
  Ok (mk fresh pos (Vector.Vector []) facing 0 (11 / 10) [] [] BAT_RADIUS).

Definition get_rect (self : t) : result pygame.Rect :=
  get_rect_of (pos self) (radius self).

Definition test_collision (walls : list Wall.t) (self : t) : result t :=
  r <- get_rect self ;;
  let collide_index := pygame.collidelist r (map Wall.rect walls) in
  if (collide_index =? -1)%Z then Ok self
  else
    wall <- getitem walls (Z.to_nat collide_index) ;;
    if Wall.collides_bat wall then
      step <- Vector.__truediv__ (vel self) (Vector.Num 60) ;;
      let self := set_pos self (Vector.__sub__ (pos self) (Vector.Vec step)) in
      let rect := Wall.rect wall in
      vel' <- bounce (pos self) rect (vel self) ;;
      Ok (set_vel self vel')
    else Ok self.

Definition update (walls : list Wall.t) (self : t) : result t :=
  step <- Vector.__truediv__ (vel self) (Vector.Num 60) ;;
  let self := set_pos self (Vector.__add__ (pos self) (Vector.Vec step)) in
  self <- test_collision walls self ;;
  facing' <- Vector.rotate (facing self) (ang_vel self / 60) ;;
  let self := set_facing self facing' in
  vel' <- Vector.__truediv__ (vel self) (Vector.Num (friction self)) ;;
  let self := set_vel self vel' in
  ang_vel' <- Py.div (ang_vel self) (friction self) ;;
  Ok (set_ang_vel self ang_vel').

(** The angle passed to the [i]-th Ray of an emission from a Bat whose
    facing has argument [a]. *)
Definition emit_angle (a : R) (i : nat) : R :=
  a - EMISSION_ANGLE / 2 + EMISSION_ANGLE / INR RAYS_PER_EMIT * INR i.

(** The body of the loop of [emit], over the values [i] of the range;
    the new Rays take the identities [fresh + i]. *)
Fixpoint emit_loop (fresh : nat) (self : t) (range : list nat) : result t :=
  match range with
  | [] => Ok self
  | i :: range' =>
      a <- Vector.argument (facing self) ;;
      let angle := emit_angle a i in
      ray <- Ray.init (fresh + i) (id self) (pos self) angle ;;
      emit_loop fresh (set_rays self (rays self ++ [ray])) range'
  end.

Definition emit (fresh : nat) (self : t) : result t :=
  emit_loop fresh self (seq 0 RAYS_PER_EMIT).

(** The body of the first loop of [test_rays] for one [ray] of [rays]:
    the Bat (its beams), the list [removed_rays] and the list [rays], in
    which a write to the ray is seen, after one turn. *)
Definition test_rays_body (fresh : nat) (self : t) (removed_rays : list Ray.t)
    (rays : list Ray.t) (ray : Ray.t)
  : result (t * list Ray.t * list Ray.t) :=
  br <- get_rect self ;;
  rr <- Ray.get_rect ray ;;
  let collision := pygame.colliderect br rr in
  if collision then
    if Ray.collided ray && Ray.exited_bat ray then
      let direction := Vector.__rmul__ (Ray.facing ray) (Vector.Num (-1)) in
      nonzero <- first_or_second direction ;;
      self <- (if nonzero then
                 direction <- Vector.normalize direction ;;
                 let beam := Beam.init (fresh + length (beams self)) (id self) (pos self)
                               direction (Ray.strength ray) (Ray.interest ray) in
                 Ok (set_beams self (beams self ++ [beam]))
               else Ok self) ;;
      Ok (self, removed_rays ++ [ray], rays)
    else Ok (self, removed_rays, rays)
  else if negb (Ray.exited_bat ray) then
    let ray := Ray.set_exited_bat ray true in
    Ok (self, removed_rays, store Ray.id ray rays)
  else Ok (self, removed_rays, rays).

Fixpoint test_rays_loop (fresh : nat) (self : t) (removed_rays : list Ray.t)
    (rays : list Ray.t) (todo : list Ray.t)
  : result (t * list Ray.t * list Ray.t) :=
  match todo with
  | [] => Ok (self, removed_rays, rays)
  | ray :: todo' =>
      st <- test_rays_body fresh self removed_rays rays ray ;;
      let '(self, removed_rays, rays) := st in
      test_rays_loop fresh self removed_rays rays todo'
  end.

Fixpoint remove_all (removed_rays : list Ray.t) (rays : list Ray.t) : result (list Ray.t) :=
  match removed_rays with
  | [] => Ok rays
  | removed_ray :: rest =>
      rays <- list_remove Ray.id (Ray.id removed_ray) rays ;;
      remove_all rest rays
  end.

(** [test_rays(rays)]: the Bat and the list [rays] after the call.  When
    [rays] is the Bat's own list the caller sees the new list as
    [self.rays]. *)
Definition test_rays (fresh : nat) (self : t) (rays : list Ray.t)
  : result (t * list Ray.t) :=
  st <- test_rays_loop fresh self [] rays rays ;;
  let '(self, removed_rays, rays) := st in
  rays <- remove_all removed_rays rays ;;
  Ok (self, rays).

(** [get_average_beam]; the line it draws on the screen is left out. *)
Definition get_average_beam (self : t) : Vector.t :=
  fold_left
    (fun average_beam beam =>
       let rel :=
         Vector.__mul__
           (Vector.__rmul__ (Beam.rel beam)
              (Vector.Num (Beam.strength beam / RAY_STRENGTH)))
           (Vector.Num (Beam.interest beam)) in
       Vector.__add__ average_beam (Vector.Vec rel))
    (beams self) (Vector.Vector []).

End Bat.

(* ================================================================= *)
(** ** The steering of [main], lines 402-412

    [is_bats0] says whether [bat] is the object [bats[0]]. *)

Definition steer (is_bats0 : bool) (bat : Bat.t) : result Bat.t :=
  let average_beam := Bat.get_average_beam bat in
  if negb is_bats0 || AUTO_CONTROLLED then
    n <- Vector.norm average_beam ;;
    let bat :=
      Bat.set_vel bat
        (Vector.__add__ (Bat.vel bat)
           (Vector.Vec (Vector.__rmul__ (Bat.facing bat)
                          (Vector.Num (20 * n + DEFAULT_SPEED))))) in
    nonzero <- first_or_second average_beam ;;
    if nonzero then
      angle <- Vector.angle_to (Bat.facing bat) average_beam ;;
      let angle := if Rlt_dec PI angle then angle - PI * 2 else angle in
      Ok (Bat.set_ang_vel bat (Bat.ang_vel bat - angle))
    else Ok (Bat.set_ang_vel bat (Bat.ang_vel bat + PI))
  else Ok bat.

(** The loop of lines 387-388, [for ray in bat.rays: ray.update()]: the
    list is read by position while [update] takes objects out of it, so
    the object that follows a removed one is passed over in that frame.
    [fuel] bounds the number of turns; the length of the list is enough. *)
Fixpoint update_rays (fuel : nat) (walls : list Wall.t) (i : nat) (rays : list Ray.t)
  : result (list Ray.t) :=
  match fuel with
  | O => Ok rays
  | S fuel' =>
      match nth_error rays i with
      | None => Ok rays
      | Some ray =>
          st <- Ray.update walls ray rays ;;
          update_rays fuel' walls (S i) (snd st)
      end
  end.

(** The loop of lines 389-390, [for beam in bat.beams: beam.update()],
    read by position like the loop over the rays. *)
Fixpoint update_beams (fuel : nat) (i : nat) (beams : list Beam.t)
  : result (list Beam.t) :=
  match fuel with
  | O => Ok beams
  | S fuel' =>
      match nth_error beams i with
      | None => Ok beams
      | Some beam =>
          st <- Beam.update beam beams ;;
          update_beams fuel' (S i) (snd st)
      end
  end.

(** Lines 383-390, the body of [for bat in bats]: the emission every
    [FRAMES_PER_EMIT] frames, the tick of the bat, the loop over its rays
    and the loop over its beams.  The rays and beams of a bat are those
    made with the bat as their parent, so the list each of them removes
    itself from is the list the loop reads.  [fresh] is the identity of
    the first object the frame makes. *)
Definition frame_bat (fresh : nat) (frame : nat) (walls : list Wall.t) (bat : Bat.t)
  : result Bat.t :=
  bat <- (if Nat.eqb (frame mod FRAMES_PER_EMIT) 0 then Bat.emit fresh bat else Ok bat) ;;
  bat <- Bat.update walls bat ;;
  rays <- update_rays (length (Bat.rays bat)) walls 0 (Bat.rays bat) ;;
  let bat := Bat.set_rays bat rays in
  beams <- update_beams (length (Bat.beams bat)) 0 (Bat.beams bat) ;;
  Ok (Bat.set_beams bat beams).

(** Lines 267-268, 292-293 and 308-309, the same text in the [draw] of
    Ray, Beam and Wall: the first two channels of the colour
    [(negative_interest, positive_interest, 128)] that is handed to
    pygame; the drawing itself is left out. *)
Definition positive_interest (interest : R) : Z :=
  Py.round (255 * (Rabs interest + interest) / 2).

Definition negative_interest (interest : R) : Z :=
  Py.round (255 * (Rabs (- interest) + - interest) / 2).

Definition interest_colour (interest : R) : Z * Z * Z :=
  (negative_interest interest, positive_interest interest, 128%Z).

(** The walls of [main], lines 350-357, for a screen of width [w] and
    height [h]: four walls along the border, and four inside, of which
    only the third blocks bats. *)
Definition arena (w h : Z) : list Wall.t :=
  [Wall.init (0, 0)%Z (w, 10)%Z (-1 / 2) true;
   Wall.init (0, 10)%Z (10, h - 10)%Z (-1 / 2) true;
   Wall.init (w - 10, 10)%Z (10, h - 10)%Z (-1 / 5) true;
   Wall.init (10, h - 10)%Z (w - 20, 10)%Z (-1 / 10) true;
   Wall.init (150, 100)%Z (50, 200)%Z (1 / 5) false;
   Wall.init (1000, 200)%Z (10, 300)%Z (-1) false;
   Wall.init (200, 500)%Z (500, 10)%Z (-1 / 2) true;
   Wall.init (1100, 600)%Z (50, 50)%Z 1 false].

(* ================================================================= *)
(** * Vocabulary of the properties

    What the statements below speak of: measures and shapes of vectors,
    the aggregate echo and the turn in the words of the specification,
    the effect of one call by cases, and the scenes on which the
    statements are tried. *)

(** ** Vectors *)

(** The sum of the squares of the components, the square of the norm. *)
Definition sumsq (v : Vector.t) : R := Py.sum (map (fun comp => comp ^ 2) v).

(** The zero vector, of any dimension. *)
Definition is_zero (v : Vector.t) : Prop := Forall (fun comp => comp = 0) v.

Definition is_2D (v : Vector.t) : Prop := length v = 2%nat.

(** Both components of a 2D vector are 0. *)
Definition zero_2D (v : Vector.t) : bool :=
  match v with
  | [a; b] => if Req_dec_T a 0 then if Req_dec_T b 0 then true else false else false
  | _ => false
  end.

(** ** The aggregate echo and the turn *)

(** The aggregate echo in the words of the specification: the vector sum,
    over the beams, of (strength / initial ray strength) * direction *
    interest, written by component. *)
Definition total (f : Beam.t -> R) (beams : list Beam.t) : R :=
  fold_right (fun beam acc => f beam + acc) 0 beams.

Definition weighted (i : nat) (beam : Beam.t) : R :=
  Beam.strength beam / RAY_STRENGTH * nth i (Beam.rel beam) 0 * Beam.interest beam.

Definition aggregate_echo (beams : list Beam.t) : Vector.t :=
  [total (weighted 0) beams; total (weighted 1) beams].

(** The turn of the steering: the difference of two angles modulo 2 PI,
    less 2 PI when it is above PI. *)
Definition shortest_turn (a_facing a_echo : R) : R :=
  let angle := fmod (a_facing - a_echo) (2 * PI) in
  if Rlt_dec PI angle then angle - PI * 2 else angle.

(** The direction of a vector: its components over its length. *)
Definition direction (v : Vector.t) : Vector.t :=
  map (fun comp => comp / sqrt (sumsq v)) v.

(** A 2D vector turned by the angle [t], from +x towards +y: clockwise
    on the screen, whose y axis points down. *)
Definition turned (v : Vector.t) (t : R) : Vector.t :=
  match v with
  | [x; y] => [x * cos t - y * sin t; x * sin t + y * cos t]
  | _ => v
  end.

(** ** Emission *)

(** The ray that the turn [i] of the loop of [emit] appends, for a bat
    whose facing has the argument [a]. *)
Definition emitted (fresh : nat) (self : Bat.t) (a : R) (i : nat) : Ray.t :=
  Ray.mk (fresh + i) (Bat.id self) (Bat.pos self)
    [cos (Bat.emit_angle a i); sin (Bat.emit_angle a i)]
    false false RAY_STRENGTH 0 RAY_RADIUS.

(** ** Collisions *)

(** The component across the closest edge, pointed away from the
    rectangle: towards -x for the left edge, +x for the right edge, -y for
    the top edge and +y for the bottom edge. *)
Definition bounced (close_edge : nat) (vx vy : R) : Vector.t :=
  match close_edge with
  | 0%nat => [-1 * Rabs vx; vy]
  | 1%nat => [1 * Rabs vx; vy]
  | 2%nat => [vx; -1 * Rabs vy]
  | _ => [vx; 1 * Rabs vy]
  end.

(** A ray whose position and facing are 2D. *)
Definition ray_2D (self : Ray.t) : Prop :=
  is_2D (Ray.pos self) /\ is_2D (Ray.facing self).

(** The ray after a contact with [wall] that gave it the facing
    [facing']: half a step back, marked, weaker by [WALL_DECAY], its
    interest averaged with that of the wall. *)
Definition struck (wall : Wall.t) (self : Ray.t) (facing' : Vector.t) : Ray.t :=
  Ray.mk (Ray.id self) (Ray.parent self)
    (map (fun pf => fst pf - snd pf * RAY_SPEED / 2)
       (combine (Ray.pos self) (Ray.facing self)))
    facing' true (Ray.exited_bat self)
    (Ray.strength self - WALL_DECAY)
    ((Ray.interest self + Wall.interest wall) / 2)
    (Ray.radius self).

(** The bat after the response to a wall whose closest edge is
    [close_edge]: the step undone, the velocity bounced. *)
Definition repelled (self : Bat.t) (px py vx vy : R) (close_edge : nat) : Bat.t :=
  Bat.set_vel (Bat.set_pos self [px - vx / 60; py - vy / 60]) (bounced close_edge vx vy).

(** ** The flight of a ray *)

(** One tick of a ray that touches no wall and is not removed. *)
Definition glide (self : Ray.t) : Ray.t :=
  let self := Ray.set_strength self (Ray.strength self - RAY_DECAY) in
  Ray.set_pos self
    (Vector.__add__ (Ray.pos self)
       (Vector.Vec (Vector.__mul__ (Ray.facing self) (Vector.Num RAY_SPEED)))).

Fixpoint flight (k : nat) (self : Ray.t) : Ray.t :=
  match k with
  | O => self
  | S k' => glide (flight k' self)
  end.

(** The rectangle of the ray collides with no wall. *)
Definition clear_of (walls : list Wall.t) (self : Ray.t) : Prop :=
  exists rect, Ray.get_rect self = Ok rect
               /\ pygame.collidelist rect (map Wall.rect walls) = (-1)%Z.


(** ** Returning rays

    What [test_rays] does, by ray, for a bat whose rectangle is [br]. *)

Definition overlaps (br : pygame.Rect) (ray : Ray.t) : bool :=
  match Ray.get_rect ray with
  | Ok rr => pygame.colliderect br rr
  | Raise _ => false
  end.

(** A returning ray: it overlaps the bat, has met a wall and has left a
    bat before. *)
Definition returning (br : pygame.Rect) (ray : Ray.t) : bool :=
  overlaps br ray && (Ray.collided ray && Ray.exited_bat ray).

(** A ray away from the bat is marked as having left. *)
Definition mark (br : pygame.Rect) (ray : Ray.t) : Ray.t :=
  if overlaps br ray then ray
  else if negb (Ray.exited_bat ray) then Ray.set_exited_bat ray true else ray.

(** The beam made of a returning ray, when the bat holds [have] beams. *)
Definition echo_of (fresh : nat) (bat : nat) (bat_pos : Vector.t) (have : nat)
    (ray : Ray.t) : Beam.t :=
  let direction := map (fun a => a * -1) (Ray.facing ray) in
  Beam.init (fresh + have) bat bat_pos
    (map (fun comp => comp / sqrt (sumsq direction)) direction)
    (Ray.strength ray) (Ray.interest ray).

(** The beams made of the returning rays of a list, in its order; a
    returning ray whose facing is zero makes none. *)
Fixpoint echoes (fresh : nat) (bat : nat) (bat_pos : Vector.t) (br : pygame.Rect)
    (have : nat) (rays : list Ray.t) : list Beam.t :=
  match rays with
  | [] => []
  | ray :: rays' =>
      if returning br ray && negb (zero_2D (Ray.facing ray))
      then echo_of fresh bat bat_pos have ray
           :: echoes fresh bat bat_pos br (S have) rays'
      else echoes fresh bat bat_pos br have rays'
  end.

(** ** Rectangles *)

(** The range of a C int, in which pygame keeps the four numbers of a
    rectangle. *)
Definition INT_MIN : Z := -2147483648.
Definition INT_MAX : Z := 2147483647.

Definition fits_int (z : Z) : Prop := (INT_MIN <= z <= INT_MAX)%Z.

(** ** Ticks and frames *)

(** The ray moved one step along its facing. *)
Definition advanced (self : Ray.t) : Ray.t :=
  Ray.set_pos self
    (Vector.__add__ (Ray.pos self)
       (Vector.Vec (Vector.__mul__ (Ray.facing self) (Vector.Num RAY_SPEED)))).

(** [n] calls of [update] on the same beam, one per tick. *)
Fixpoint beam_ticks (n : nat) (self : Beam.t) (beams : list Beam.t)
  : result (Beam.t * list Beam.t) :=
  match n with
  | O => Ok (self, beams)
  | S k => st <- beam_ticks k self beams ;; Beam.update (fst st) (snd st)
  end.

(** [n] frames of a list of rays: the loop of lines 387-388 once in each
    frame. *)
Fixpoint frames (n : nat) (walls : list Wall.t) (rays : list Ray.t)
  : result (list Ray.t) :=
  match n with
  | O => Ok rays
  | S k => rays <- frames k walls rays ;; update_rays (length rays) walls 0 rays
  end.

(** What the loop relies on and keeps: the rays are distinct objects, 2D,
    of positive strength. *)
Definition rays_wf (rays : list Ray.t) : Prop :=
  NoDup (map Ray.id rays)
  /\ Forall ray_2D rays
  /\ Forall (fun ray => 0 < Ray.strength ray) rays.

(** What the frame relies on and keeps: a 2D bat with a facing that is
    not zero and a friction that is not 0, whose rays are well formed and
    older than [fresh], and whose beams are distinct objects. *)
Definition bat_wf (fresh : nat) (bat : Bat.t) : Prop :=
  is_2D (Bat.pos bat) /\ is_2D (Bat.vel bat) /\ is_2D (Bat.facing bat)
  /\ ~ is_zero (Bat.facing bat)
  /\ Bat.friction bat <> 0
  /\ rays_wf (Bat.rays bat)
  /\ Forall (fun ray => (Ray.id ray < fresh)%nat) (Bat.rays bat)
  /\ NoDup (map Beam.id (Bat.beams bat)).

(** ** Scenes *)

(** A bat at rest at (100, 100) that faces +x (heading 0) and has neither
    rays nor beams. *)
Definition bat_at_rest : Bat.t :=
  Bat.mk 0 [100; 100] [0; 0] [1; 0] 0 (11 / 10) [] [] BAT_RADIUS.

(** A bat with one beam, of half the initial strength, that points to +x
    with interest 1/2. *)
Definition bat_with_beam : Bat.t :=
  Bat.mk 0 [100; 100] [0; 0] [1; 0] 0 (11 / 10) []
    [Beam.init 1 0 [100; 100] [1; 0] 100 (1 / 2)] BAT_RADIUS.

(** A bat that faces +x with one beam that points to +y, down the
    screen, of half the initial strength and interest 1/2. *)
Definition bat_with_side_beam : Bat.t :=
  Bat.mk 0 [100; 100] [0; 0] [1; 0] 0 (11 / 10) []
    [Beam.init 1 0 [100; 100] [0; 1] 100 (1 / 2)] BAT_RADIUS.

(** A wall across the top of the arena, and a ray just under it that
    flies straight up into it. *)
Definition ceiling : Wall.t := Wall.init (0, 0)%Z (100, 10)%Z (-1 / 2) true.

Definition rising_ray : Ray.t :=
  Ray.mk 0 0 [50; 12] [0; -1] false false RAY_STRENGTH 0 RAY_RADIUS.

(** A second ray of the same emission, that flies to the right. *)
Definition twin_ray : Ray.t :=
  Ray.mk 1 0 [50; 12] [1; 0] false false RAY_STRENGTH 0 RAY_RADIUS.

(** A pane that does not block bats, a floor that does, and a bat that
    has just stepped down into both: its rectangle, (90, 85) with sides 20,
    overlaps the pane (90, 90, 20, 20) and the floor (0, 100, 200, 10). *)
Definition pane : Wall.t := Wall.init (90, 90)%Z (20, 20)%Z (1 / 5) false.

Definition floor : Wall.t := Wall.init (0, 100)%Z (200, 10)%Z (-1 / 2) true.

Definition falling_bat : Bat.t :=
  Bat.mk 0 [100; 95] [0; 60] [1; 0] 0 (11 / 10) [] [] BAT_RADIUS.

(** A ray with the zero facing that has come back over the bat at rest. *)
Definition still_ray : Ray.t :=
  Ray.mk 7 0 [100; 100] [0; 0] true true 50 0 RAY_RADIUS.

(** A ray on its last tick. *)
Definition spent_ray (id : nat) : Ray.t :=
  Ray.mk id 0 [50; 12] [0; -1] false false 1 0 RAY_RADIUS.

(* ================================================================= *)
(** * Properties *)

(** ** Deciding comparisons of reals *)

Ltac rdec :=
  repeat match goal with
    | |- context [Rlt_dec ?a ?b] => destruct (Rlt_dec a b); try lra
    | |- context [Rle_dec ?a ?b] => destruct (Rle_dec a b); try lra
    | |- context [Req_dec_T ?a ?b] => destruct (Req_dec_T a b); try lra
    end.

Section PyFacts.

Lemma bind_ok {A B : Type} (a : A) (k : A -> result B) : Py.bind (Ok a) k = k a.
Proof. reflexivity. Qed.

Lemma div_ok (a b : R) : b <> 0 -> Py.div a b = Ok (a / b).
Proof. intros Hb. unfold Py.div. destruct (Req_dec_T b 0); [contradiction | reflexivity]. Qed.

Lemma div_zero (a : R) : Py.div a 0 = Raise ZeroDivisionError.
Proof. unfold Py.div. destruct (Req_dec_T 0 0); [reflexivity | lra]. Qed.

Lemma mapM_div_ok (k : R) (l : list R) :
  k <> 0 -> mapM (fun a => Py.div a k) l = Ok (map (fun a => a / k) l).
Proof.
  intros Hk. induction l as [| a l IH]; simpl; [reflexivity |].
  rewrite (div_ok a k Hk), IH. reflexivity.
Qed.

Lemma Int_part_IZR (n : Z) : Int_part (IZR n) = n.
Proof.
  unfold Int_part.
  assert (H : (n + 1)%Z = up (IZR n)).
  { apply up_tech; [lra | rewrite plus_IZR; lra]. }
  rewrite <- H. lia.
Qed.

Lemma round_IZR (n : Z) : Py.round (IZR n) = n.
Proof.
  unfold Py.round. rewrite Int_part_IZR.
  replace (IZR n - IZR n) with 0 by ring.
  destruct (Rlt_dec 0 (1 / 2)); [reflexivity | lra].
Qed.

(** The floor behind [%]: the remainder lies in [[0, b)] and differs from
    the dividend by a multiple of [b]. *)
Lemma fmod_range (a b : R) : 0 < b -> 0 <= Py.fmod a b < b.
Proof.
  intros Hb. unfold Py.fmod.
  destruct (base_Int_part (a / b)) as [H1 H2].
  assert (Ha : a = b * (a / b)) by (field; lra).
  set (q := IZR (Int_part (a / b))) in *.
  split.
  - assert (b * q <= b * (a / b)) by (apply Rmult_le_compat_l; lra). lra.
  - assert (b * (a / b - q) < b * 1) by (apply Rmult_lt_compat_l; lra). lra.
Qed.

Lemma fmod_congr (a b : R) : exists k : Z, Py.fmod a b = a + IZR k * b.
Proof.
  exists (- Int_part (a / b))%Z. unfold Py.fmod. rewrite opp_IZR. ring.
Qed.

Lemma sum_from (l : list R) (a : R) : fold_left Rplus l a = a + Py.sum l.
Proof.
  unfold Py.sum. revert a.
  induction l as [| x l IH]; intros a; simpl; [lra |].
  rewrite IH, (IH (0 + x)). lra.
Qed.

Lemma sum_cons (x : R) (l : list R) : Py.sum (x :: l) = x + Py.sum l.
Proof. unfold Py.sum at 1. simpl. rewrite sum_from. lra. Qed.

End PyFacts.

(** ** Vector: norm *)

Section NormFacts.

Lemma sumsq_cons (x : R) (v : Vector.t) : sumsq (x :: v) = x ^ 2 + sumsq v.
Proof. unfold sumsq. simpl map. apply sum_cons. Qed.

Lemma sumsq_nonneg (v : Vector.t) : 0 <= sumsq v.
Proof.
  induction v as [| x v IH]; [unfold sumsq, Py.sum; simpl; lra |].
  rewrite sumsq_cons. pose proof (pow2_ge_0 x) as Hx. lra.
Qed.

Lemma sumsq_zero (v : Vector.t) : sumsq v = 0 <-> is_zero v.
Proof.
  induction v as [| x v IH].
  - split; [constructor | reflexivity].
  - rewrite sumsq_cons.
    pose proof (pow2_ge_0 x) as Hx. pose proof (sumsq_nonneg v) as Hv.
    split.
    + intros H. constructor; [nra | apply IH; lra].
    + intros H. inversion H as [| ? ? H0 Hr]; subst. apply IH in Hr. lra.
Qed.

(** [math.sqrt] never sees a negative number in [norm]. *)
Lemma norm_eq (v : Vector.t) : Vector.norm v = Ok (sqrt (sumsq v)).
Proof.
  unfold Vector.norm, math_sqrt. fold (sumsq v).
  pose proof (sumsq_nonneg v) as Hv.
  destruct (Rlt_dec (sumsq v) 0); [lra | reflexivity].
Qed.

Lemma sqrt_sumsq_zero (v : Vector.t) : sqrt (sumsq v) = 0 <-> is_zero v.
Proof.
  rewrite <- sumsq_zero. pose proof (sumsq_nonneg v) as Hv. split.
  - intros H. apply sqrt_eq_0; assumption.
  - intros H. rewrite H. apply sqrt_0.
Qed.

End NormFacts.

(** ** Vector: rotation *)

Lemma rotate_2D (x y theta : R) :
  Vector.rotate [x; y] theta
  = Ok [cos theta * x - sin theta * y; sin theta * x + cos theta * y].
Proof. reflexivity. Qed.

Lemma rotate_not_2D (v : Vector.t) (theta : R) :
  length v <> 2%nat ->
  Vector.rotate v theta
  = Raise (ValueError "Rotation axis not defined for greater than 2D vector").
Proof.
  intros H. unfold Vector.rotate, Vector.__len__.
  destruct (Nat.eqb_spec (length v) 2); [contradiction | reflexivity].
Qed.

(** C9.  For every 2D vector (x, y) and every angle theta, rotating the
    vector by theta and the result by -theta gives (x, y) back, exactly,
    over the reals. *)
Theorem rotate_then_back (x y theta : R) :
  (w <- Vector.rotate (Vector.Vector [x; y]) theta ;; Vector.rotate w (- theta))
  = Ok (Vector.Vector [x; y]).
Proof.
  simpl Vector.Vector. rewrite rotate_2D, bind_ok, rotate_2D.
  rewrite cos_neg, sin_neg.
  pose proof (sin2_cos2 theta) as H. unfold Rsqr in H.
  set (c := cos theta) in *. set (s := sin theta) in *.
  assert (Ex : c * (c * x - s * y) - - s * (s * x + c * y) = x).
  { replace x with ((s * s + c * c) * x) at 3 by (rewrite H; ring). ring. }
  assert (Ey : - s * (c * x - s * y) + c * (s * x + c * y) = y).
  { replace y with ((s * s + c * c) * y) at 3 by (rewrite H; ring). ring. }
  rewrite Ex, Ey. reflexivity.
Qed.

(** ** Vector: rotation by a matrix *)

Lemma rotate_matrix_rows (self : Vector.t) (row : list R) (rows : list (list R)) :
  Vector.rotate_matrix self (row :: rows) = Raise (NameError "v").
Proof. reflexivity. Qed.

(** C5.  [rotate] with a matrix that has at least one row stops at the
    unbound name [v] of its shape test, whatever the shape: the 2x2
    identity does not rotate (1, 2), it raises NameError, where the claim
    has the matrix-vector product returned.  And [matrix_mult], which
    [rotate] would call, gives on the example of its own docstring the
    componentwise products of each row with the vector, not the three dot
    products 14, 2, 26. *)
Theorem rotate_matrix_identity_raises :
  Vector.rotate_matrix (Vector.Vector [1; 2]) [[1; 0]; [0; 1]] = Raise (NameError "v")
  /\ (forall self row rows,
        Vector.rotate_matrix self (row :: rows) = Raise (NameError "v"))
  /\ Vector.matrix_mult (Vector.Vector [1; 2; 3]) [[1; 2; 3]; [-1; 0; 1]; [3; 4; 5]]
     = Ok [Vector.Vec [1 * 1; 2 * 2; 3 * 3];
           Vector.Vec [-1 * 1; 0 * 2; 1 * 3];
           Vector.Vec [3 * 1; 4 * 2; 5 * 3]].
Proof.
  split; [reflexivity |]. split; [intros; apply rotate_matrix_rows |].
  reflexivity.
Qed.

(** ** Vector: normalize and argument *)

Lemma Vector_nonempty (args : list R) : Vector.Vector args <> [].
Proof. destruct args; discriminate. Qed.

Lemma abs_le_norm (x : R) (rest : Vector.t) : Rabs x <= sqrt (sumsq (x :: rest)).
Proof.
  rewrite sumsq_cons. pose proof (sumsq_nonneg rest) as Hr.
  rewrite <- (sqrt_pow2 (Rabs x)) at 1 by apply Rabs_pos.
  apply sqrt_le_1_alt. rewrite pow2_abs. lra.
Qed.

Lemma abs_lt_norm (x y : R) (rest : Vector.t) :
  y <> 0 -> Rabs x < sqrt (sumsq (x :: y :: rest)).
Proof.
  intros Hy. rewrite !sumsq_cons. pose proof (sumsq_nonneg rest) as Hr.
  assert (Hy2 : 0 < y ^ 2) by (apply pow_lt_0_compat_l || nra).
  rewrite <- (sqrt_pow2 (Rabs x)) at 1 by apply Rabs_pos.
  apply sqrt_lt_1_alt. rewrite pow2_abs. pose proof (pow2_ge_0 x). lra.
Qed.

Lemma quotient_le_1 (x n : R) : 0 < n -> Rabs x <= n -> -1 <= x / n <= 1.
Proof.
  intros Hn Hx. assert (E : x / n * n = x) by (field; lra).
  assert (H : - n <= x <= n) by (revert Hx; unfold Rabs; destruct (Rcase_abs x); lra).
  split; nra.
Qed.

Lemma quotient_lt_1 (x n : R) : 0 < n -> Rabs x < n -> -1 < x / n < 1.
Proof.
  intros Hn Hx. assert (E : x / n * n = x) by (field; lra).
  pose proof (Rabs_def2 _ _ Hx) as [H1 H2]. split; nra.
Qed.

Lemma math_acos_ok (q : R) : -1 <= q <= 1 -> math_acos q = Ok (acos q).
Proof. intros H. unfold math_acos. rdec. reflexivity. Qed.

Lemma dot_unit_x (x y : R) (rest : Vector.t) :
  Vector.dot (Vector.Vector [1; 0]) (x :: y :: rest) = x.
Proof. unfold Vector.dot, Py.sum. simpl. ring. Qed.

Lemma dot_unit_x_1D (x : R) : Vector.dot (Vector.Vector [1; 0]) [x] = x.
Proof. unfold Vector.dot, Py.sum. simpl. ring. Qed.

(** The norm of a vector that is not zero is positive. *)
Lemma norm_pos (v : Vector.t) : ~ is_zero v -> 0 < sqrt (sumsq v).
Proof.
  intros Hz. pose proof (sqrt_pos (sumsq v)) as Hp.
  destruct (Req_dec (sqrt (sumsq v)) 0) as [E | E]; [| lra].
  apply sqrt_sumsq_zero in E. contradiction.
Qed.

Lemma normalize_zero (v : Vector.t) :
  v <> [] -> is_zero v -> Vector.normalize v = Raise ZeroDivisionError.
Proof.
  intros Hne Hz. unfold Vector.normalize. rewrite norm_eq, bind_ok.
  apply sqrt_sumsq_zero in Hz. rewrite Hz.
  destruct v as [| x v]; [contradiction |]. simpl. rewrite div_zero. reflexivity.
Qed.

Lemma normalize_nonzero (v : Vector.t) :
  ~ is_zero v ->
  Vector.normalize v = Ok (map (fun comp => comp / sqrt (sumsq v)) v).
Proof.
  intros Hz. unfold Vector.normalize. rewrite norm_eq, bind_ok.
  pose proof (norm_pos v Hz) as Hn.
  rewrite mapM_div_ok by lra. rewrite bind_ok.
  destruct v as [| x v]; [exfalso; apply Hz; constructor | reflexivity].
Qed.

Lemma argument_zero (v : Vector.t) :
  is_zero v -> Vector.argument v = Raise ZeroDivisionError.
Proof.
  intros Hz. unfold Vector.argument. rewrite norm_eq, bind_ok.
  apply sqrt_sumsq_zero in Hz. rewrite Hz, div_zero. reflexivity.
Qed.

(** A non-zero vector without a second component: the division and the
    arc cosine go through, reading [self.values[1]] does not. *)
Lemma argument_1D (x : R) : x <> 0 -> Vector.argument [x] = Raise IndexError.
Proof.
  intros Hx. unfold Vector.argument. rewrite norm_eq, bind_ok.
  assert (Hz : ~ is_zero [x]) by (intros H; inversion H; contradiction).
  pose proof (norm_pos _ Hz) as Hn. pose proof (abs_le_norm x []) as Ha.
  rewrite dot_unit_x_1D, div_ok, bind_ok by lra.
  rewrite math_acos_ok by (apply quotient_le_1; assumption).
  reflexivity.
Qed.

Lemma argument_nonzero (x y : R) (rest : Vector.t) :
  let v := x :: y :: rest in
  ~ is_zero v ->
  Vector.argument v
  = Ok (if Rlt_dec y 0 then 2 * PI - acos (x / sqrt (sumsq v))
        else acos (x / sqrt (sumsq v))).
Proof.
  intros v Hz. unfold Vector.argument. rewrite norm_eq, bind_ok.
  pose proof (norm_pos _ Hz) as Hn. pose proof (abs_le_norm x (y :: rest)) as Ha.
  unfold v at 1. rewrite dot_unit_x. fold v. rewrite div_ok, bind_ok by lra.
  rewrite math_acos_ok by (apply quotient_le_1; assumption).
  rewrite bind_ok. change (getitem v 1) with (Ok y). rewrite bind_ok.
  destruct (Rlt_dec y 0); reflexivity.
Qed.

(** The sine of the angle of a vector in the upper half of the plane. *)
Lemma sin_acos_2D (x y : R) :
  let n := sqrt (sumsq [x; y]) in
  0 < n -> sin (acos (x / n)) = Rabs y / n.
Proof.
  intros n Hn. pose proof (abs_le_norm x [y]) as Ha. fold n in Ha.
  rewrite sin_acos by (apply quotient_le_1; assumption).
  assert (Hnn : n * n = x * x + y * y).
  { unfold n. rewrite sqrt_sqrt by apply sumsq_nonneg.
    rewrite !sumsq_cons. unfold sumsq, Py.sum. simpl. ring. }
  replace (1 - (x / n)²) with (Rsqr (y / n)).
  - rewrite sqrt_Rsqr_abs. unfold Rdiv. rewrite Rabs_mult.
    rewrite (Rabs_right (/ n)); [reflexivity |].
    apply Rle_ge, Rlt_le, Rinv_0_lt_compat, Hn.
  - unfold Rsqr. apply Rmult_eq_reg_r with (n * n); [| nra].
    replace (y / n * (y / n) * (n * n)) with (y * y) by (field; lra).
    replace ((1 - x / n * (x / n)) * (n * n)) with (n * n - x * x) by (field; lra).
    lra.
Qed.

Lemma is_zero_dec (v : Vector.t) : is_zero v \/ ~ is_zero v.
Proof.
  destruct (Req_dec (sqrt (sumsq v)) 0) as [E | E].
  - left. apply sqrt_sumsq_zero, E.
  - right. intros H. apply E, sqrt_sumsq_zero, H.
Qed.

(** The angle of a non-zero vector with at least two components: in
    [[0, 2 PI)], in the lower half [[0, PI]] for y >= 0 and in the upper
    half for y < 0, with the cosine x / |v|; in 2D the sine is y / |v|, so
    that the angle turns from +x towards +y, clockwise on a screen whose y
    axis points down. *)
Lemma argument_angle (x y : R) (rest : Vector.t) :
  let v := x :: y :: rest in
  ~ is_zero v ->
  exists a, Vector.argument v = Ok a
    /\ 0 <= a < 2 * PI
    /\ (y < 0 -> PI <= a)
    /\ (0 <= y -> a <= PI)
    /\ cos a * sqrt (sumsq v) = x
    /\ (rest = [] -> sin a * sqrt (sumsq v) = y).
Proof.
  intros v Hz. subst v. rewrite (argument_nonzero x y rest Hz).
  pose proof (norm_pos _ Hz) as Hn. pose proof (abs_le_norm x (y :: rest)) as Ha.
  set (n := sqrt (sumsq (x :: y :: rest))) in *.
  pose proof (quotient_le_1 x n Hn Ha) as Hq.
  pose proof (acos_bound (x / n)) as Hb. pose proof PI_RGT_0 as Hpi.
  assert (Hcos : cos (acos (x / n)) * n = x).
  { rewrite cos_acos by assumption. field. lra. }
  destruct (Rlt_dec y 0) as [Hy | Hy]; eexists; (split; [reflexivity |]).
  - assert (Hlt : Rabs x < n) by (apply abs_lt_norm; lra).
    pose proof (acos_bound_lt (x / n) (quotient_lt_1 x n Hn Hlt)) as Hb'.
    repeat split; try lra.
    + replace (2 * PI - acos (x / n)) with (- acos (x / n) + 2 * PI) by ring.
      rewrite cos_plus, cos_2PI, sin_2PI, cos_neg. lra.
    + intros ->.
      replace (2 * PI - acos (x / n)) with (- acos (x / n) + 2 * PI) by ring.
      rewrite sin_plus, cos_2PI, sin_2PI, sin_neg.
      pose proof (sin_acos_2D x y Hn) as Hs. fold n in Hs. rewrite Hs.
      rewrite Rabs_left by assumption. field. lra.
  - repeat split; try lra.
    intros ->. pose proof (sin_acos_2D x y Hn) as Hs. fold n in Hs. rewrite Hs.
    rewrite Rabs_right by lra. field. lra.
Qed.

(** C6, amended.  Over the reals, on every vector the constructor can
    make, [normalize] and [argument] raise ZeroDivisionError exactly when
    the vector is zero, which is when its norm is 0.  Every other vector is
    normalized, to its components over the norm.  The argument needs a Y
    component: for a vector that is not zero and has an x and a y
    component it is an angle of [[0, 2 PI)], with cosine x / |v|, in
    [[PI, 2 PI)] when y is negative and in [[0, PI]] otherwise, measured
    from +x towards +y (in 2D its sine is y / |v|), which is clockwise on the
    screen; for a vector of one component that is not zero [argument]
    raises IndexError. *)
Theorem normalize_argument_zero_division (args : list R) :
  let v := Vector.Vector args in
  (Vector.normalize v = Raise ZeroDivisionError <-> is_zero v)
  /\ (Vector.argument v = Raise ZeroDivisionError <-> is_zero v)
  /\ (Vector.norm v = Ok 0 <-> is_zero v)
  /\ (~ is_zero v ->
      Vector.normalize v = Ok (map (fun comp => comp / sqrt (sumsq v)) v))
  /\ (forall x y rest, v = x :: y :: rest -> ~ is_zero v ->
      exists a, Vector.argument v = Ok a
        /\ 0 <= a < 2 * PI
        /\ (y < 0 -> PI <= a)
        /\ (0 <= y -> a <= PI)
        /\ cos a * sqrt (sumsq v) = x
        /\ (rest = [] -> sin a * sqrt (sumsq v) = y))
  /\ (forall x, v = [x] -> x <> 0 -> Vector.argument v = Raise IndexError).
Proof.
  intros v. pose proof (Vector_nonempty args) as Hne. fold v in Hne.
  assert (H1D : forall x, v = [x] -> x <> 0 -> Vector.argument v = Raise IndexError)
    by (intros x E Hx; rewrite E; apply argument_1D, Hx).
  split; [| split; [| split; [| split; [| split; [| exact H1D]]]]]; try split.
  - intros H. destruct (is_zero_dec v) as [Hz | Hz]; [assumption |].
    rewrite (normalize_nonzero v Hz) in H. discriminate.
  - apply normalize_zero, Hne.
  - intros H. destruct (is_zero_dec v) as [Hz | Hz]; [assumption |].
    destruct v as [| x [| y rest]]; [contradiction | |].
    + rewrite argument_1D in H; [discriminate |].
      intros ->. apply Hz. repeat constructor.
    + rewrite (argument_nonzero x y rest Hz) in H. discriminate.
  - apply argument_zero.
  - rewrite norm_eq. intros H. apply sqrt_sumsq_zero. congruence.
  - intros H. rewrite norm_eq. apply sqrt_sumsq_zero in H. congruence.
  - apply normalize_nonzero.
  - intros x y rest E Hz. rewrite E in *. apply argument_angle, Hz.
Qed.

(** ** Bat: the aggregate of the beams *)

Lemma is_2D_inv (v : Vector.t) : is_2D v -> exists x y, v = [x; y].
Proof.
  destruct v as [| x [| y [| z v]]]; try discriminate.
  intros _. exists x, y. reflexivity.
Qed.

Lemma total_cons (f : Beam.t -> R) (beam : Beam.t) (beams : list Beam.t) :
  total f (beam :: beams) = f beam + total f beams.
Proof. reflexivity. Qed.

Lemma add_scaled (a b dx dy k i : R) :
  Vector.__add__ [a; b]
    (Vector.Vec (Vector.__mul__ (Vector.__rmul__ [dx; dy] (Vector.Num k)) (Vector.Num i)))
  = [a + dx * k * i; b + dy * k * i].
Proof. reflexivity. Qed.

Lemma average_beam_from (beams : list Beam.t) (a b : R) :
  Forall (fun beam => is_2D (Beam.rel beam)) beams ->
  fold_left
    (fun average_beam beam =>
       Vector.__add__ average_beam
         (Vector.Vec
            (Vector.__mul__
               (Vector.__rmul__ (Beam.rel beam)
                  (Vector.Num (Beam.strength beam / RAY_STRENGTH)))
               (Vector.Num (Beam.interest beam)))))
    beams [a; b]
  = [a + total (weighted 0) beams; b + total (weighted 1) beams].
Proof.
  intros H. revert a b. induction H as [| beam beams H2 _ IH]; intros a b.
  - simpl. f_equal; [| f_equal]; ring.
  - destruct (is_2D_inv _ H2) as [dx [dy E]].
    cbn [fold_left]. rewrite E, add_scaled, IH, !total_cons.
    assert (E0 : weighted 0 beam = dx * (Beam.strength beam / RAY_STRENGTH) * Beam.interest beam)
      by (unfold weighted; rewrite E; cbn [nth]; ring).
    assert (E1 : weighted 1 beam = dy * (Beam.strength beam / RAY_STRENGTH) * Beam.interest beam)
      by (unfold weighted; rewrite E; cbn [nth]; ring).
    rewrite E0, E1. f_equal; [| f_equal]; ring.
Qed.

Lemma average_beam_eq (bat : Bat.t) :
  Forall (fun beam => is_2D (Beam.rel beam)) (Bat.beams bat) ->
  Bat.get_average_beam bat = aggregate_echo (Bat.beams bat).
Proof.
  intros H. unfold Bat.get_average_beam, aggregate_echo.
  simpl Vector.Vector. rewrite average_beam_from by assumption.
  f_equal; [| f_equal]; ring.
Qed.

(** C7.  When every beam of the bat has a 2D direction, the vector that
    [get_average_beam] returns is the sum over the beams of
    (strength / RAY_STRENGTH) * direction * interest; and for a bat without
    beams it is the zero vector (0, 0). *)
Theorem average_beam_is_weighted_sum (bat : Bat.t) :
  (Forall (fun beam => is_2D (Beam.rel beam)) (Bat.beams bat) ->
   Bat.get_average_beam bat = aggregate_echo (Bat.beams bat))
  /\ (Bat.beams bat = [] -> Bat.get_average_beam bat = [0; 0]).
Proof.
  split.
  - apply average_beam_eq.
  - intros E. unfold Bat.get_average_beam. rewrite E. reflexivity.
Qed.

(** ** The steering policy *)

Lemma first_or_second_2D (a b : R) :
  first_or_second [a; b] = Ok (if Req_dec_T a 0 then if Req_dec_T b 0 then false else true
                               else true).
Proof.
  unfold first_or_second, truthy. cbn [Vector.__getitem__ getitem nth_error Py.bind].
  destruct (Req_dec_T a 0); [| reflexivity].
  cbn [Py.bind]. destruct (Req_dec_T b 0); reflexivity.
Qed.

Lemma first_or_second_zero (v : Vector.t) :
  is_2D v -> is_zero v -> first_or_second v = Ok false.
Proof.
  intros H2 Hz. destruct (is_2D_inv v H2) as [a [b ->]].
  inversion Hz as [| ? ? Ha Hz']; subst. inversion Hz' as [| ? ? Hb _]; subst.
  rewrite first_or_second_2D. rdec. reflexivity.
Qed.

Lemma first_or_second_nonzero (v : Vector.t) :
  is_2D v -> ~ is_zero v -> first_or_second v = Ok true.
Proof.
  intros H2 Hz. destruct (is_2D_inv v H2) as [a [b ->]].
  rewrite first_or_second_2D.
  destruct (Req_dec_T a 0) as [Ha | Ha]; [| reflexivity].
  destruct (Req_dec_T b 0) as [Hb | Hb]; [| reflexivity].
  exfalso. apply Hz. subst. repeat constructor.
Qed.

Lemma argument_2D_ok (v : Vector.t) :
  is_2D v -> ~ is_zero v -> exists a, Vector.argument v = Ok a /\ 0 <= a < 2 * PI.
Proof.
  intros H2 Hz. destruct (is_2D_inv v H2) as [x [y ->]].
  destruct (argument_angle x y [] Hz) as [a [E [Hr _]]].
  exists a. split; assumption.
Qed.

Lemma fmod_unique (a m r : R) (k : Z) :
  0 < m -> 0 <= r < m -> r = a + IZR k * m -> Py.fmod a m = r.
Proof.
  intros Hm Hr E. destruct (fmod_congr a m) as [k' E'].
  pose proof (fmod_range a m Hm) as Hr'. rewrite E' in *.
  assert (Hd : (IZR k' - IZR k) * m = a + IZR k' * m - r) by (rewrite E; ring).
  assert (H1 : IZR (k' - k) < IZR 1).
  { rewrite minus_IZR. apply Rmult_lt_reg_r with m; [exact Hm |]. lra. }
  assert (H2 : IZR (-1) < IZR (k' - k)).
  { rewrite minus_IZR. apply Rmult_lt_reg_r with m; [exact Hm |]. lra. }
  apply lt_IZR in H1, H2. assert (k' = k) by lia. subst k'. lra.
Qed.

Lemma cos_period_Z (x : R) (k : Z) : cos (x + IZR k * (2 * PI)) = cos x.
Proof.
  destruct (Z_le_gt_dec 0 k) as [Hk | Hk].
  - rewrite <- (Z2Nat.id k Hk), <- INR_IZR_INZ.
    replace (x + INR (Z.to_nat k) * (2 * PI)) with (x + 2 * INR (Z.to_nat k) * PI) by ring.
    apply cos_period.
  - rewrite <- (cos_period (x + IZR k * (2 * PI)) (Z.to_nat (- k))).
    rewrite INR_IZR_INZ, Z2Nat.id by lia. rewrite opp_IZR. f_equal. ring.
Qed.

Lemma sin_period_Z (x : R) (k : Z) : sin (x + IZR k * (2 * PI)) = sin x.
Proof.
  destruct (Z_le_gt_dec 0 k) as [Hk | Hk].
  - rewrite <- (Z2Nat.id k Hk), <- INR_IZR_INZ.
    replace (x + INR (Z.to_nat k) * (2 * PI)) with (x + 2 * INR (Z.to_nat k) * PI) by ring.
    apply sin_period.
  - rewrite <- (sin_period (x + IZR k * (2 * PI)) (Z.to_nat (- k))).
    rewrite INR_IZR_INZ, Z2Nat.id by lia. rewrite opp_IZR. f_equal. ring.
Qed.

(** Between -2 PI and 2 PI the cosine is 1 at 0 only. *)
Lemma cos_1_near_0 (x : R) : - (2 * PI) < x < 2 * PI -> cos x = 1 -> x = 0.
Proof.
  intros Hr Hc. pose proof PI_RGT_0 as Hpi.
  pose proof (cos_2a_sin (x / 2)) as H.
  replace (2 * (x / 2)) with x in H by field. rewrite Hc in H.
  assert (Hs : sin (x / 2) = 0) by nra.
  destruct (Rle_dec 0 (x / 2)) as [Hp | Hn].
  - destruct (sin_eq_O_2PI_0 (x / 2)) as [E | [E | E]]; lra.
  - assert (Hs' : sin (- (x / 2)) = 0) by (rewrite sin_neg; lra).
    destruct (sin_eq_O_2PI_0 (- (x / 2))) as [E | [E | E]]; lra.
Qed.

Lemma same_point_same_angle (a b : R) :
  cos a = cos b -> sin a = sin b -> cos (a - b) = 1.
Proof.
  intros Ec Es. rewrite cos_minus, Ec, Es.
  pose proof (sin2_cos2 b) as H. unfold Rsqr in H. lra.
Qed.

(** The direction of a 2D vector that is not zero is the point of the
    unit circle at its argument. *)
Lemma argument_direction (v : Vector.t) :
  is_2D v -> ~ is_zero v ->
  exists a, Vector.argument v = Ok a /\ 0 <= a < 2 * PI /\ direction v = [cos a; sin a].
Proof.
  intros H2 Hz. destruct (is_2D_inv v H2) as [x [y ->]].
  destruct (argument_angle x y [] Hz) as [a [E [Hr [_ [_ [Hc Hs]]]]]].
  specialize (Hs eq_refl). pose proof (norm_pos _ Hz) as Hn.
  exists a. split; [exact E |]. split; [exact Hr |].
  unfold direction. cbn [map]. set (n := sqrt (sumsq [x; y])) in *.
  f_equal; [| f_equal]; [rewrite <- Hc | rewrite <- Hs]; field; lra.
Qed.

Lemma turned_polar (a t : R) :
  turned [cos a; sin a] t = [cos (a + t); sin (a + t)].
Proof.
  cbn [turned]. rewrite cos_plus, sin_plus.
  apply f_equal2; [ring | apply f_equal2; [ring | reflexivity]].
Qed.

Lemma shortest_turn_range (a b : R) : - PI < shortest_turn a b <= PI.
Proof.
  unfold shortest_turn. pose proof PI_RGT_0 as Hpi.
  pose proof (fmod_range (a - b) (2 * PI) ltac:(lra)) as Hr.
  destruct (Rlt_dec PI (fmod (a - b) (2 * PI))); lra.
Qed.

Lemma shortest_turn_congr (a b : R) :
  exists k : Z, shortest_turn a b = a - b + IZR k * (2 * PI).
Proof.
  unfold shortest_turn. destruct (fmod_congr (a - b) (2 * PI)) as [k E].
  destruct (Rlt_dec PI (fmod (a - b) (2 * PI))).
  - exists (k - 1)%Z. rewrite E, minus_IZR. ring.
  - exists k. exact E.
Qed.

Lemma add_gain (vx vy fx fy gain : R) :
  Vector.__add__ [vx; vy] (Vector.Vec (Vector.__rmul__ [fx; fy] (Vector.Num gain)))
  = [vx + fx * gain; vy + fy * gain].
Proof. reflexivity. Qed.

(** C3.  Steering of a bat whose velocity and facing are 2D, whose facing
    is not zero and whose beams have 2D directions ([AUTO_CONTROLLED] is
    set, so every bat is steered).  With [echo] the aggregate of the beams
    and [gain] = 20 * |echo| + DEFAULT_SPEED: the step succeeds, the
    velocity grows by [gain] * facing and nothing but velocity and angular
    velocity changes; when [echo] is zero the angular velocity grows by PI;
    otherwise it drops by the angle from the facing to [echo], that is
    (argument facing - argument echo) mod 2 PI less 2 PI when above PI, a
    turn in [(- PI, PI]] that differs from the difference of the two
    arguments by a multiple of 2 PI.  It is the signed angle between the
    two directions: the direction of the facing turned back by it is the
    direction of [echo], and no other angle of [(- PI, PI]] does that. *)
Theorem steer_policy (is_bats0 : bool) (bat : Bat.t) :
  is_2D (Bat.vel bat) ->
  is_2D (Bat.facing bat) ->
  ~ is_zero (Bat.facing bat) ->
  Forall (fun beam => is_2D (Beam.rel beam)) (Bat.beams bat) ->
  let echo := aggregate_echo (Bat.beams bat) in
  let gain := 20 * sqrt (sumsq echo) + DEFAULT_SPEED in
  exists bat',
    steer is_bats0 bat = Ok bat'
    /\ Bat.vel bat'
       = map (fun vf => fst vf + snd vf * gain) (combine (Bat.vel bat) (Bat.facing bat))
    /\ (is_zero echo -> Bat.ang_vel bat' = Bat.ang_vel bat + PI)
    /\ (~ is_zero echo ->
        exists a_facing a_echo,
          Vector.argument (Bat.facing bat) = Ok a_facing
          /\ Vector.argument echo = Ok a_echo
          /\ Vector.angle_to (Bat.facing bat) echo
             = Ok (fmod (a_facing - a_echo) (2 * PI))
          /\ Bat.ang_vel bat' = Bat.ang_vel bat - shortest_turn a_facing a_echo
          /\ - PI < shortest_turn a_facing a_echo <= PI
          /\ turned (direction (Bat.facing bat)) (- shortest_turn a_facing a_echo)
             = direction echo
          /\ (forall t, - PI < t <= PI ->
                turned (direction (Bat.facing bat)) (- t) = direction echo ->
                t = shortest_turn a_facing a_echo)
          /\ exists k : Z,
               shortest_turn a_facing a_echo = a_facing - a_echo + IZR k * (2 * PI))
    /\ Bat.pos bat' = Bat.pos bat
    /\ Bat.facing bat' = Bat.facing bat
    /\ Bat.rays bat' = Bat.rays bat
    /\ Bat.beams bat' = Bat.beams bat.
Proof.
  intros Hv Hf Hfz Hb echo gain.
  assert (Hadd :
    Vector.__add__ (Bat.vel bat)
      (Vector.Vec (Vector.__rmul__ (Bat.facing bat) (Vector.Num gain)))
    = map (fun vf => fst vf + snd vf * gain) (combine (Bat.vel bat) (Bat.facing bat))).
  { destruct (is_2D_inv _ Hv) as [vx [vy ->]].
    destruct (is_2D_inv _ Hf) as [fx [fy ->]]. apply add_gain. }
  assert (He2 : is_2D echo) by reflexivity.
  unfold steer. rewrite (average_beam_eq bat Hb). fold echo.
  unfold AUTO_CONTROLLED. rewrite orb_true_r.
  rewrite norm_eq, bind_ok. fold gain. rewrite Hadd.
  destruct (is_zero_dec echo) as [Hz | Hz].
  - rewrite (first_or_second_zero echo He2 Hz), bind_ok.
    eexists. split; [reflexivity |]. cbn.
    repeat split; try reflexivity. intros Hn. contradiction.
  - rewrite (first_or_second_nonzero echo He2 Hz), bind_ok.
    destruct (argument_direction _ Hf Hfz) as [a_f [Eaf [_ Hdf]]].
    destruct (argument_direction _ He2 Hz) as [a_e [Eae [_ Hde]]].
    pose proof (shortest_turn_range a_f a_e) as Hrange.
    assert (Hturn : turned (direction (Bat.facing bat)) (- shortest_turn a_f a_e)
                    = direction echo).
    { destruct (shortest_turn_congr a_f a_e) as [k Ek].
      rewrite Hdf, Hde, turned_polar.
      replace (a_f + - shortest_turn a_f a_e) with (a_e + IZR (- k) * (2 * PI))
        by (rewrite Ek, opp_IZR; ring).
      rewrite cos_period_Z, sin_period_Z. reflexivity. }
    assert (Huniq : forall t, - PI < t <= PI ->
                      turned (direction (Bat.facing bat)) (- t) = direction echo ->
                      t = shortest_turn a_f a_e).
    { intros t Ht Et. rewrite <- Hturn in Et. rewrite Hdf, !turned_polar in Et.
      injection Et as Ec Es.
      pose proof (same_point_same_angle _ _ Ec Es) as H1.
      assert (Hd : a_f + - t - (a_f + - shortest_turn a_f a_e) = 0)
        by (apply cos_1_near_0; [lra | exact H1]).
      lra. }
    unfold Vector.angle_to. cbn [Bat.facing Bat.set_vel].
    rewrite Eaf, bind_ok, Eae, bind_ok, bind_ok.
    eexists. split; [reflexivity |].
    cbn [Bat.vel Bat.ang_vel Bat.pos Bat.facing Bat.rays Bat.beams
           Bat.set_vel Bat.set_ang_vel].
    split; [reflexivity |]. split; [intros Hn; contradiction |].
    split; [| repeat split; reflexivity].
    intros _. exists a_f, a_e.
    split; [reflexivity |]. split; [reflexivity |]. split; [reflexivity |].
    split; [reflexivity |]. split; [exact Hrange |].
    split; [exact Hturn |]. split; [exact Huniq |].
    apply shortest_turn_congr.
Qed.

Lemma side_beam_2D :
  Forall (fun beam => is_2D (Beam.rel beam)) (Bat.beams bat_with_side_beam).
Proof. repeat constructor. Qed.

Lemma side_echo : aggregate_echo (Bat.beams bat_with_side_beam) = [0; 1 / 4].
Proof.
  unfold aggregate_echo, bat_with_side_beam, total, weighted, RAY_STRENGTH.
  cbn. f_equal; [| f_equal]; field.
Qed.

Lemma side_echo_not_zero : ~ is_zero (aggregate_echo (Bat.beams bat_with_side_beam)).
Proof.
  rewrite side_echo. intros H. inversion H as [| ? ? _ H']; subst.
  inversion H' as [| ? ? Hb _]; subst. lra.
Qed.

Lemma side_echo_argument :
  Vector.argument (aggregate_echo (Bat.beams bat_with_side_beam)) = Ok (PI / 2).
Proof.
  pose proof side_echo_not_zero as Hz. rewrite side_echo in *.
  rewrite (argument_nonzero 0 (1 / 4) [] Hz).
  destruct (Rlt_dec (1 / 4) 0) as [H | _]; [lra |].
  unfold Rdiv at 1. rewrite Rmult_0_l, acos_0. reflexivity.
Qed.

Lemma side_turn : shortest_turn 0 (PI / 2) = - (PI / 2).
Proof.
  pose proof PI_RGT_0 as Hpi. unfold shortest_turn.
  rewrite (fmod_unique (0 - PI / 2) (2 * PI) (3 * PI / 2) 1) by lra.
  destruct (Rlt_dec PI (3 * PI / 2)) as [_ | H]; lra.
Qed.

Lemma unit_x_not_zero : ~ is_zero [1; 0].
Proof. intros H. inversion H; lra. Qed.

(** ** Bat: emission *)

Lemma rotate_unit_x (theta : R) :
  Vector.rotate (Vector.Vector [1; 0]) theta = Ok [cos theta; sin theta].
Proof.
  simpl Vector.Vector. rewrite rotate_2D. f_equal. f_equal; [| f_equal]; ring.
Qed.

Lemma argument_unit_x : Vector.argument [1; 0] = Ok 0.
Proof.
  rewrite (argument_nonzero 1 0 [] unit_x_not_zero).
  assert (E : sumsq [1; 0] = 1) by (unfold sumsq, Py.sum; simpl; ring).
  rewrite E, sqrt_1. replace (1 / 1) with 1 by field. rewrite acos_1.
  destruct (Rlt_dec 0 0); [lra | reflexivity].
Qed.

Lemma emit_loop_eq (fresh : nat) (a : R) (range : list nat) (self : Bat.t) :
  Vector.argument (Bat.facing self) = Ok a ->
  Bat.emit_loop fresh self range
  = Ok (Bat.set_rays self (Bat.rays self ++ map (emitted fresh self a) range)).
Proof.
  revert self. induction range as [| i range IH]; intros self Ha.
  - simpl. rewrite app_nil_r. destruct self; reflexivity.
  - cbn [Bat.emit_loop]. rewrite Ha, bind_ok.
    unfold Ray.init. rewrite rotate_unit_x, bind_ok, bind_ok.
    rewrite IH by exact Ha. cbn [map].
    unfold Bat.set_rays. cbn. rewrite <- app_assoc. reflexivity.
Qed.

(** Every emission that succeeds appends [RAYS_PER_EMIT] rays, each at the
    position of the bat, with full strength, with the headings
    [a - EMISSION_ANGLE / 2 + EMISSION_ANGLE / RAYS_PER_EMIT * i]. *)
Lemma emit_eq (fresh : nat) (a : R) (self : Bat.t) :
  Vector.argument (Bat.facing self) = Ok a ->
  Bat.emit fresh self
  = Ok (Bat.set_rays self
          (Bat.rays self ++ map (emitted fresh self a) (seq 0 RAYS_PER_EMIT))).
Proof. apply emit_loop_eq. Qed.

Lemma emit_angle_heading_0 (i : nat) :
  Bat.emit_angle 0 i = - (5 * PI / 8) + INR i * (5 * PI / 128).
Proof.
  unfold Bat.emit_angle, EMISSION_ANGLE, RAYS_PER_EMIT.
  replace (INR 32) with 32 by (rewrite INR_IZR_INZ; reflexivity).
  field.
Qed.

Lemma emit_angle_never_upper_end (i : nat) (k : Z) :
  (i < 32)%nat -> Bat.emit_angle 0 i <> 5 * PI / 8 + IZR k * (2 * PI).
Proof.
  intros Hi E. rewrite emit_angle_heading_0 in E.
  pose proof PI_RGT_0 as Hpi.
  assert (Ht : 0 <= INR i <= 31).
  { split; [apply pos_INR |].
    replace 31 with (INR 31) by (rewrite INR_IZR_INZ; reflexivity).
    apply le_INR. lia. }
  assert (Ek : IZR k = - (5 / 8) + INR i * (5 / 256)).
  { apply Rmult_eq_reg_r with (2 * PI); [| lra]. lra. }
  assert (Hk : IZR (-1) < IZR k < IZR 0) by lra.
  destruct Hk as [H1 H2]. apply lt_IZR in H1, H2. lia.
Qed.

(** The constructor gives the bat at rest for the position (100, 100) and
    the angle 0. *)
Lemma bat_init_heading_0 : Bat.init 0 [100; 100] 0 = Ok bat_at_rest.
Proof.
  unfold Bat.init. rewrite rotate_unit_x, bind_ok, cos_0, sin_0. reflexivity.
Qed.

(** C2.  The emission of the bat at (100, 100) with heading 0: it succeeds
    and appends exactly 32 rays, at (100, 100), with full strength, whose
    headings are [- 5 PI / 8 + i * 5 PI / 128] for i = 0 .. 31, evenly
    spaced by 5 PI / 128.  The least heading is - 5 PI / 8, but the
    greatest is 5 PI / 8 - 5 PI / 128: no ray has the heading + 5 PI / 8,
    not even modulo 2 PI, and the fan is not centred on the heading 0 of
    the bat. *)
Theorem emit_fan_heading_0 (fresh : nat) :
  exists bat',
    (bat <- Bat.init 0 [100; 100] 0 ;; Bat.emit fresh bat) = Ok bat'
    /\ length (Bat.rays bat') = 32%nat
    /\ map Ray.facing (Bat.rays bat')
       = map (fun i => [cos (Bat.emit_angle 0 i); sin (Bat.emit_angle 0 i)]) (seq 0 32)
    /\ Forall (fun ray => Ray.pos ray = [100; 100] /\ Ray.strength ray = RAY_STRENGTH)
         (Bat.rays bat')
    /\ Bat.emit_angle 0 0 = - (5 * PI / 8)
    /\ Bat.emit_angle 0 31 = 5 * PI / 8 - 5 * PI / 128
    /\ (forall i, (i < 32)%nat ->
          - (5 * PI / 8) <= Bat.emit_angle 0 i <= 5 * PI / 8 - 5 * PI / 128)
    /\ (forall i k, (i < 32)%nat ->
          Bat.emit_angle 0 i <> 5 * PI / 8 + IZR k * (2 * PI)).
Proof.
  rewrite bat_init_heading_0, bind_ok.
  rewrite (emit_eq fresh 0 bat_at_rest argument_unit_x).
  eexists. split; [reflexivity |].
  cbn [Bat.rays Bat.set_rays bat_at_rest app].
  pose proof PI_RGT_0 as Hpi.
  split; [rewrite length_map, length_seq; reflexivity |].
  split; [rewrite map_map; reflexivity |].
  split; [apply Forall_forall; intros ray Hin; apply in_map_iff in Hin;
          destruct Hin as [i [<- _]]; split; reflexivity |].
  split; [rewrite emit_angle_heading_0; simpl INR; lra |].
  split; [rewrite emit_angle_heading_0;
          replace (INR 31) with 31 by (rewrite INR_IZR_INZ; reflexivity); lra |].
  split.
  - intros i Hi. rewrite emit_angle_heading_0.
    assert (Ht : 0 <= INR i <= 31).
    { split; [apply pos_INR |].
      replace 31 with (INR 31) by (rewrite INR_IZR_INZ; reflexivity).
      apply le_INR. lia. }
    split; nra.
  - intros i k Hi. apply emit_angle_never_upper_end, Hi.
Qed.

(** ** Rectangles and the closest edge *)

Lemma get_rect_of_2D (x y : R) (radius : Z) :
  get_rect_of [x; y] radius
  = Ok (pygame.mkRect (Py.round (x - IZR radius)) (Py.round (y - IZR radius))
          (2 * radius) (2 * radius)).
Proof. reflexivity. Qed.

Lemma get_rect_of_int (a b radius : Z) :
  get_rect_of [IZR a; IZR b] radius
  = Ok (pygame.mkRect (a - radius) (b - radius) (2 * radius) (2 * radius)).
Proof. rewrite get_rect_of_2D, <- !minus_IZR, !round_IZR. reflexivity. Qed.

(** [collidelist] gives -1 or the position of a rectangle of the list, the
    first one that collides. *)
Lemma collidelist_from_spec (a : pygame.Rect) (l : list pygame.Rect) (i : Z) :
  let j := pygame.collidelist_from i a l in
  (j = (-1)%Z /\ Forall (fun r => pygame.colliderect a r = false) l)
  \/ ((i <= j)%Z
      /\ exists r, nth_error l (Z.to_nat (j - i)) = Some r
                   /\ pygame.colliderect a r = true
                   /\ Forall (fun r' => pygame.colliderect a r' = false)
                        (firstn (Z.to_nat (j - i)) l)).
Proof.
  revert i. induction l as [| r l IH]; intros i; simpl.
  - left. split; [reflexivity | constructor].
  - destruct (pygame.colliderect a r) eqn:Hc.
    + right. split; [lia |]. exists r. rewrite Z.sub_diag. simpl.
      repeat split; [assumption | constructor].
    + destruct (IH (i + 1)%Z) as [[E Hall] | [Hle [r' [Hn [Hc' Hall]]]]].
      * left. split; [exact E | constructor; assumption].
      * right. split; [lia |]. exists r'.
        replace (Z.to_nat (pygame.collidelist_from (i + 1) a l - i))
          with (S (Z.to_nat (pygame.collidelist_from (i + 1) a l - (i + 1)))) by lia.
        simpl. repeat split; [assumption | assumption | constructor; assumption].
Qed.

Lemma collidelist_hit (a : pygame.Rect) (walls : list Wall.t) :
  let i := pygame.collidelist a (map Wall.rect walls) in
  (i =? -1)%Z = false ->
  exists wall, getitem walls (Z.to_nat i) = Ok wall
               /\ pygame.colliderect a (Wall.rect wall) = true.
Proof.
  intros i Hi. apply Z.eqb_neq in Hi.
  destruct (collidelist_from_spec a (map Wall.rect walls) 0) as [[E _] | [_ [r [Hn [Hc _]]]]].
  - contradiction.
  - fold (pygame.collidelist a (map Wall.rect walls)) in Hn. fold i in Hn.
    rewrite Z.sub_0_r in Hn. rewrite nth_error_map in Hn.
    unfold getitem. destruct (nth_error walls (Z.to_nat i)) as [wall |]; [| discriminate].
    exists wall. split; [reflexivity |]. simpl in Hn. congruence.
Qed.

(** The closest edge of a rectangle to a 2D point: the first of left,
    right, top, bottom whose distance is the least. *)
Lemma close_edge_of_2D (px py : R) (rect : pygame.Rect) :
  let l := Rabs (px - IZR (pygame.left rect)) in
  let r := Rabs (px - IZR (pygame.right rect)) in
  let t := Rabs (py - IZR (pygame.top rect)) in
  let b := Rabs (py - IZR (pygame.bottom rect)) in
  (close_edge_of [px; py] rect = Ok 0%nat /\ l <= r /\ l <= t /\ l <= b)
  \/ (close_edge_of [px; py] rect = Ok 1%nat /\ r < l /\ r <= t /\ r <= b)
  \/ (close_edge_of [px; py] rect = Ok 2%nat /\ t < l /\ t < r /\ t <= b)
  \/ (close_edge_of [px; py] rect = Ok 3%nat /\ b < l /\ b < r /\ b < t).
Proof.
  intros l r t b. unfold close_edge_of, edge_lengths.
  cbn [Vector.__getitem__ getitem nth_error Py.bind Py.min Py.min_from Py.index].
  fold l r t b.
  destruct (Rlt_dec r l); destruct (Rlt_dec t r); destruct (Rlt_dec t l);
    destruct (Rlt_dec b t); destruct (Rlt_dec b r); destruct (Rlt_dec b l);
    try lra;
    repeat (match goal with
            | |- context [Req_dec_T ?u ?v] => destruct (Req_dec_T u v); try lra
            end);
    cbn [Py.bind];
    first [ left; repeat split; (reflexivity || lra)
          | right; left; repeat split; (reflexivity || lra)
          | right; right; left; repeat split; (reflexivity || lra)
          | right; right; right; repeat split; (reflexivity || lra) ].
Qed.

Lemma close_edge_of_lt_4 (px py : R) (rect : pygame.Rect) :
  exists e, close_edge_of [px; py] rect = Ok e /\ (e < 4)%nat.
Proof.
  destruct (close_edge_of_2D px py rect) as [[E _] | [[E _] | [[E _] | [E _]]]];
    eexists; (split; [exact E | lia]).
Qed.

Lemma bounce_2D (px py : R) (rect : pygame.Rect) (vx vy : R) (e : nat) :
  close_edge_of [px; py] rect = Ok e -> (e < 4)%nat ->
  bounce [px; py] rect [vx; vy] = Ok (bounced e vx vy).
Proof.
  intros E He. unfold bounce. rewrite E, bind_ok.
  destruct e as [| [| [| [| e]]]]; try lia; reflexivity.
Qed.

(** ** Ray: collision *)

Lemma ray_get_rect_ok (self : Ray.t) :
  is_2D (Ray.pos self) -> exists rect, Ray.get_rect self = Ok rect.
Proof.
  intros H. destruct (is_2D_inv _ H) as [x [y E]].
  unfold Ray.get_rect. rewrite E, get_rect_of_2D. eexists. reflexivity.
Qed.

Lemma ray_test_collision_miss (walls : list Wall.t) (self : Ray.t) (rect : pygame.Rect) :
  Ray.get_rect self = Ok rect ->
  pygame.collidelist rect (map Wall.rect walls) = (-1)%Z ->
  Ray.test_collision walls self = Ok self.
Proof.
  intros Hr Hc. unfold Ray.test_collision. rewrite Hr, bind_ok, Hc. reflexivity.
Qed.

Lemma ray_test_collision_hit (walls : list Wall.t) (self : Ray.t) (rect : pygame.Rect)
    (px py fx fy : R) :
  Ray.pos self = [px; py] ->
  Ray.facing self = [fx; fy] ->
  Ray.get_rect self = Ok rect ->
  pygame.collidelist rect (map Wall.rect walls) <> (-1)%Z ->
  exists wall e,
    getitem walls (Z.to_nat (pygame.collidelist rect (map Wall.rect walls))) = Ok wall
    /\ pygame.colliderect rect (Wall.rect wall) = true
    /\ close_edge_of [px - fx * RAY_SPEED / 2; py - fy * RAY_SPEED / 2] (Wall.rect wall)
       = Ok e
    /\ (e < 4)%nat
    /\ Ray.test_collision walls self = Ok (struck wall self (bounced e fx fy)).
Proof.
  intros Hp Hf Hr Hc. apply Z.eqb_neq in Hc.
  destruct (collidelist_hit rect walls Hc) as [wall [Hw Hcol]].
  destruct (close_edge_of_lt_4 (px - fx * RAY_SPEED / 2) (py - fy * RAY_SPEED / 2)
              (Wall.rect wall)) as [e [He Hlt]].
  exists wall, e. repeat split; try assumption.
  unfold Ray.test_collision. rewrite Hr, bind_ok, Hc.
  cbn [Ray.strength Ray.set_strength Ray.set_collided Ray.collided].
  rewrite Hw, bind_ok.
  destruct self as [id0 par pos0 facing0 col ex str int0 rad].
  cbn in Hp, Hf. subst pos0 facing0.
  destruct col; cbn;
    unfold RAY_SPEED in *; rewrite !div_ok by lra; cbn;
    rewrite (bounce_2D _ _ _ fx fy e He Hlt); reflexivity.
Qed.

(** ** Lists of objects: removal and writes *)

Section ObjectFacts.
Context {A : Type} (ident : A -> nat).

Lemma store_ids (o' : A) (l : list A) : map ident (store ident o' l) = map ident l.
Proof.
  unfold store. rewrite map_map. apply map_ext_in. intros a _.
  destruct (Nat.eqb_spec (ident a) (ident o')); congruence.
Qed.

Lemma store_holds (o' : A) (l : list A) (o : nat) :
  holds ident (store ident o' l) o <-> holds ident l o.
Proof. unfold holds. rewrite store_ids. reflexivity. Qed.

Lemma list_remove_ok (o : nat) (l : list A) :
  holds ident l o -> exists l', list_remove ident o l = Ok l'.
Proof.
  unfold holds. induction l as [| a l IH]; simpl; [contradiction |].
  intros H. destruct (Nat.eqb_spec (ident a) o) as [E | E].
  - eexists. reflexivity.
  - destruct H as [H | H]; [contradiction |].
    destruct (IH H) as [l' ->]. eexists. reflexivity.
Qed.

Lemma list_remove_ids (o : nat) (l l' : list A) :
  list_remove ident o l = Ok l' ->
  NoDup (map ident l) ->
  NoDup (map ident l')
  /\ forall o', holds ident l' o' <-> holds ident l o' /\ o' <> o.
Proof.
  unfold holds. revert l'. induction l as [| a l IH]; simpl; intros l' H Hnd.
  - discriminate.
  - inversion Hnd as [| ? ? Hnotin Hnd']; subst.
    destruct (Nat.eqb_spec (ident a) o) as [E | E].
    + injection H as <-. split; [assumption |].
      intros o'. split.
      * intros Hin. split; [right; assumption |]. intros ->. subst. contradiction.
      * intros [[Ha | Hin] Hne]; [congruence | assumption].
    + destruct (list_remove ident o l) as [t' |] eqn:Hrec; [| discriminate].
      simpl in H. injection H as <-.
      destruct (IH t' eq_refl Hnd') as [Hnd'' Hiff].
      split.
      * simpl. constructor; [| assumption].
        intros Hin. apply Hiff in Hin. destruct Hin as [Hin _]. contradiction.
      * intros o'. simpl. rewrite Hiff. split.
        -- intros [Ha | [Hin Hne]]; [split; [left; assumption | congruence] |].
           split; [right; assumption | assumption].
        -- intros [[Ha | Hin] Hne]; [left; assumption | right; split; assumption].
Qed.

Lemma list_remove_gone (o : nat) (l l' : list A) :
  list_remove ident o l = Ok l' -> NoDup (map ident l) -> ~ holds ident l' o.
Proof.
  intros H Hnd Hin. destruct (list_remove_ids o l l' H Hnd) as [_ Hiff].
  apply Hiff in Hin. destruct Hin as [_ Hne]. contradiction.
Qed.

End ObjectFacts.

(** ** Ray: decay and removal *)

Lemma bounced_2D (e : nat) (vx vy : R) : is_2D (bounced e vx vy).
Proof. destruct e as [| [| [| e]]]; reflexivity. Qed.

(** [test_collision] on a 2D ray always returns: the ray itself, or the
    ray struck by a wall, with the same identity and [WALL_DECAY] less
    strength. *)
Lemma ray_test_collision_total (walls : list Wall.t) (self : Ray.t) :
  ray_2D self ->
  exists mid,
    Ray.test_collision walls self = Ok mid
    /\ ray_2D mid
    /\ Ray.id mid = Ray.id self
    /\ (Ray.strength mid = Ray.strength self
        \/ Ray.strength mid = Ray.strength self - WALL_DECAY).
Proof.
  intros [Hp Hf].
  destruct (is_2D_inv _ Hp) as [px [py Ep]].
  destruct (is_2D_inv _ Hf) as [fx [fy Ef]].
  destruct (ray_get_rect_ok self Hp) as [rect Hr].
  destruct (Z.eq_dec (pygame.collidelist rect (map Wall.rect walls)) (-1)) as [Hc | Hc].
  - exists self. rewrite (ray_test_collision_miss walls self rect Hr Hc).
    repeat split; try assumption. left. reflexivity.
  - destruct (ray_test_collision_hit walls self rect px py fx fy Ep Ef Hr Hc)
      as [wall [e [_ [_ [_ [_ Ht]]]]]].
    exists (struck wall self (bounced e fx fy)). split; [exact Ht |].
    repeat split.
    + unfold is_2D. cbn. rewrite Ep, Ef. reflexivity.
    + apply bounced_2D.
    + right. reflexivity.
Qed.

(** One call of [update] on a 2D ray that its parent's list holds. *)
Lemma ray_update_step (walls : list Wall.t) (self : Ray.t) (rays : list Ray.t) :
  ray_2D self ->
  holds Ray.id rays (Ray.id self) ->
  NoDup (map Ray.id rays) ->
  exists mid self' rays',
    Ray.test_collision walls (Ray.set_strength self (Ray.strength self - RAY_DECAY))
    = Ok mid
    /\ Ray.update walls self rays = Ok (self', rays')
    /\ Ray.strength self' = Ray.strength mid
    /\ Ray.strength self' < Ray.strength self
    /\ (Ray.strength self' <= 0 ->
        self' = mid /\ ~ holds Ray.id rays' (Ray.id self))
    /\ (0 < Ray.strength self' ->
        Ray.pos self'
        = Vector.__add__ (Ray.pos mid)
            (Vector.Vec (Vector.__mul__ (Ray.facing mid) (Vector.Num RAY_SPEED)))
        /\ rays' = store Ray.id self' rays
        /\ holds Ray.id rays' (Ray.id self))
    /\ ray_2D self'
    /\ Ray.id self' = Ray.id self
    /\ NoDup (map Ray.id rays')
    /\ Ray.facing self' = Ray.facing mid.
Proof.
  intros H2 Hin Hnd.
  set (self1 := Ray.set_strength self (Ray.strength self - RAY_DECAY)).
  assert (H21 : ray_2D self1) by exact H2.
  destruct (ray_test_collision_total walls self1 H21) as [mid [Ht [Hm2 [Hid Hs]]]].
  assert (Hlt : Ray.strength mid < Ray.strength self).
  { cbn in Hs. unfold RAY_DECAY, WALL_DECAY in Hs. destruct Hs; lra. }
  assert (Hid' : Ray.id mid = Ray.id self) by exact Hid.
  unfold Ray.update. fold self1. rewrite Ht, bind_ok.
  destruct (Rle_dec (Ray.strength mid) 0) as [Hle | Hgt].
  - rewrite Hid'. destruct (list_remove_ok Ray.id _ rays Hin) as [rays' Hrm].
    rewrite Hrm, bind_ok. exists mid, mid, rays'.
    destruct (list_remove_ids Ray.id _ rays rays' Hrm Hnd) as [Hnd' _].
    split; [reflexivity |]. split; [reflexivity |]. split; [reflexivity |].
    split; [exact Hlt |].
    split; [intros _; split; [reflexivity | eapply list_remove_gone; eassumption] |].
    split; [intros H; lra |].
    split; [exact Hm2 |]. split; [exact Hid' |]. split; [exact Hnd' | reflexivity].
  - eexists mid, _, _. split; [reflexivity |]. split; [reflexivity |].
    cbn [Ray.strength Ray.set_pos Ray.pos Ray.id Ray.facing].
    destruct Hm2 as [Hmp Hmf].
    destruct (is_2D_inv _ Hmp) as [px [py Ep]].
    destruct (is_2D_inv _ Hmf) as [fx [fy Ef]].
    split; [reflexivity |]. split; [exact Hlt |].
    split; [intros H; lra |].
    split.
    { intros _. split; [reflexivity |]. split; [reflexivity |].
      apply store_holds. exact Hin. }
    split.
    { split; [| exact Hmf]. unfold is_2D. rewrite Ep, Ef. reflexivity. }
    split; [exact Hid' |]. split; [rewrite store_ids; exact Hnd | reflexivity].
Qed.

(** ** Ray: the bounce off a bottom edge *)

(** C8 as amended.  A 2D ray whose rectangle collides with a wall, and for
    which the closest edge of that wall (after the half step back) is the
    bottom edge, leaves [test_collision] with the same x component of its
    facing and with the y component |y|: never negative, so the ray heads
    towards +y, away from the bottom edge, down the screen.  The call of
    [update] of that tick returns the ray with this facing. *)
Theorem ray_bounce_off_bottom_edge (walls : list Wall.t) (self : Ray.t)
    (rect : pygame.Rect) (wall : Wall.t) (px py fx fy : R) :
  Ray.pos self = [px; py] ->
  Ray.facing self = [fx; fy] ->
  Ray.get_rect self = Ok rect ->
  pygame.collidelist rect (map Wall.rect walls) <> (-1)%Z ->
  getitem walls (Z.to_nat (pygame.collidelist rect (map Wall.rect walls))) = Ok wall ->
  close_edge_of [px - fx * RAY_SPEED / 2; py - fy * RAY_SPEED / 2] (Wall.rect wall)
  = Ok 3%nat ->
  (exists self',
     Ray.test_collision walls self = Ok self'
     /\ Ray.facing self' = [fx; Rabs fy]
     /\ 0 <= Rabs fy
     /\ Ray.collided self' = true)
  /\ (forall rays,
        holds Ray.id rays (Ray.id self) ->
        NoDup (map Ray.id rays) ->
        exists self' rays',
          Ray.update walls self rays = Ok (self', rays')
          /\ Ray.facing self' = [fx; Rabs fy]).
Proof.
  intros Hp Hf Hr Hc Hw He. split.
  - destruct (ray_test_collision_hit walls self rect px py fx fy Hp Hf Hr Hc)
      as [wall' [e [Hw' [_ [He' [_ Ht]]]]]].
    rewrite Hw in Hw'. injection Hw' as <-.
    rewrite He in He'. injection He' as <-.
    eexists. split; [exact Ht |]. cbn.
    split; [rewrite Rmult_1_l; reflexivity |].
    split; [apply Rabs_pos | reflexivity].
  - intros rays Hin Hnd.
    assert (H2 : ray_2D self) by (split; [rewrite Hp | rewrite Hf]; reflexivity).
    destruct (ray_update_step walls self rays H2 Hin Hnd)
      as [mid [self' [rays' [Ht [Hu [_ [_ [_ [_ [_ [_ [_ Hfacing]]]]]]]]]]]].
    destruct (ray_test_collision_hit walls
                (Ray.set_strength self (Ray.strength self - RAY_DECAY))
                rect px py fx fy Hp Hf Hr Hc)
      as [wall' [e [Hw' [_ [He' [_ Ht']]]]]].
    rewrite Hw in Hw'. injection Hw' as <-.
    rewrite He in He'. injection He' as <-.
    rewrite Ht' in Ht. injection Ht as <-.
    exists self', rays'. split; [exact Hu |].
    rewrite Hfacing. cbn. rewrite Rmult_1_l. reflexivity.
Qed.

Lemma rising_ray_rect : Ray.get_rect rising_ray = Ok (pygame.mkRect 46 8 8 8).
Proof. unfold Ray.get_rect. cbn [Ray.pos Ray.radius rising_ray]. apply get_rect_of_int. Qed.

Lemma rising_ray_close_edge :
  close_edge_of [50 - 0 * RAY_SPEED / 2; 12 - -1 * RAY_SPEED / 2] (Wall.rect ceiling)
  = Ok 3%nat.
Proof.
  destruct (close_edge_of_2D (50 - 0 * RAY_SPEED / 2) (12 - -1 * RAY_SPEED / 2)
              (Wall.rect ceiling)) as [H | [H | [H | H]]];
    destruct H as [E H]; try exact E; exfalso;
    revert H; unfold RAY_SPEED; cbn; unfold Rabs;
    repeat (match goal with
            | |- context [Rcase_abs ?u] => destruct (Rcase_abs u); try lra
            end).
Qed.

Lemma ray_bounce_off_bottom_edge_witness :
  exists self',
    Ray.test_collision [ceiling] rising_ray = Ok self'
    /\ Ray.facing self' = [0; Rabs (-1)]
    /\ 0 <= Rabs (-1)
    /\ Ray.collided self' = true.
Proof.
  apply (proj1 (ray_bounce_off_bottom_edge [ceiling] rising_ray (pygame.mkRect 46 8 8 8)
                  ceiling 50 12 0 (-1) eq_refl eq_refl rising_ray_rect
                  ltac:(discriminate) eq_refl rising_ray_close_edge)).
Defined.

(** C8 as stated fails: the ray under the ceiling, flying up with the
    facing (0, -1), collides with it, the closest edge is the bottom edge
    of the wall, and the y component of the facing is then 1, positive. *)
Lemma ray_bounce_off_bottom_edge_is_positive :
  exists self',
    Ray.test_collision [ceiling] rising_ray = Ok self'
    /\ close_edge_of (Ray.pos self') (Wall.rect ceiling) = Ok 3%nat
    /\ Ray.facing self' = [0; 1]
    /\ 0 < nth 1 (Ray.facing self') 0.
Proof.
  destruct (ray_test_collision_hit [ceiling] rising_ray (pygame.mkRect 46 8 8 8)
              50 12 0 (-1) eq_refl eq_refl rising_ray_rect)
    as [wall [e [Hw [_ [He [_ Ht]]]]]]; [discriminate |].
  injection Hw as <-. rewrite rising_ray_close_edge in He. injection He as <-.
  eexists. split; [exact Ht |]. cbn.
  split; [exact rising_ray_close_edge |].
  rewrite Rabs_left by lra.
  split; [f_equal; f_equal; lra | lra].
Qed.

(** *** A ray that meets no wall *)


Lemma update_clear_alive (walls : list Wall.t) (self : Ray.t) (rays : list Ray.t) :
  clear_of walls self ->
  0 < Ray.strength self - RAY_DECAY ->
  Ray.update walls self rays = Ok (glide self, store Ray.id (glide self) rays).
Proof.
  intros [rect [Hr Hc]] Hs. unfold Ray.update.
  rewrite (ray_test_collision_miss walls
             (Ray.set_strength self (Ray.strength self - RAY_DECAY)) rect Hr Hc), bind_ok.
  cbn [Ray.strength Ray.set_strength].
  destruct (Rle_dec (Ray.strength self - RAY_DECAY) 0); [lra | reflexivity].
Qed.

Lemma update_clear_dead (walls : list Wall.t) (self : Ray.t) (rays : list Ray.t) :
  clear_of walls self ->
  Ray.strength self - RAY_DECAY <= 0 ->
  Ray.update walls self rays
  = (rays' <- list_remove Ray.id (Ray.id self) rays ;;
     Ok (Ray.set_strength self (Ray.strength self - RAY_DECAY), rays')).
Proof.
  intros [rect [Hr Hc]] Hs. unfold Ray.update.
  rewrite (ray_test_collision_miss walls
             (Ray.set_strength self (Ray.strength self - RAY_DECAY)) rect Hr Hc), bind_ok.
  cbn [Ray.strength Ray.set_strength].
  destruct (Rle_dec (Ray.strength self - RAY_DECAY) 0); [reflexivity | lra].
Qed.

Lemma flight_strength (k : nat) (self : Ray.t) :
  Ray.strength (flight k self) = Ray.strength self - INR k * RAY_DECAY.
Proof.
  induction k as [| k IH].
  - simpl. lra.
  - rewrite S_INR. cbn [flight glide Ray.strength Ray.set_pos Ray.set_strength].
    rewrite IH. lra.
Qed.

Lemma flight_id (k : nat) (self : Ray.t) : Ray.id (flight k self) = Ray.id self.
Proof. induction k as [| k IH]; [reflexivity | exact IH]. Qed.

Lemma INR_200 : INR 200 = 200.
Proof. rewrite INR_IZR_INZ. reflexivity. Qed.



Lemma glide_2D (self : Ray.t) : ray_2D self -> ray_2D (glide self).
Proof.
  intros [Hp Hf].
  destruct (is_2D_inv _ Hp) as [px [py Ep]].
  destruct (is_2D_inv _ Hf) as [fx [fy Ef]].
  split; [| exact Hf].
  unfold is_2D. cbn [glide Ray.pos Ray.set_pos Ray.set_strength Ray.facing].
  rewrite Ep, Ef. reflexivity.
Qed.

Lemma flight_2D (k : nat) (self : Ray.t) : ray_2D self -> ray_2D (flight k self).
Proof.
  intros H. induction k as [| k IH]; [exact H | apply glide_2D, IH].
Qed.

(** Without walls every 2D ray is clear all along its flight. *)
Lemma clear_of_no_walls (k : nat) (self : Ray.t) :
  ray_2D self -> clear_of [] (flight k self).
Proof.
  intros H. destruct (flight_2D k self H) as [Hp _].
  destruct (ray_get_rect_ok _ Hp) as [rect Hr].
  exists rect. split; [exact Hr | reflexivity].
Qed.



(** ** Bat: collision *)

Lemma bat_test_collision_miss (walls : list Wall.t) (self : Bat.t) (rect : pygame.Rect) :
  Bat.get_rect self = Ok rect ->
  pygame.collidelist rect (map Wall.rect walls) = (-1)%Z ->
  Bat.test_collision walls self = Ok self.
Proof.
  intros Hr Hc. unfold Bat.test_collision. rewrite Hr, bind_ok, Hc. reflexivity.
Qed.

(** The first wall that collides decides alone: a wall that does not block
    bats leaves the bat as it is, a wall that blocks them repels it. *)
Lemma bat_test_collision_hit (walls : list Wall.t) (self : Bat.t) (rect : pygame.Rect)
    (px py vx vy : R) :
  Bat.pos self = [px; py] ->
  Bat.vel self = [vx; vy] ->
  Bat.get_rect self = Ok rect ->
  pygame.collidelist rect (map Wall.rect walls) <> (-1)%Z ->
  exists wall e,
    getitem walls (Z.to_nat (pygame.collidelist rect (map Wall.rect walls))) = Ok wall
    /\ close_edge_of [px - vx / 60; py - vy / 60] (Wall.rect wall) = Ok e
    /\ (e < 4)%nat
    /\ Bat.test_collision walls self
       = Ok (if Wall.collides_bat wall then repelled self px py vx vy e else self).
Proof.
  intros Hp Hv Hr Hc. apply Z.eqb_neq in Hc.
  destruct (collidelist_hit rect walls Hc) as [wall [Hw _]].
  destruct (close_edge_of_lt_4 (px - vx / 60) (py - vy / 60) (Wall.rect wall))
    as [e [He Hlt]].
  exists wall, e. repeat split; try assumption.
  unfold Bat.test_collision. rewrite Hr, bind_ok, Hc, Hw, bind_ok.
  destruct (Wall.collides_bat wall); [| reflexivity].
  rewrite Hv. cbn [Vector.__truediv__]. rewrite mapM_div_ok by lra.
  rewrite bind_ok. cbn [map Vector.Vector Vector.init bind].
  cbn [Bat.pos Bat.set_pos Bat.vel]. rewrite Hp, Hv.
  cbn [Vector.__sub__ combine map fst snd Vector.Vector Vector.init].
  rewrite (bounce_2D _ _ _ vx vy e He Hlt). reflexivity.
Qed.

Lemma falling_bat_rect : Bat.get_rect falling_bat = Ok (pygame.mkRect 90 85 20 20).
Proof.
  unfold Bat.get_rect. cbn [Bat.pos Bat.radius falling_bat]. apply get_rect_of_int.
Qed.

Lemma falling_bat_close_edge :
  close_edge_of [100 - 0 / 60; 95 - 60 / 60] (Wall.rect floor) = Ok 2%nat.
Proof.
  destruct (close_edge_of_2D (100 - 0 / 60) (95 - 60 / 60) (Wall.rect floor))
    as [H | [H | [H | H]]];
    destruct H as [E H]; try exact E; exfalso;
    revert H; cbn; unfold Rabs;
    repeat (match goal with
            | |- context [Rcase_abs ?u] => destruct (Rcase_abs u); try lra
            end).
Qed.

(** C1.  The bat over the pane and the floor.  With the pane first in the
    list, [test_collision] leaves the bat as it is: the floor, which blocks
    bats and collides with it, is never looked at.  With the floor alone,
    or with the floor first, the bat is repelled: its step is undone and
    its downward velocity turned upward.  So a wall that does not block
    bats changes the outcome, by its place in the list. *)
Theorem bat_collision_masked_by_pane :
  Bat.test_collision [pane; floor] falling_bat = Ok falling_bat
  /\ Bat.test_collision [floor] falling_bat
     = Ok (Bat.set_vel (Bat.set_pos falling_bat [100 - 0 / 60; 95 - 60 / 60])
             [0; -1 * Rabs 60])
  /\ Bat.test_collision [floor; pane] falling_bat
     = Ok (Bat.set_vel (Bat.set_pos falling_bat [100 - 0 / 60; 95 - 60 / 60])
             [0; -1 * Rabs 60])
  /\ pygame.colliderect (pygame.mkRect 90 85 20 20) (Wall.rect floor) = true
  /\ Wall.collides_bat floor = true
  /\ Wall.collides_bat pane = false.
Proof.
  split; [| split; [| split]].
  - destruct (bat_test_collision_hit [pane; floor] falling_bat _ 100 95 0 60
                eq_refl eq_refl falling_bat_rect)
      as [wall [e [Hw [_ [_ Ht]]]]]; [discriminate |].
    injection Hw as <-. exact Ht.
  - destruct (bat_test_collision_hit [floor] falling_bat _ 100 95 0 60
                eq_refl eq_refl falling_bat_rect)
      as [wall [e [Hw [He [_ Ht]]]]]; [discriminate |].
    injection Hw as <-. rewrite falling_bat_close_edge in He. injection He as <-.
    exact Ht.
  - destruct (bat_test_collision_hit [floor; pane] falling_bat _ 100 95 0 60
                eq_refl eq_refl falling_bat_rect)
      as [wall [e [Hw [He [_ Ht]]]]]; [discriminate |].
    injection Hw as <-. rewrite falling_bat_close_edge in He. injection He as <-.
    exact Ht.
  - repeat split; reflexivity.
Qed.

(** ** Bat: returning rays *)

Lemma zero_2D_spec (a b : R) : zero_2D [a; b] = true <-> is_zero [a; b].
Proof.
  unfold zero_2D. split.
  - destruct (Req_dec_T a 0); [| discriminate].
    destruct (Req_dec_T b 0); [| discriminate].
    intros _. subst. repeat constructor.
  - intros H. inversion H as [| ? ? Ha H']; subst. inversion H' as [| ? ? Hb _]; subst.
    destruct (Req_dec_T 0 0); [reflexivity | lra].
Qed.

Lemma negated_zero (a b : R) :
  first_or_second (Vector.__rmul__ [a; b] (Vector.Num (-1)))
  = Ok (negb (zero_2D [a; b])).
Proof.
  cbn [Vector.__rmul__ Vector.__mul__ map Vector.Vector Vector.init].
  rewrite first_or_second_2D. unfold zero_2D.
  destruct (Req_dec_T a 0); destruct (Req_dec_T b 0);
    destruct (Req_dec_T (a * -1) 0); destruct (Req_dec_T (b * -1) 0);
    try lra; reflexivity.
Qed.

Lemma negated_normalize (a b : R) :
  zero_2D [a; b] = false ->
  Vector.normalize (Vector.__rmul__ [a; b] (Vector.Num (-1)))
  = Ok (map (fun comp => comp / sqrt (sumsq (map (fun x => x * -1) [a; b])))
          (map (fun x => x * -1) [a; b])).
Proof.
  intros Hz. apply normalize_nonzero. intros H.
  cbn [Vector.__rmul__ Vector.__mul__ map Vector.Vector Vector.init] in H.
  assert (Hab : is_zero [a; b]).
  { inversion H as [| ? ? Ha H']; subst. inversion H' as [| ? ? Hb _]; subst.
    repeat constructor; lra. }
  apply zero_2D_spec in Hab. congruence.
Qed.

(** One turn of the first loop. *)
Lemma test_rays_body_eq (fresh : nat) (self : Bat.t) (br : pygame.Rect)
    (removed_rays rays : list Ray.t) (ray : Ray.t) :
  Bat.get_rect self = Ok br ->
  ray_2D ray ->
  Bat.test_rays_body fresh self removed_rays rays ray
  = Ok (if returning br ray && negb (zero_2D (Ray.facing ray))
        then Bat.set_beams self
               (Bat.beams self
                ++ [echo_of fresh (Bat.id self) (Bat.pos self) (length (Bat.beams self)) ray])
        else self,
        if returning br ray then removed_rays ++ [ray] else removed_rays,
        if overlaps br ray then rays
        else if negb (Ray.exited_bat ray)
             then store Ray.id (Ray.set_exited_bat ray true) rays
             else rays).
Proof.
  intros Hb [Hp Hf].
  destruct (ray_get_rect_ok ray Hp) as [rr Hr].
  destruct (is_2D_inv _ Hf) as [fx [fy Ef]].
  unfold Bat.test_rays_body, returning, overlaps.
  rewrite Hb, bind_ok, Hr, bind_ok.
  destruct (pygame.colliderect br rr); cbn [andb].
  - destruct (Ray.collided ray && Ray.exited_bat ray); cbn [andb]; [| reflexivity].
    rewrite Ef, negated_zero, bind_ok.
    destruct (zero_2D [fx; fy]) eqn:Hz; cbn [negb].
    + reflexivity.
    + rewrite (negated_normalize fx fy Hz), bind_ok, bind_ok.
      unfold echo_of. rewrite Ef. reflexivity.
  - destruct (negb (Ray.exited_bat ray)); reflexivity.
Qed.

Lemma store_middle (pre post : list Ray.t) (ray ray' : Ray.t) :
  NoDup (map Ray.id (pre ++ ray :: post)) ->
  Ray.id ray' = Ray.id ray ->
  store Ray.id ray' (pre ++ ray :: post) = pre ++ ray' :: post.
Proof.
  intros Hnd Hid. rewrite map_app in Hnd. cbn [map] in Hnd.
  pose proof (NoDup_remove_2 _ _ _ Hnd) as Hnotin.
  assert (Hsame : forall l, (forall a, In a l -> Ray.id a <> Ray.id ray) ->
                            store Ray.id ray' l = l).
  { intros l Hl. unfold store. rewrite <- (map_id l) at 2.
    apply map_ext_in. intros a Ha. rewrite Hid.
    destruct (Nat.eqb_spec (Ray.id a) (Ray.id ray)) as [E | E]; [| reflexivity].
    exfalso. exact (Hl a Ha E). }
  unfold store. rewrite map_app. cbn [map].
  fold (store Ray.id ray' pre). fold (store Ray.id ray' post).
  rewrite !Hsame.
  - rewrite Hid, Nat.eqb_refl. reflexivity.
  - intros a Ha E. apply Hnotin. apply in_or_app. right.
    rewrite <- E. apply in_map, Ha.
  - intros a Ha E. apply Hnotin. apply in_or_app. left.
    rewrite <- E. apply in_map, Ha.
Qed.

Lemma mark_id (br : pygame.Rect) (ray : Ray.t) : Ray.id (mark br ray) = Ray.id ray.
Proof.
  unfold mark. destruct (overlaps br ray); [reflexivity |].
  destruct (negb (Ray.exited_bat ray)); reflexivity.
Qed.

Lemma set_beams_same (self : Bat.t) : Bat.set_beams self (Bat.beams self) = self.
Proof. destruct self; reflexivity. Qed.

(** The first loop of [test_rays] over the rest [todo] of the list. *)
Lemma test_rays_loop_eq (fresh : nat) (br : pygame.Rect) (todo : list Ray.t) :
  forall (self : Bat.t) (removed_rays pre : list Ray.t),
    Bat.get_rect self = Ok br ->
    Forall ray_2D todo ->
    NoDup (map Ray.id (pre ++ todo)) ->
    Bat.test_rays_loop fresh self removed_rays (pre ++ todo) todo
    = Ok (Bat.set_beams self
            (Bat.beams self
             ++ echoes fresh (Bat.id self) (Bat.pos self) br (length (Bat.beams self)) todo),
          removed_rays ++ filter (returning br) todo,
          pre ++ map (mark br) todo).
Proof.
  induction todo as [| ray todo IH]; intros self removed_rays pre Hb H2 Hnd.
  - cbn. rewrite !app_nil_r, set_beams_same. reflexivity.
  - inversion H2 as [| ? ? Hray H2']; subst.
    cbn [Bat.test_rays_loop].
    rewrite (test_rays_body_eq fresh self br removed_rays _ ray Hb Hray), bind_ok.
    assert (Hrays :
      (if overlaps br ray then pre ++ ray :: todo
       else if negb (Ray.exited_bat ray)
            then store Ray.id (Ray.set_exited_bat ray true) (pre ++ ray :: todo)
            else pre ++ ray :: todo)
      = (pre ++ [mark br ray]) ++ todo).
    { rewrite <- app_assoc. cbn [app]. unfold mark.
      destruct (overlaps br ray); [reflexivity |].
      destruct (negb (Ray.exited_bat ray)); [| reflexivity].
      apply store_middle; [exact Hnd | reflexivity]. }
    rewrite Hrays.
    assert (Hnd' : NoDup (map Ray.id ((pre ++ [mark br ray]) ++ todo))).
    { rewrite <- app_assoc. cbn [app]. rewrite map_app. cbn [map].
      rewrite mark_id. rewrite map_app in Hnd. exact Hnd. }
    cbn [filter echoes map].
    destruct (returning br ray) eqn:Hret; cbn [andb].
    + destruct (zero_2D (Ray.facing ray)) eqn:Hz; cbn [negb].
      * rewrite (IH self _ _ Hb H2' Hnd').
        rewrite <- !app_assoc. reflexivity.
      * rewrite (IH (Bat.set_beams self _) _ _ Hb H2' Hnd').
        cbn [Bat.beams Bat.set_beams Bat.id Bat.pos].
        rewrite <- !app_assoc. cbn [app].
        rewrite length_app, Nat.add_1_r. reflexivity.
    + rewrite (IH self _ _ Hb H2' Hnd').
      rewrite <- !app_assoc. reflexivity.
Qed.

Lemma list_remove_middle (pre post : list Ray.t) (ray : Ray.t) (o : nat) :
  (forall a, In a pre -> Ray.id a <> o) ->
  Ray.id ray = o ->
  list_remove Ray.id o (pre ++ ray :: post) = Ok (pre ++ post).
Proof.
  intros Hpre Hid. induction pre as [| a pre IH]; cbn [app list_remove].
  - rewrite Hid, Nat.eqb_refl. reflexivity.
  - destruct (Nat.eqb_spec (Ray.id a) o) as [E | E].
    + exfalso. exact (Hpre a (or_introl eq_refl) E).
    + rewrite IH; [reflexivity |]. intros b Hb. apply Hpre. right. exact Hb.
Qed.

(** The second loop of [test_rays]: the rays picked by [q] leave the
    list, whatever was written to the fields of the others meanwhile. *)
Lemma remove_all_filter (q : Ray.t -> bool) (f : Ray.t -> Ray.t) (l : list Ray.t) :
  (forall a, Ray.id (f a) = Ray.id a) ->
  forall pre,
    NoDup (map Ray.id (pre ++ l)) ->
    Bat.remove_all (filter q l) (pre ++ map f l)
    = Ok (pre ++ map f (filter (fun a => negb (q a)) l)).
Proof.
  intros Hf. induction l as [| a l IH]; intros pre Hnd.
  - reflexivity.
  - cbn [filter map]. destruct (q a) eqn:Hq; cbn [negb].
    + cbn [Bat.remove_all]. rewrite list_remove_middle.
      * rewrite bind_ok. apply IH.
        rewrite map_app in *. cbn [map] in Hnd. eapply NoDup_remove_1. exact Hnd.
      * intros b Hb E. rewrite map_app in Hnd. cbn [map] in Hnd.
        apply (NoDup_remove_2 _ _ _ Hnd). apply in_or_app. left.
        rewrite <- E. apply in_map, Hb.
      * apply Hf.
    + replace (pre ++ f a :: map f l) with ((pre ++ [f a]) ++ map f l)
        by (rewrite <- app_assoc; reflexivity).
      rewrite IH.
      * rewrite <- app_assoc. reflexivity.
      * rewrite <- app_assoc. cbn [app]. rewrite map_app in *. cbn [map] in *.
        rewrite Hf. exact Hnd.
Qed.

(** [test_rays] on 2D rays with distinct identities: the beams of the
    returning rays are appended, the returning rays leave the list and
    the rays away from the bat are marked. *)
Lemma test_rays_eq (fresh : nat) (self : Bat.t) (br : pygame.Rect) (rays : list Ray.t) :
  Bat.get_rect self = Ok br ->
  Forall ray_2D rays ->
  NoDup (map Ray.id rays) ->
  Bat.test_rays fresh self rays
  = Ok (Bat.set_beams self
          (Bat.beams self
           ++ echoes fresh (Bat.id self) (Bat.pos self) br (length (Bat.beams self)) rays),
        map (mark br) (filter (fun ray => negb (returning br ray)) rays)).
Proof.
  intros Hb H2 Hnd. unfold Bat.test_rays.
  pose proof (test_rays_loop_eq fresh br rays self [] [] Hb H2 Hnd) as Hloop.
  pose proof (remove_all_filter (returning br) (mark br) rays (mark_id br) [] Hnd) as Hrm.
  cbn [app] in Hloop, Hrm. rewrite Hloop, bind_ok, Hrm. reflexivity.
Qed.

Lemma same_id_same_ray (rays : list Ray.t) (a b : Ray.t) :
  NoDup (map Ray.id rays) -> In a rays -> In b rays -> Ray.id a = Ray.id b -> a = b.
Proof.
  induction rays as [| r rays IH]; intros Hnd Ha Hb E; [contradiction |].
  inversion Hnd as [| ? ? Hnotin Hnd']; subst.
  destruct Ha as [-> | Ha]; destruct Hb as [-> | Hb].
  - reflexivity.
  - exfalso. apply Hnotin. rewrite E. apply in_map, Hb.
  - exfalso. apply Hnotin. rewrite <- E. apply in_map, Ha.
  - apply IH; assumption.
Qed.

(** C10.  A returning ray (its rectangle overlaps the bat's, [collided]
    and [exited_bat] are set) among 2D rays with distinct identities:
    [test_rays] returns, and the list it was given no longer holds the
    ray, whatever its facing.  The beams appended are those of the
    returning rays whose facing is not zero; so when the facing of the ray
    is the zero vector and it is the only ray, no beam is made and the
    list is left empty. *)
Theorem returning_ray_removed (fresh : nat) (self : Bat.t) (br : pygame.Rect)
    (rays : list Ray.t) (ray : Ray.t) :
  Bat.get_rect self = Ok br ->
  Forall ray_2D rays ->
  NoDup (map Ray.id rays) ->
  In ray rays ->
  overlaps br ray = true ->
  Ray.collided ray = true ->
  Ray.exited_bat ray = true ->
  exists self' rays',
    Bat.test_rays fresh self rays = Ok (self', rays')
    /\ ~ holds Ray.id rays' (Ray.id ray)
    /\ Bat.beams self'
       = Bat.beams self
         ++ echoes fresh (Bat.id self) (Bat.pos self) br (length (Bat.beams self)) rays
    /\ (is_zero (Ray.facing ray) -> rays = [ray] ->
        Bat.beams self' = Bat.beams self /\ rays' = []).
Proof.
  intros Hb H2 Hnd Hin Ho Hc He.
  assert (Hret : returning br ray = true) by (unfold returning; rewrite Ho, Hc, He; reflexivity).
  rewrite (test_rays_eq fresh self br rays Hb H2 Hnd).
  eexists _, _. split; [reflexivity |]. split; [| split].
  - unfold holds. rewrite map_map. intros Hh.
    apply in_map_iff in Hh. destruct Hh as [r [Hid Hr]].
    apply filter_In in Hr. destruct Hr as [Hr Hq].
    rewrite mark_id in Hid.
    rewrite (same_id_same_ray rays r ray Hnd Hr Hin Hid) in Hq.
    rewrite Hret in Hq. discriminate.
  - reflexivity.
  - intros Hz ->. cbn [Bat.beams Bat.set_beams echoes filter map].
    rewrite Hret. cbn [negb andb filter map].
    assert (Hzb : zero_2D (Ray.facing ray) = true).
    { inversion H2 as [| ? ? [_ Hf] _]; subst.
      destruct (is_2D_inv _ Hf) as [fx [fy Ef]]. rewrite Ef in *.
      apply zero_2D_spec, Hz. }
    rewrite Hzb. cbn [negb]. rewrite app_nil_r. split; reflexivity.
Qed.

Lemma returning_ray_removed_witness :
  exists self' rays',
    Bat.test_rays 1 bat_at_rest [still_ray] = Ok (self', rays')
    /\ Bat.beams self' = []
    /\ rays' = [].
Proof.
  assert (Hb : Bat.get_rect bat_at_rest = Ok (pygame.mkRect 90 90 20 20)).
  { unfold Bat.get_rect. cbn [Bat.pos Bat.radius bat_at_rest]. apply get_rect_of_int. }
  assert (Ho : overlaps (pygame.mkRect 90 90 20 20) still_ray = true).
  { unfold overlaps, Ray.get_rect. cbn [Ray.pos Ray.radius still_ray].
    rewrite get_rect_of_int. reflexivity. }
  destruct (returning_ray_removed 1 bat_at_rest (pygame.mkRect 90 90 20 20)
              [still_ray] still_ray Hb
              (Forall_cons still_ray (conj eq_refl eq_refl) (Forall_nil _))
              (NoDup_cons 7%nat (fun H : In 7%nat [] => H) (NoDup_nil nat))
              (or_introl eq_refl) Ho eq_refl eq_refl)
    as [self' [rays' [E [_ [_ Hz]]]]].
  exists self', rays'. split; [exact E |].
  apply Hz; [repeat constructor | reflexivity].
Defined.

(** ** Instances *)

Lemma normalize_argument_zero_division_witness :
  Vector.normalize [1; 0] = Ok (map (fun comp => comp / sqrt (sumsq [1; 0])) [1; 0])
  /\ exists a, Vector.argument [1; 0] = Ok a /\ 0 <= a < 2 * PI.
Proof.
  pose proof (normalize_argument_zero_division [1; 0]) as H.
  cbv zeta in H. destruct H as [_ [_ [_ [Hn [Ha _]]]]].
  split.
  - apply Hn. exact unit_x_not_zero.
  - destruct (Ha 1 0 [] eq_refl unit_x_not_zero) as [a [E [Hr _]]].
    exists a. split; assumption.
Defined.

(** C6, the case the claim leaves out: a vector that is not zero, of norm
    3, for which [argument] returns no angle. *)
Lemma argument_of_one_component :
  Vector.norm (Vector.Vector [3]) = Ok 3
  /\ Vector.argument (Vector.Vector [3]) = Raise IndexError.
Proof.
  split.
  - rewrite norm_eq. f_equal. cbn [Vector.Vector Vector.init].
    replace (sumsq [3]) with (3 * 3) by (unfold sumsq, Py.sum; simpl; ring).
    apply sqrt_square. lra.
  - apply argument_1D. lra.
Qed.

Lemma steer_policy_witness :
  (exists bat', steer false bat_at_rest = Ok bat'
                /\ Bat.vel bat' = [0 + 1 * (20 * sqrt (sumsq [0; 0]) + DEFAULT_SPEED);
                                   0 + 0 * (20 * sqrt (sumsq [0; 0]) + DEFAULT_SPEED)]
                /\ Bat.ang_vel bat' = 0 + PI)
  /\ (exists bat', steer false bat_with_side_beam = Ok bat'
                   /\ Bat.ang_vel bat' = 0 - - (PI / 2)).
Proof.
  split.
  - destruct (steer_policy false bat_at_rest eq_refl eq_refl unit_x_not_zero
                (Forall_nil _)) as [bat' [E [Hv [Hz _]]]].
    exists bat'. split; [exact E |]. split; [exact Hv |].
    apply Hz. repeat constructor.
  - destruct (steer_policy false bat_with_side_beam eq_refl eq_refl unit_x_not_zero
                side_beam_2D) as [bat' [E [_ [_ [Hnz _]]]]].
    destruct (Hnz side_echo_not_zero) as [a_f [a_e [Ef [Ee [_ [Hav _]]]]]].
    exists bat'. split; [exact E |].
    pose proof (eq_trans (eq_sym Ef) argument_unit_x) as E1.
    pose proof (eq_trans (eq_sym Ee) side_echo_argument) as E2.
    injection E1 as ->. injection E2 as ->.
    rewrite Hav, side_turn. reflexivity.
Defined.

Lemma average_beam_is_weighted_sum_witness :
  Bat.get_average_beam bat_with_beam = aggregate_echo (Bat.beams bat_with_beam).
Proof.
  apply (proj1 (average_beam_is_weighted_sum bat_with_beam)).
  repeat constructor.
Defined.

(** ** The loop over the rays of a bat

    Two rays on their last tick, without walls: the first call of
    [update] takes the first ray out of the list, the second ray moves to
    the position the loop has already read, and the loop ends without a
    call of [update] on it.  It keeps its strength for that frame. *)

Lemma update_rays_passes_over :
  update_rays 2 [] 0 [spent_ray 1; spent_ray 2] = Ok [spent_ray 2].
Proof.
  assert (H2 : forall id, ray_2D (spent_ray id)) by (intros; split; reflexivity).
  cbn [update_rays nth_error].
  rewrite update_clear_dead.
  - cbn [Ray.id spent_ray list_remove Nat.eqb Py.bind snd nth_error]. reflexivity.
  - exact (clear_of_no_walls 0 (spent_ray 1) (H2 1%nat)).
  - cbn. unfold RAY_DECAY. lra.
Qed.

(* ================================================================= *)
(** * Further properties of the code *)

(** ** Vector: norm, dot product and normalize *)

Lemma sumsq_map_div (n : R) (v : Vector.t) :
  n <> 0 -> sumsq (map (fun comp => comp / n) v) = sumsq v / (n * n).
Proof.
  intros Hn. induction v as [| x v IH].
  - unfold sumsq, Py.sum. simpl. field. exact Hn.
  - cbn [map]. rewrite !sumsq_cons, IH. field. exact Hn.
Qed.

Lemma dot_cons (x y : R) (u v : Vector.t) :
  Vector.dot (x :: u) (y :: v) = x * y + Vector.dot u v.
Proof. unfold Vector.dot. cbn [combine map fst snd]. apply sum_cons. Qed.

Lemma dot_self (v : Vector.t) : Vector.dot v v = sumsq v.
Proof.
  induction v as [| x v IH]; [reflexivity |].
  rewrite dot_cons, sumsq_cons, IH. ring.
Qed.

Lemma dot_comm (u v : Vector.t) : Vector.dot u v = Vector.dot v u.
Proof.
  revert v. induction u as [| x u IH]; intros [| y v]; try reflexivity.
  rewrite !dot_cons, IH. ring.
Qed.

(** Over the reals.  The sum of squares that [norm] hands to [math.sqrt]
    is never negative, so [norm] has no domain error and returns a number
    that is not negative; the dot product is symmetric; and the square of
    the norm of a vector is its dot product with itself. *)
Theorem norm_square_is_dot (u v : Vector.t) :
  Vector.dot u v = Vector.dot v u
  /\ exists n, Vector.norm v = Ok n /\ 0 <= n /\ n * n = Vector.dot v v.
Proof.
  split; [apply dot_comm |].
  exists (sqrt (sumsq v)). split; [apply norm_eq |].
  split; [apply sqrt_pos |].
  rewrite dot_self. apply sqrt_sqrt, sumsq_nonneg.
Qed.

(** Every vector that is not zero is normalized to a vector of the same
    dimension and of norm 1. *)
Theorem normalize_is_unit (v : Vector.t) :
  ~ is_zero v ->
  exists u, Vector.normalize v = Ok u
            /\ length u = length v
            /\ Vector.norm u = Ok 1.
Proof.
  intros Hz. rewrite (normalize_nonzero v Hz).
  pose proof (norm_pos v Hz) as Hn.
  eexists. split; [reflexivity |]. split; [apply length_map |].
  rewrite norm_eq. f_equal.
  rewrite sumsq_map_div by lra.
  rewrite <- (sqrt_sqrt (sumsq v)) at 1 by apply sumsq_nonneg.
  replace (sqrt (sumsq v) * sqrt (sumsq v) / (sqrt (sumsq v) * sqrt (sumsq v)))
    with 1 by (field; lra).
  apply sqrt_1.
Qed.

Lemma normalize_is_unit_witness :
  exists u, Vector.normalize [3; 4] = Ok u
            /\ length u = 2%nat
            /\ Vector.norm u = Ok 1.
Proof.
  apply (normalize_is_unit [3; 4]).
  intros H. inversion H; lra.
Defined.

(** ** Vector: rotations *)

Lemma sumsq_2D (x y : R) : sumsq [x; y] = x * x + y * y.
Proof. unfold sumsq, Py.sum. simpl. ring. Qed.

Lemma sumsq_rotated (x y theta : R) :
  sumsq [cos theta * x - sin theta * y; sin theta * x + cos theta * y] = sumsq [x; y].
Proof.
  rewrite !sumsq_2D. pose proof (sin2_cos2 theta) as H. unfold Rsqr in H.
  set (c := cos theta) in *. set (s := sin theta) in *.
  replace ((c * x - s * y) * (c * x - s * y) + (s * x + c * y) * (s * x + c * y))
    with ((s * s + c * c) * (x * x + y * y)) by ring.
  rewrite H. ring.
Qed.

(** [rotate] by a number raises its ValueError exactly on the vectors that
    are not 2D, and returns a 2D vector of the same norm otherwise. *)
Theorem rotate_2D_only (v : Vector.t) (theta : R) :
  (length v <> 2%nat <->
   Vector.rotate v theta
   = Raise (ValueError "Rotation axis not defined for greater than 2D vector"))
  /\ (length v = 2%nat <->
      exists w, Vector.rotate v theta = Ok w
                /\ is_2D w
                /\ Vector.norm w = Vector.norm v).
Proof.
  destruct (Nat.eq_dec (length v) 2) as [E | E].
  - destruct (is_2D_inv v E) as [x [y ->]]. rewrite rotate_2D. split.
    + split; [intros H; contradiction | discriminate].
    + split; [| intros _; reflexivity].
      intros _. eexists. split; [reflexivity |]. split; [reflexivity |].
      rewrite !norm_eq, sumsq_rotated. reflexivity.
  - rewrite (rotate_not_2D v theta E). split.
    + split; [reflexivity | intros _; exact E].
    + split; [intros H; contradiction |].
      intros [w [H _]]. discriminate.
Qed.

(** Rotations of a 2D vector compose by adding the angles, and the
    rotation by 0 changes nothing. *)
Theorem rotate_composes (x y a b : R) :
  (w <- Vector.rotate [x; y] a ;; Vector.rotate w b) = Vector.rotate [x; y] (a + b)
  /\ Vector.rotate [x; y] 0 = Ok [x; y].
Proof.
  split.
  - rewrite !rotate_2D, bind_ok, rotate_2D, cos_plus, sin_plus.
    f_equal. f_equal; [| f_equal]; ring.
  - rewrite rotate_2D, cos_0, sin_0. f_equal. f_equal; [| f_equal]; ring.
Qed.

(** ** Vector: the argument of a rotated vector, and [angle_to] *)

(** The argument of the vector of length [n] at the angle [b]. *)
Lemma argument_polar (n b : R) :
  0 < n -> Vector.argument [n * cos b; n * sin b] = Ok (fmod b (2 * PI)).
Proof.
  intros Hn. pose proof PI_RGT_0 as Hpi.
  assert (Hss : sumsq [n * cos b; n * sin b] = n * n).
  { rewrite sumsq_2D. pose proof (sin2_cos2 b) as H. unfold Rsqr in H.
    replace (n * cos b * (n * cos b) + n * sin b * (n * sin b))
      with (n * n * (sin b * sin b + cos b * cos b)) by ring.
    rewrite H. ring. }
  assert (Hsq : sqrt (sumsq [n * cos b; n * sin b]) = n).
  { rewrite Hss. apply sqrt_square. lra. }
  assert (Hz : ~ is_zero [n * cos b; n * sin b]).
  { intros H. apply sqrt_sumsq_zero in H. lra. }
  rewrite (argument_nonzero _ _ [] Hz), Hsq.
  replace (n * cos b / n) with (cos b) by (field; lra).
  destruct (fmod_congr b (2 * PI)) as [k Ek].
  pose proof (fmod_range b (2 * PI) ltac:(lra)) as Hr.
  set (b' := fmod b (2 * PI)) in *.
  assert (Hc : cos b = cos b') by (rewrite Ek; symmetry; apply cos_period_Z).
  assert (Hs : sin b = sin b') by (rewrite Ek; symmetry; apply sin_period_Z).
  rewrite Hc, Hs. f_equal.
  destruct (Rle_dec b' PI) as [Hle | Hgt].
  - assert (0 <= sin b') by (apply sin_ge_0; lra).
    destruct (Rlt_dec (n * sin b') 0) as [Hneg | _]; [nra |].
    apply acos_cos. lra.
  - assert (sin b' < 0) by (apply sin_lt_0; lra).
    destruct (Rlt_dec (n * sin b') 0) as [_ | Hpos]; [| nra].
    replace (cos b') with (cos (2 * PI - b')).
    + rewrite acos_cos by lra. ring.
    + replace (2 * PI - b') with (- b' + 2 * PI) by ring.
      rewrite cos_plus, cos_2PI, sin_2PI, cos_neg. ring.
Qed.

(** Rotating a 2D vector that is not zero by [theta] adds [theta] to its
    argument, modulo 2 PI. *)
Theorem argument_of_rotated (x y theta : R) :
  ~ is_zero [x; y] ->
  exists a, Vector.argument [x; y] = Ok a
            /\ (w <- Vector.rotate [x; y] theta ;; Vector.argument w)
               = Ok (fmod (a + theta) (2 * PI)).
Proof.
  intros Hz. destruct (argument_angle x y [] Hz) as [a [Ea [_ [_ [_ [Hc Hs]]]]]].
  specialize (Hs eq_refl). pose proof (norm_pos _ Hz) as Hn.
  set (n := sqrt (sumsq [x; y])) in *.
  exists a. split; [exact Ea |].
  rewrite rotate_2D, bind_ok, <- (argument_polar n (a + theta) Hn).
  f_equal. rewrite cos_plus, sin_plus, <- Hc, <- Hs.
  f_equal; [| f_equal]; ring.
Qed.

Lemma argument_of_rotated_witness :
  exists a, Vector.argument [1; 0] = Ok a
            /\ (w <- Vector.rotate [1; 0] (PI / 2) ;; Vector.argument w)
               = Ok (fmod (a + PI / 2) (2 * PI)).
Proof. apply (argument_of_rotated 1 0 (PI / 2) unit_x_not_zero). Defined.

(** The heading of a new bat or ray is the angle it was made with: for an
    angle of [[0, 2 PI)], the facing that the constructors compute from it
    has that angle as its argument. *)
Theorem argument_of_heading (angle : R) :
  0 <= angle < 2 * PI ->
  (facing <- Vector.rotate (Vector.Vector [1; 0]) angle ;; Vector.argument facing)
  = Ok angle.
Proof.
  intros Ha. rewrite rotate_unit_x, bind_ok.
  replace [cos angle; sin angle] with [1 * cos angle; 1 * sin angle]
    by (f_equal; [| f_equal]; ring).
  rewrite argument_polar by lra. f_equal.
  apply (fmod_unique angle (2 * PI) angle 0); [lra | exact Ha | ring].
Qed.

Lemma argument_of_heading_witness :
  (facing <- Vector.rotate (Vector.Vector [1; 0]) 1 ;; Vector.argument facing) = Ok 1.
Proof.
  apply (argument_of_heading 1). pose proof PI2_1 as H. split; lra.
Defined.

(** [angle_to] between 2D vectors that are not zero: an angle of
    [[0, 2 PI)]; the angles from [u] to [v] and from [v] to [u] are both 0
    or add up to 2 PI; and the angle of a vector to itself is 0. *)
Theorem angle_to_antisymmetric (u v : Vector.t) :
  is_2D u -> is_2D v -> ~ is_zero u -> ~ is_zero v ->
  exists s t,
    Vector.angle_to u v = Ok s
    /\ Vector.angle_to v u = Ok t
    /\ 0 <= s < 2 * PI
    /\ 0 <= t < 2 * PI
    /\ ((s = 0 /\ t = 0) \/ s + t = 2 * PI)
    /\ Vector.angle_to u u = Ok 0.
Proof.
  intros Hu2 Hv2 Hu Hv. pose proof PI_RGT_0 as Hpi.
  destruct (argument_2D_ok u Hu2 Hu) as [a [Ea Ha]].
  destruct (argument_2D_ok v Hv2 Hv) as [b [Eb Hb]].
  unfold Vector.angle_to. rewrite Ea, Eb, !bind_ok.
  exists (fmod (a - b) (2 * PI)), (fmod (b - a) (2 * PI)).
  split; [reflexivity |]. split; [reflexivity |].
  split; [apply fmod_range; lra |]. split; [apply fmod_range; lra |].
  split.
  - destruct (Rtotal_order a b) as [Hlt | [Heq | Hgt]].
    + right.
      rewrite (fmod_unique (a - b) (2 * PI) (a - b + 2 * PI) 1) by (try split; lra).
      rewrite (fmod_unique (b - a) (2 * PI) (b - a) 0) by (try split; lra).
      ring.
    + left. subst b.
      rewrite (fmod_unique (a - a) (2 * PI) 0 0) by (try split; lra).
      split; reflexivity.
    + right.
      rewrite (fmod_unique (a - b) (2 * PI) (a - b) 0) by (try split; lra).
      rewrite (fmod_unique (b - a) (2 * PI) (b - a + 2 * PI) 1) by (try split; lra).
      ring.
  - f_equal. apply (fmod_unique (a - a) (2 * PI) 0 0); try split; lra.
Qed.

Lemma angle_to_antisymmetric_witness :
  exists s t,
    Vector.angle_to [1; 0] [0; 1] = Ok s
    /\ Vector.angle_to [0; 1] [1; 0] = Ok t
    /\ 0 <= s < 2 * PI
    /\ 0 <= t < 2 * PI
    /\ ((s = 0 /\ t = 0) \/ s + t = 2 * PI)
    /\ Vector.angle_to [1; 0] [1; 0] = Ok 0.
Proof.
  apply (angle_to_antisymmetric [1; 0] [0; 1] eq_refl eq_refl unit_x_not_zero).
  intros H. inversion H as [| ? ? _ H']. inversion H'; lra.
Defined.

(** ** Vector: arithmetic *)

Lemma combine_nonempty {A B : Type} (a : list A) (b : list B) :
  a <> [] -> b <> [] -> combine a b <> [].
Proof. destruct a; destruct b; simpl; congruence. Qed.

Lemma Vector_of_nonempty {A : Type} (zero : A) (l : list A) :
  l <> [] -> Vector.init zero l = l.
Proof. destruct l; [contradiction | reflexivity]. Qed.

Lemma add_eq (a b : Vector.t) :
  a <> [] -> b <> [] ->
  Vector.__add__ a (Vector.Vec b) = map (fun ab => fst ab + snd ab) (combine a b).
Proof.
  intros Ha Hb. cbn [Vector.__add__]. apply Vector_of_nonempty.
  intros H. apply map_eq_nil in H. revert H. apply combine_nonempty; assumption.
Qed.

Lemma sub_eq (a b : Vector.t) :
  a <> [] -> b <> [] ->
  Vector.__sub__ a (Vector.Vec b) = map (fun ab => fst ab - snd ab) (combine a b).
Proof.
  intros Ha Hb. cbn [Vector.__sub__]. apply Vector_of_nonempty.
  intros H. apply map_eq_nil in H. revert H. apply combine_nonempty; assumption.
Qed.

Lemma add_sub_same_length (a b : Vector.t) :
  length a = length b ->
  map (fun ab => fst ab - snd ab)
    (combine (map (fun ab => fst ab + snd ab) (combine a b)) b) = a.
Proof.
  revert b. induction a as [| x a IH]; intros [| y b] Hl; try discriminate.
  - reflexivity.
  - cbn [combine map fst snd]. rewrite IH by (simpl in Hl; lia).
    f_equal. ring.
Qed.

(** The sum of two vectors has the dimension of the shorter one: the
    components beyond it are dropped without an error.  For vectors of the
    same dimension, subtracting what was added gives the vector back. *)
Theorem add_truncates_and_sub_undoes (args1 args2 : list R) :
  let a := Vector.Vector args1 in
  let b := Vector.Vector args2 in
  length (Vector.__add__ a (Vector.Vec b)) = Nat.min (length a) (length b)
  /\ (forall i, (i < Nat.min (length a) (length b))%nat ->
        nth i (Vector.__add__ a (Vector.Vec b)) 0 = nth i a 0 + nth i b 0)
  /\ (length a = length b ->
      Vector.__sub__ (Vector.__add__ a (Vector.Vec b)) (Vector.Vec b) = a).
Proof.
  intros a b.
  pose proof (Vector_nonempty args1) as Ha. pose proof (Vector_nonempty args2) as Hb.
  fold a in Ha. fold b in Hb. clearbody a b.
  rewrite (add_eq a b Ha Hb). split; [| split].
  - rewrite length_map, length_combine. reflexivity.
  - intros i Hi. clear Ha Hb. revert b i Hi.
    induction a as [| x a IH]; intros [| y b] i Hi; simpl in Hi; try lia.
    destruct i as [| i]; [reflexivity |]. cbn [combine map nth fst snd].
    apply IH. lia.
  - intros Hl. rewrite sub_eq.
    + apply add_sub_same_length, Hl.
    + intros H. apply map_eq_nil in H. revert H. apply combine_nonempty; assumption.
    + exact Hb.
Qed.

(** Scaling a vector and dividing it by the same number gives the vector
    back, unless the number is 0: dividing by 0 raises ZeroDivisionError. *)
Theorem scale_then_divide (args : list R) (k : R) :
  let v := Vector.Vector args in
  (k <> 0 ->
   Vector.__truediv__ (Vector.__mul__ v (Vector.Num k)) (Vector.Num k) = Ok v)
  /\ Vector.__truediv__ v (Vector.Num 0) = Raise ZeroDivisionError.
Proof.
  intros v. pose proof (Vector_nonempty args) as Hv. fold v in Hv. clearbody v.
  split.
  - intros Hk. cbn [Vector.__truediv__ Vector.__mul__].
    assert (Hm : Vector.Vector (map (fun a => a * k) v) = map (fun a => a * k) v).
    { apply Vector_of_nonempty. intros H. apply map_eq_nil in H. contradiction. }
    rewrite Hm, mapM_div_ok, bind_ok by exact Hk. rewrite map_map.
    assert (Hid : map (fun x => x * k / k) v = v).
    { rewrite <- (map_id v) at 2. apply map_ext. intros x. field. exact Hk. }
    rewrite Hid. f_equal. apply Vector_of_nonempty, Hv.
  - destruct v as [| x v]; [contradiction |].
    cbn [Vector.__truediv__ mapM]. rewrite div_zero. reflexivity.
Qed.

(** [matrix_mult] takes any number of rows: it raises its ValueError
    exactly when a row has not the dimension of the vector, and otherwise
    returns one component per row (and the 2D zero vector for no row at
    all), the componentwise product of the row and the vector. *)
Theorem matrix_mult_rows (self : Vector.t) (matrix : list (list R)) :
  (Exists (fun row => length row <> length self) matrix <->
   Vector.matrix_mult self matrix
   = Raise (ValueError "Matrix must match vector dimensions"))
  /\ (Forall (fun row => length row = length self) matrix <->
      exists product,
        Vector.matrix_mult self matrix = Ok product
        /\ length product = (if Nat.eqb (length matrix) 0 then 2 else length matrix)%nat
        /\ forall i row, nth_error matrix i = Some row ->
             nth_error product i
             = Some (Vector.Vec (Vector.__mul__ (Vector.Vector row) (Vector.Vec self)))).
Proof.
  assert (Hall : forall m,
    Py.all (fun row : list R => Ok (Nat.eqb (length row) (Vector.__len__ self))) m
    = Ok (forallb (fun row => Nat.eqb (length row) (length self)) m)).
  { induction m as [| row m IH]; [reflexivity |]. cbn [Py.all forallb bind].
    unfold Vector.__len__ in *. destruct (Nat.eqb (length row) (length self)); [exact IH | reflexivity]. }
  unfold Vector.matrix_mult. rewrite Hall, bind_ok.
  destruct (forallb (fun row => Nat.eqb (length row) (length self)) matrix) eqn:Hf; cbn [negb].
  - assert (HF : Forall (fun row => length row = length self) matrix).
    { apply Forall_forall. intros row Hin.
      rewrite forallb_forall in Hf. apply Nat.eqb_eq, Hf, Hin. }
    split.
    + split; [| discriminate]. intros HE. exfalso.
      apply Exists_exists in HE. destruct HE as [row [Hin Hne]].
      rewrite Forall_forall in HF. exact (Hne (HF row Hin)).
    + split; [| intros _; exact HF]. intros _. eexists. split; [reflexivity |].
      destruct matrix as [| row0 matrix]; [split; [reflexivity |] |].
      * intros i row Hn. destruct i; discriminate.
      * change (Vector.init (Vector.Num 0)
                  (map (fun row => Vector.Vec (Vector.__mul__ (Vector.Vector row) (Vector.Vec self)))
                     (row0 :: matrix)))
          with (map (fun row => Vector.Vec (Vector.__mul__ (Vector.Vector row) (Vector.Vec self)))
                  (row0 :: matrix)).
        split; [rewrite length_map; reflexivity |].
        intros i row Hn. rewrite nth_error_map, Hn. reflexivity.
  - assert (HE : Exists (fun row => length row <> length self) matrix).
    { apply Exists_exists.
      assert (Hex : existsb (fun row => negb (Nat.eqb (length row) (length self))) matrix = true).
      { clear Hall. induction matrix as [| row m IH]; [discriminate |].
        cbn [forallb existsb] in *.
        destruct (Nat.eqb (length row) (length self)); cbn [negb andb orb] in *;
          [apply IH, Hf | reflexivity]. }
      apply existsb_exists in Hex. destruct Hex as [row [Hin Hne]].
      exists row. split; [exact Hin |].
      apply Nat.eqb_neq. destruct (Nat.eqb (length row) (length self)); [discriminate | reflexivity]. }
    split.
    + split; [reflexivity | intros _; exact HE].
    + split; [| intros [product [H _]]; discriminate].
      intros HF. exfalso. apply Exists_exists in HE. destruct HE as [row [Hin Hne]].
      rewrite Forall_forall in HF. exact (Hne (HF row Hin)).
Qed.

(** ** Collision response of a bat *)

Lemma sumsq_bounced (e : nat) (vx vy : R) : sumsq (bounced e vx vy) = sumsq [vx; vy].
Proof.
  assert (Hx : Rabs vx * Rabs vx = vx * vx) by (rewrite <- Rabs_mult; apply Rabs_pos_eq; nra).
  assert (Hy : Rabs vy * Rabs vy = vy * vy) by (rewrite <- Rabs_mult; apply Rabs_pos_eq; nra).
  destruct e as [| [| [| e]]]; cbn [bounced]; rewrite !sumsq_2D; nra.
Qed.

(** A 2D bat whose rectangle first collides with a wall that blocks bats:
    [test_collision] returns; the last step is undone; the component of the
    velocity across the closest edge of the wall is given the sign that
    points away from the wall (to -x for the left edge, +x for the right,
    -y for the top, +y for the bottom), the other component is kept, and
    so is the speed; nothing else of the bat changes. *)
Theorem bat_repelled_outward (walls : list Wall.t) (self : Bat.t) (rect : pygame.Rect)
    (wall : Wall.t) (px py vx vy : R) :
  Bat.pos self = [px; py] ->
  Bat.vel self = [vx; vy] ->
  Bat.get_rect self = Ok rect ->
  pygame.collidelist rect (map Wall.rect walls) <> (-1)%Z ->
  getitem walls (Z.to_nat (pygame.collidelist rect (map Wall.rect walls))) = Ok wall ->
  Wall.collides_bat wall = true ->
  exists e self',
    close_edge_of [px - vx / 60; py - vy / 60] (Wall.rect wall) = Ok e
    /\ Bat.test_collision walls self = Ok self'
    /\ Bat.pos self' = [px - vx / 60; py - vy / 60]
    /\ Bat.vel self'
       = match e with
         | 0%nat => [- Rabs vx; vy]
         | 1%nat => [Rabs vx; vy]
         | 2%nat => [vx; - Rabs vy]
         | _ => [vx; Rabs vy]
         end
    /\ Vector.norm (Bat.vel self') = Vector.norm [vx; vy]
    /\ Bat.set_vel (Bat.set_pos self' (Bat.pos self)) (Bat.vel self) = self.
Proof.
  intros Hp Hv Hr Hc Hw Hb.
  destruct (bat_test_collision_hit walls self rect px py vx vy Hp Hv Hr Hc)
    as [wall' [e [Hw' [He [Hlt Ht]]]]].
  rewrite Hw in Hw'. injection Hw' as <-. rewrite Hb in Ht.
  exists e, (repelled self px py vx vy e).
  split; [exact He |]. split; [exact Ht |]. split; [reflexivity |].
  split; [| split].
  - cbn. destruct e as [| [| [| e]]]; cbn [bounced]; f_equal; try (f_equal; ring); ring.
  - rewrite !norm_eq. cbn [Bat.vel repelled Bat.set_vel]. rewrite sumsq_bounced. reflexivity.
  - destruct self. cbn in *. subst. reflexivity.
Qed.

Lemma bat_repelled_outward_witness :
  exists e self',
    close_edge_of [100 - 0 / 60; 95 - 60 / 60] (Wall.rect floor) = Ok e
    /\ Bat.test_collision [floor] falling_bat = Ok self'
    /\ Bat.pos self' = [100 - 0 / 60; 95 - 60 / 60]
    /\ Bat.vel self'
       = match e with
         | 0%nat => [- Rabs 0; 60]
         | 1%nat => [Rabs 0; 60]
         | 2%nat => [0; - Rabs 60]
         | _ => [0; Rabs 60]
         end
    /\ Vector.norm (Bat.vel self') = Vector.norm [0; 60]
    /\ Bat.set_vel (Bat.set_pos self' (Bat.pos falling_bat)) (Bat.vel falling_bat)
       = falling_bat.
Proof.
  apply (bat_repelled_outward [floor] falling_bat (pygame.mkRect 90 85 20 20) floor
           100 95 0 60 eq_refl eq_refl falling_bat_rect ltac:(discriminate)
           eq_refl eq_refl).
Defined.

(** ** What a tick keeps of a ray *)

Lemma getitem_In {A : Type} (l : list A) (i : nat) (a : A) :
  getitem l i = Ok a -> In a l.
Proof.
  unfold getitem. destruct (nth_error l i) as [a' |] eqn:E; [| discriminate].
  intros H. injection H as <-. eapply nth_error_In, E.
Qed.

(** [test_collision] on a 2D ray: the ray itself, or the ray struck by a
    wall of the list. *)
Lemma ray_test_collision_cases (walls : list Wall.t) (self : Ray.t) :
  ray_2D self ->
  exists fx fy,
    Ray.facing self = [fx; fy]
    /\ (Ray.test_collision walls self = Ok self
        \/ exists wall e,
             In wall walls /\ (e < 4)%nat
             /\ Ray.test_collision walls self = Ok (struck wall self (bounced e fx fy))).
Proof.
  intros [Hp Hf].
  destruct (is_2D_inv _ Hp) as [px [py Ep]].
  destruct (is_2D_inv _ Hf) as [fx [fy Ef]].
  destruct (ray_get_rect_ok self Hp) as [rect Hr].
  exists fx, fy. split; [exact Ef |].
  destruct (Z.eq_dec (pygame.collidelist rect (map Wall.rect walls)) (-1)) as [Hc | Hc].
  - left. exact (ray_test_collision_miss walls self rect Hr Hc).
  - right.
    destruct (ray_test_collision_hit walls self rect px py fx fy Ep Ef Hr Hc)
      as [wall [e [Hw [_ [_ [Hlt Ht]]]]]].
    exists wall, e. split; [exact (getitem_In _ _ _ Hw) |]. split; assumption.
Qed.

(** [update] on a 2D ray that the list holds: removed as [test_collision]
    left it, or advanced and written back. *)
Lemma ray_update_cases (walls : list Wall.t) (self : Ray.t) (rays : list Ray.t) :
  ray_2D self ->
  holds Ray.id rays (Ray.id self) ->
  exists mid,
    Ray.test_collision walls (Ray.set_strength self (Ray.strength self - RAY_DECAY))
    = Ok mid
    /\ Ray.id mid = Ray.id self
    /\ ((Ray.strength mid <= 0
         /\ exists rays', list_remove Ray.id (Ray.id self) rays = Ok rays'
                          /\ Ray.update walls self rays = Ok (mid, rays'))
        \/ (0 < Ray.strength mid
            /\ Ray.update walls self rays
               = Ok (advanced mid, store Ray.id (advanced mid) rays))).
Proof.
  intros H2 Hin.
  destruct (ray_test_collision_total walls
              (Ray.set_strength self (Ray.strength self - RAY_DECAY)) H2)
    as [mid [Ht [_ [Hid _]]]].
  cbn [Ray.id Ray.set_strength] in Hid.
  exists mid. split; [exact Ht |]. split; [exact Hid |].
  unfold Ray.update. rewrite Ht, bind_ok.
  destruct (Rle_dec (Ray.strength mid) 0) as [Hle | Hgt].
  - left. split; [exact Hle |]. rewrite Hid.
    destruct (list_remove_ok Ray.id _ rays Hin) as [rays' Hrm].
    exists rays'. split; [exact Hrm |]. rewrite Hrm. reflexivity.
  - right. split; [lra | reflexivity].
Qed.

(** A new ray has a facing of norm 1, and a call of [update] keeps the
    ray 2D and the norm of its facing, whether the ray meets a wall or
    not: a bounce turns the facing and never stretches it. *)
Theorem ray_keeps_speed (walls : list Wall.t) (self : Ray.t) (rays : list Ray.t) :
  ray_2D self ->
  holds Ray.id rays (Ray.id self) ->
  (exists self' rays',
     Ray.update walls self rays = Ok (self', rays')
     /\ ray_2D self'
     /\ Vector.norm (Ray.facing self') = Vector.norm (Ray.facing self))
  /\ (forall fresh parent pos angle,
        exists ray, Ray.init fresh parent pos angle = Ok ray
                    /\ Vector.norm (Ray.facing ray) = Ok 1).
Proof.
  intros H2 Hin. split.
  - destruct (ray_test_collision_cases walls
                (Ray.set_strength self (Ray.strength self - RAY_DECAY)) H2)
      as [fx [fy [Ef Hcases]]].
    destruct (ray_update_cases walls self rays H2 Hin) as [mid [Ht [_ Hupd]]].
    assert (Hmid : ray_2D mid /\ sumsq (Ray.facing mid) = sumsq (Ray.facing self)).
    { destruct Hcases as [Hsame | [wall [e [_ [_ Hhit]]]]].
      - rewrite Hsame in Ht. injection Ht as <-. split; [exact H2 | reflexivity].
      - rewrite Hhit in Ht. injection Ht as <-. cbn [Ray.facing struck].
        cbn [Ray.facing Ray.set_strength] in Ef. rewrite Ef, sumsq_bounced.
        split; [| reflexivity]. split; [| apply bounced_2D].
        destruct H2 as [Hp _]. destruct (is_2D_inv _ Hp) as [px [py Ep]].
        unfold is_2D. cbn [Ray.pos struck Ray.set_strength Ray.facing]. rewrite Ep, Ef.
        reflexivity. }
    destruct Hmid as [Hm2 Hss].
    destruct Hupd as [[_ [rays' [_ Hu]]] | [_ Hu]]; rewrite Hu.
    + eexists _, _. split; [reflexivity |]. split; [exact Hm2 |].
      rewrite !norm_eq, Hss. reflexivity.
    + eexists _, _. split; [reflexivity |]. split.
      * destruct Hm2 as [Hmp Hmf]. split; [| exact Hmf].
        destruct (is_2D_inv _ Hmp) as [px [py Ep]].
        destruct (is_2D_inv _ Hmf) as [gx [gy Eg]].
        unfold is_2D. cbn [advanced Ray.pos Ray.set_pos]. rewrite Ep, Eg. reflexivity.
      * cbn [advanced Ray.facing Ray.set_pos]. rewrite !norm_eq, Hss. reflexivity.
  - intros fresh parent pos angle. unfold Ray.init.
    rewrite rotate_unit_x, bind_ok. eexists. split; [reflexivity |].
    cbn [Ray.facing]. rewrite norm_eq, sumsq_2D. f_equal.
    pose proof (sin2_cos2 angle) as H. unfold Rsqr in H.
    replace (cos angle * cos angle + sin angle * sin angle) with 1 by lra.
    apply sqrt_1.
Qed.

Lemma ray_keeps_speed_witness :
  exists self' rays',
    Ray.update [ceiling] rising_ray [rising_ray] = Ok (self', rays')
    /\ ray_2D self'
    /\ Vector.norm (Ray.facing self') = Vector.norm (Ray.facing rising_ray).
Proof.
  apply (proj1 (ray_keeps_speed [ceiling] rising_ray [rising_ray]
                  (conj eq_refl eq_refl) (or_introl eq_refl))).
Defined.





(** ** One tick of a bat *)

Lemma bat_get_rect_ok (self : Bat.t) :
  is_2D (Bat.pos self) -> exists rect, Bat.get_rect self = Ok rect.
Proof.
  intros H. destruct (is_2D_inv _ H) as [x [y E]].
  unfold Bat.get_rect. rewrite E, get_rect_of_2D. eexists. reflexivity.
Qed.

(** [test_collision] on a 2D bat: the bat itself, or the bat repelled. *)
Lemma bat_test_collision_cases (walls : list Wall.t) (self : Bat.t) (px py vx vy : R) :
  Bat.pos self = [px; py] ->
  Bat.vel self = [vx; vy] ->
  Bat.test_collision walls self = Ok self
  \/ exists e, (e < 4)%nat
               /\ Bat.test_collision walls self = Ok (repelled self px py vx vy e).
Proof.
  intros Hp Hv.
  destruct (bat_get_rect_ok self) as [rect Hr]; [rewrite Hp; reflexivity |].
  destruct (Z.eq_dec (pygame.collidelist rect (map Wall.rect walls)) (-1)) as [Hc | Hc].
  - left. exact (bat_test_collision_miss walls self rect Hr Hc).
  - destruct (bat_test_collision_hit walls self rect px py vx vy Hp Hv Hr Hc)
      as [wall [e [_ [_ [Hlt Ht]]]]].
    destruct (Wall.collides_bat wall); [right | left]; [| exact Ht].
    exists e. split; assumption.
Qed.

Lemma sqrt_sumsq_map_div (f : R) (v : Vector.t) :
  f <> 0 -> sqrt (sumsq (map (fun a => a / f) v)) * Rabs f = sqrt (sumsq v).
Proof.
  intros Hf. rewrite sumsq_map_div by exact Hf.
  rewrite <- sqrt_Rsqr_abs, <- sqrt_mult_alt.
  - f_equal. unfold Rsqr. field. exact Hf.
  - apply Rmult_le_reg_r with (f * f); [nra |].
    replace (sumsq v / (f * f) * (f * f)) with (sumsq v) by (field; exact Hf).
    pose proof (sumsq_nonneg v). lra.
Qed.

(** [update] of a 2D bat, by the friction. *)
Lemma bat_update_total (walls : list Wall.t) (self : Bat.t) :
  is_2D (Bat.pos self) ->
  is_2D (Bat.vel self) ->
  is_2D (Bat.facing self) ->
  (Bat.friction self <> 0 ->
   exists self',
     Bat.update walls self = Ok self'
     /\ is_2D (Bat.pos self') /\ is_2D (Bat.vel self') /\ is_2D (Bat.facing self')
     /\ Vector.norm (Bat.facing self') = Vector.norm (Bat.facing self)
     /\ Bat.ang_vel self' = Bat.ang_vel self / Bat.friction self
     /\ (exists n n', Vector.norm (Bat.vel self) = Ok n
                      /\ Vector.norm (Bat.vel self') = Ok n'
                      /\ n' * Rabs (Bat.friction self) = n)
     /\ Bat.rays self' = Bat.rays self
     /\ Bat.beams self' = Bat.beams self
     /\ Bat.friction self' = Bat.friction self
     /\ Bat.id self' = Bat.id self
     /\ Bat.radius self' = Bat.radius self)
  /\ (Bat.friction self = 0 -> Bat.update walls self = Raise ZeroDivisionError).
Proof.
  intros Hp Hv Hf.
  destruct (is_2D_inv _ Hp) as [px [py Ep]].
  destruct (is_2D_inv _ Hv) as [vx [vy Ev]].
  destruct (is_2D_inv _ Hf) as [fx [fy Ef]].
  destruct self as [id0 pos0 vel0 facing0 av fr rays0 beams0 rad].
  cbn [Bat.pos Bat.vel Bat.facing Bat.friction Bat.ang_vel Bat.rays Bat.beams Bat.id
         Bat.radius] in *.
  subst pos0 vel0 facing0. clear Hp Hv Hf.
  unfold Bat.update.
  cbn [Bat.pos Bat.vel Bat.set_pos Vector.__truediv__].
  rewrite (mapM_div_ok 60) by lra. rewrite bind_ok, bind_ok.
  cbn [map Vector.Vector Vector.init Vector.__add__ combine fst snd].
  set (self1 := Bat.set_pos _ [px + vx / 60; py + vy / 60]).
  destruct (bat_test_collision_cases walls self1 (px + vx / 60) (py + vy / 60) vx vy
              eq_refl eq_refl) as [Hsame | [e [Hlt Hrep]]].
  - rewrite Hsame, bind_ok.
    cbn [Bat.facing Bat.ang_vel Bat.vel Bat.friction Bat.pos self1 Bat.set_pos
           Bat.set_facing Bat.set_vel].
    rewrite rotate_2D, bind_ok.
    cbn [Bat.facing Bat.ang_vel Bat.vel Bat.friction Bat.set_facing Bat.set_vel
           Vector.__truediv__].
    split.
    + intros Hfr. rewrite mapM_div_ok, bind_ok, bind_ok by exact Hfr.
      cbn [Bat.ang_vel Bat.friction Bat.set_vel]. rewrite div_ok, bind_ok by exact Hfr.
      eexists. split; [reflexivity |].
      subst self1.
      cbn [Bat.pos Bat.vel Bat.facing Bat.ang_vel Bat.rays Bat.beams Bat.friction Bat.id
             Bat.radius Bat.set_ang_vel Bat.set_vel Bat.set_facing Bat.set_pos
             map Vector.Vector Vector.init].
      split; [reflexivity |]. split; [reflexivity |]. split; [reflexivity |].
      split; [rewrite !norm_eq, sumsq_rotated; reflexivity |].
      split; [reflexivity |].
      split; [| repeat split; reflexivity].
      eexists _, _. split; [apply norm_eq |]. split; [apply norm_eq |].
      apply (sqrt_sumsq_map_div fr [vx; vy] Hfr).
    + intros Hfr. rewrite Hfr. cbn [mapM]. rewrite div_zero. reflexivity.
  - rewrite Hrep, bind_ok.
    cbn [Bat.facing Bat.ang_vel Bat.vel Bat.friction Bat.pos self1 Bat.set_pos
           Bat.set_facing Bat.set_vel repelled].
    rewrite rotate_2D, bind_ok.
    cbn [Bat.facing Bat.ang_vel Bat.vel Bat.friction Bat.set_facing Bat.set_vel
           Vector.__truediv__].
    split.
    + intros Hfr. rewrite mapM_div_ok, bind_ok, bind_ok by exact Hfr.
      cbn [Bat.ang_vel Bat.friction Bat.set_vel]. rewrite div_ok, bind_ok by exact Hfr.
      eexists. split; [reflexivity |].
      assert (Hb2 : is_2D (bounced e vx vy)) by apply bounced_2D.
      destruct (is_2D_inv _ Hb2) as [bx [by' Eb]].
      pose proof (sumsq_bounced e vx vy) as Hss. rewrite Eb in *.
      subst self1.
      cbn [Bat.pos Bat.vel Bat.facing Bat.ang_vel Bat.rays Bat.beams Bat.friction Bat.id
             Bat.radius Bat.set_ang_vel Bat.set_vel Bat.set_facing Bat.set_pos
             map Vector.Vector Vector.init].
      split; [reflexivity |]. split; [reflexivity |]. split; [reflexivity |].
      split; [rewrite !norm_eq, sumsq_rotated; reflexivity |].
      split; [reflexivity |].
      split; [| repeat split; reflexivity].
      eexists _, _. split; [apply norm_eq |]. split; [apply norm_eq |].
      rewrite <- Hss. apply (sqrt_sumsq_map_div fr [bx; by'] Hfr).
    + intros Hfr. rewrite Hfr.
      destruct e as [| [| [| e]]]; cbn [bounced mapM]; rewrite div_zero; reflexivity.
Qed.

(** [update] of a bat with 2D position, velocity and facing.  With a
    friction that is not 0 it returns, whatever the walls: position,
    velocity and facing stay 2D, the facing keeps its norm, the angular
    velocity is divided by the friction and so is the speed (a collision
    turns the velocity but keeps the speed); rays, beams and the rest are
    untouched.  With the friction 0 it raises ZeroDivisionError. *)
Theorem bat_update_tick (walls : list Wall.t) (self : Bat.t) :
  is_2D (Bat.pos self) ->
  is_2D (Bat.vel self) ->
  is_2D (Bat.facing self) ->
  (Bat.friction self <> 0 ->
   exists self',
     Bat.update walls self = Ok self'
     /\ is_2D (Bat.pos self') /\ is_2D (Bat.vel self') /\ is_2D (Bat.facing self')
     /\ Vector.norm (Bat.facing self') = Vector.norm (Bat.facing self)
     /\ Bat.ang_vel self' = Bat.ang_vel self / Bat.friction self
     /\ (exists n n', Vector.norm (Bat.vel self) = Ok n
                      /\ Vector.norm (Bat.vel self') = Ok n'
                      /\ n' * Rabs (Bat.friction self) = n)
     /\ Bat.rays self' = Bat.rays self
     /\ Bat.beams self' = Bat.beams self
     /\ Bat.friction self' = Bat.friction self
     /\ Bat.id self' = Bat.id self
     /\ Bat.radius self' = Bat.radius self)
  /\ (Bat.friction self = 0 -> Bat.update walls self = Raise ZeroDivisionError).
Proof. exact (bat_update_total walls self). Qed.

Lemma bat_update_tick_witness :
  exists self',
    Bat.update [floor] falling_bat = Ok self'
    /\ Vector.norm (Bat.facing self') = Vector.norm (Bat.facing falling_bat)
    /\ Bat.ang_vel self' = 0 / (11 / 10).
Proof.
  destruct (proj1 (bat_update_tick [floor] falling_bat eq_refl eq_refl eq_refl))
    as [self' [E [_ [_ [_ [Hn [Ha _]]]]]]].
  - cbn. lra.
  - exists self'. split; [exact E |]. split; [exact Hn | exact Ha].
Defined.

(** ** Emission in general *)

Lemma map_add_seq (fresh n s : nat) :
  map (fun i => (fresh + i)%nat) (seq s n) = seq (fresh + s) n.
Proof.
  revert s. induction n as [| n IH]; intros s; [reflexivity |].
  cbn [seq map]. rewrite IH. f_equal. f_equal. lia.
Qed.

Lemma unit_circle_norm (a : R) : Vector.norm [cos a; sin a] = Ok 1.
Proof.
  rewrite norm_eq, sumsq_2D. f_equal.
  pose proof (sin2_cos2 a) as H. unfold Rsqr in H.
  replace (cos a * cos a + sin a * sin a) with 1 by lra.
  apply sqrt_1.
Qed.

Lemma emit_loop_zero (fresh : nat) (self : Bat.t) (i : nat) (range : list nat) :
  is_zero (Bat.facing self) ->
  Bat.emit_loop fresh self (i :: range) = Raise ZeroDivisionError.
Proof.
  intros Hz. cbn [Bat.emit_loop]. rewrite (argument_zero _ Hz). reflexivity.
Qed.

(** [emit] on a bat with a 2D facing.  When the facing is not zero it
    returns, keeps the rays the bat had and everything but the rays, and
    appends [RAYS_PER_EMIT] rays with the identities [fresh], [fresh + 1],
    ...: each at the position of the bat, owned by it, of full strength,
    interest 0, neither collided nor out of the bat, with a facing of norm
    1.  When the facing is zero it raises ZeroDivisionError. *)
Theorem emit_appends_fan (fresh : nat) (self : Bat.t) :
  is_2D (Bat.facing self) ->
  (~ is_zero (Bat.facing self) ->
   exists self' new,
     Bat.emit fresh self = Ok self'
     /\ Bat.rays self' = Bat.rays self ++ new
     /\ length new = RAYS_PER_EMIT
     /\ map Ray.id new = seq fresh RAYS_PER_EMIT
     /\ Forall (fun ray =>
                  Ray.pos ray = Bat.pos self
                  /\ Ray.parent ray = Bat.id self
                  /\ Ray.strength ray = RAY_STRENGTH
                  /\ Ray.interest ray = 0
                  /\ Ray.collided ray = false
                  /\ Ray.exited_bat ray = false
                  /\ Vector.norm (Ray.facing ray) = Ok 1) new
     /\ Bat.set_rays self' (Bat.rays self) = self)
  /\ (is_zero (Bat.facing self) -> Bat.emit fresh self = Raise ZeroDivisionError).
Proof.
  intros H2. split.
  - intros Hz. destruct (argument_2D_ok _ H2 Hz) as [a [Ea _]].
    rewrite (emit_eq fresh a self Ea).
    exists (Bat.set_rays self
              (Bat.rays self ++ map (emitted fresh self a) (seq 0 RAYS_PER_EMIT))),
           (map (emitted fresh self a) (seq 0 RAYS_PER_EMIT)).
    split; [reflexivity |]. split; [reflexivity |].
    split; [rewrite length_map, length_seq; reflexivity |].
    split; [rewrite map_map; cbn [Ray.id emitted];
            rewrite (map_add_seq fresh RAYS_PER_EMIT 0), Nat.add_0_r; reflexivity |].
    split.
    + apply Forall_forall. intros ray Hin. apply in_map_iff in Hin.
      destruct Hin as [i [<- _]]. cbn [emitted Ray.pos Ray.parent Ray.strength Ray.interest
                                         Ray.collided Ray.exited_bat Ray.facing].
      repeat (split; [reflexivity |]). apply unit_circle_norm.
    + destruct self; reflexivity.
  - intros Hz. unfold Bat.emit.
    change (seq 0 RAYS_PER_EMIT) with (0%nat :: seq 1 31).
    apply emit_loop_zero, Hz.
Qed.

Lemma emit_appends_fan_witness :
  exists self' new,
    Bat.emit 5 bat_at_rest = Ok self'
    /\ Bat.rays self' = Bat.rays bat_at_rest ++ new
    /\ length new = RAYS_PER_EMIT
    /\ map Ray.id new = seq 5 RAYS_PER_EMIT.
Proof.
  destruct (proj1 (emit_appends_fan 5 bat_at_rest eq_refl) unit_x_not_zero)
    as [self' [new [E [Hr [Hl [Hi _]]]]]].
  exists self', new. repeat split; assumption.
Defined.

(** ** Returning rays in general *)









(** ** The life of a beam *)

Lemma beam_ticks_S (n : nat) (self : Beam.t) (beams : list Beam.t) :
  beam_ticks (S n) self beams
  = (st <- beam_ticks n self beams ;; Beam.update (fst st) (snd st)).
Proof. reflexivity. Qed.

Lemma beam_ticks_alive (self : Beam.t) (beams : list Beam.t) (k : nat) :
  0 < Beam.strength self - INR k * BEAM_DECAY ->
  exists beams_k,
    beam_ticks k self beams
    = Ok (Beam.set_strength self (Beam.strength self - INR k * BEAM_DECAY), beams_k)
    /\ map Beam.id beams_k = map Beam.id beams.
Proof.
  induction k as [| k IH]; intros Hs.
  - exists beams. split; [| reflexivity]. cbn [beam_ticks INR].
    replace (Beam.strength self - 0 * BEAM_DECAY) with (Beam.strength self) by ring.
    destruct self; reflexivity.
  - rewrite S_INR in Hs. unfold BEAM_DECAY in *.
    destruct IH as [beams_k [Ht Hids]]; [pose proof (pos_INR k); lra |].
    rewrite beam_ticks_S, Ht, bind_ok. cbn [fst snd]. unfold Beam.update.
    cbn [Beam.strength Beam.set_strength]. unfold BEAM_DECAY.
    destruct (Rle_dec (Beam.strength self - INR k * 2 - 2) 0) as [Hle | _]; [lra |].
    eexists. split.
    + rewrite S_INR. cbn [Beam.id Beam.parent Beam.start Beam.rel Beam.interest Beam.width].
      replace (Beam.strength self - (INR k + 1) * 2)
        with (Beam.strength self - INR k * 2 - 2) by ring.
      reflexivity.
    + rewrite store_ids. exact Hids.
Qed.

(** A beam that its bat holds (once) loses [BEAM_DECAY] at each tick and
    is in the list as long as its strength is positive; the tick that
    brings the strength to 0 or less takes it out.  So a beam of strength
    s, with 2 n < s <= 2 (n + 1), is in the list after each of the first
    n ticks and out after tick n + 1. *)
Theorem beam_fades_out (self : Beam.t) (beams : list Beam.t) (n : nat) :
  holds Beam.id beams (Beam.id self) ->
  NoDup (map Beam.id beams) ->
  INR n * BEAM_DECAY < Beam.strength self <= INR (S n) * BEAM_DECAY ->
  (forall k, (k <= n)%nat ->
     exists beams_k,
       beam_ticks k self beams
       = Ok (Beam.set_strength self (Beam.strength self - INR k * BEAM_DECAY), beams_k)
       /\ holds Beam.id beams_k (Beam.id self))
  /\ exists last beams',
       beam_ticks (S n) self beams = Ok (last, beams')
       /\ Beam.strength last <= 0
       /\ ~ holds Beam.id beams' (Beam.id self).
Proof.
  intros Hin Hnd [Hlo Hhi]. split.
  - intros k Hk.
    destruct (beam_ticks_alive self beams k) as [beams_k [Ht Hids]].
    + assert (INR k <= INR n) by (apply le_INR; exact Hk). unfold BEAM_DECAY in *. lra.
    + exists beams_k. split; [exact Ht |]. unfold holds. rewrite Hids. exact Hin.
  - destruct (beam_ticks_alive self beams n) as [beams_n [Ht Hids]]; [lra |].
    rewrite beam_ticks_S, Ht, bind_ok. cbn [fst snd]. unfold Beam.update.
    cbn [Beam.strength Beam.set_strength Beam.id].
    rewrite S_INR in Hhi. unfold BEAM_DECAY in *.
    destruct (Rle_dec (Beam.strength self - INR n * 2 - 2) 0) as [Hle | Hgt]; [| lra].
    assert (Hin' : holds Beam.id beams_n (Beam.id self))
      by (unfold holds; rewrite Hids; exact Hin).
    assert (Hnd' : NoDup (map Beam.id beams_n)) by (rewrite Hids; exact Hnd).
    destruct (list_remove_ok Beam.id _ beams_n Hin') as [beams' Hrm].
    rewrite Hrm, bind_ok. eexists _, beams'. split; [reflexivity |].
    split; [exact Hle |]. eapply list_remove_gone; eassumption.
Qed.

(** A beam of strength 3: in the list after one tick, out after two. *)
Lemma beam_fades_out_witness :
  (forall k, (k <= 1)%nat ->
     exists beams_k,
       beam_ticks k (Beam.init 1 0 [100; 100] [1; 0] 3 (1 / 2))
         [Beam.init 1 0 [100; 100] [1; 0] 3 (1 / 2)]
       = Ok (Beam.set_strength (Beam.init 1 0 [100; 100] [1; 0] 3 (1 / 2))
               (Beam.strength (Beam.init 1 0 [100; 100] [1; 0] 3 (1 / 2))
                - INR k * BEAM_DECAY), beams_k)
       /\ holds Beam.id beams_k
            (Beam.id (Beam.init 1 0 [100; 100] [1; 0] 3 (1 / 2))))
  /\ exists last beams',
       beam_ticks 2 (Beam.init 1 0 [100; 100] [1; 0] 3 (1 / 2))
         [Beam.init 1 0 [100; 100] [1; 0] 3 (1 / 2)] = Ok (last, beams')
       /\ Beam.strength last <= 0
       /\ ~ holds Beam.id beams' (Beam.id (Beam.init 1 0 [100; 100] [1; 0] 3 (1 / 2))).
Proof.
  apply (beam_fades_out (Beam.init 1 0 [100; 100] [1; 0] 3 (1 / 2))
           [Beam.init 1 0 [100; 100] [1; 0] 3 (1 / 2)] 1
           (or_introl eq_refl)
           (NoDup_cons 1%nat (fun H : In 1%nat [] => H) (NoDup_nil nat))).
  cbn. unfold BEAM_DECAY. split; lra.
Defined.

(** ** The colour of an interest *)

Lemma round_between (a b : Z) (x : R) :
  IZR a <= x <= IZR b -> (a <= Py.round x <= b)%Z.
Proof.
  intros [Ha Hb]. unfold Py.round.
  destruct (base_Int_part x) as [H1 H2].
  set (f := Int_part x) in *.
  assert (Haf : (a <= f)%Z).
  { assert (H : IZR a < IZR (f + 1)) by (rewrite plus_IZR; lra).
    apply lt_IZR in H. lia. }
  assert (Hfb : (f <= b)%Z) by (apply le_IZR; lra).
  assert (Hup : 0 < x - IZR f -> (f + 1 <= b)%Z).
  { intros Hd. assert (H : IZR f < IZR b) by lra. apply lt_IZR in H. lia. }
  destruct (Rlt_dec (x - IZR f) (1 / 2)); [lia |].
  destruct (Rlt_dec (1 / 2) (x - IZR f)); [specialize (Hup ltac:(lra)); lia |].
  destruct (Z.even f); [lia |]. specialize (Hup ltac:(lra)). lia.
Qed.

(** For an interest between -1 and 1 the three channels are valid colour
    values, between 0 and 255.  At most one of the first two is not 0: a
    positive interest shows in the second only, a negative one in the
    first only. *)
Theorem interest_colour_valid (interest : R) :
  (-1 <= interest <= 1 ->
   let '(red, green, blue) := interest_colour interest in
   (0 <= red <= 255 /\ 0 <= green <= 255 /\ 0 <= blue <= 255)%Z)
  /\ (0 <= interest ->
      negative_interest interest = 0%Z
      /\ positive_interest interest = Py.round (255 * interest))
  /\ (interest <= 0 ->
      positive_interest interest = 0%Z
      /\ negative_interest interest = Py.round (255 * - interest)).
Proof.
  unfold interest_colour, positive_interest, negative_interest.
  split; [| split].
  - intros [Hlo Hhi]. split; [| split; [| lia]].
    + apply round_between. unfold Rabs. destruct (Rcase_abs (- interest)); split; lra.
    + apply round_between. unfold Rabs. destruct (Rcase_abs interest); split; lra.
  - intros Hpos. split.
    + replace (255 * (Rabs (- interest) + - interest) / 2) with (IZR 0).
      * apply round_IZR.
      * unfold Rabs. destruct (Rcase_abs (- interest)); lra.
    + f_equal. unfold Rabs. destruct (Rcase_abs interest); lra.
  - intros Hneg. split.
    + replace (255 * (Rabs interest + interest) / 2) with (IZR 0).
      * apply round_IZR.
      * unfold Rabs. destruct (Rcase_abs interest); lra.
    + f_equal. unfold Rabs. destruct (Rcase_abs (- interest)); lra.
Qed.

(** ** The arena of [main] *)

Lemma collidelist_from_find (a : pygame.Rect) (walls : list Wall.t) (i : Z) :
  match find (fun wall => pygame.colliderect a (Wall.rect wall)) walls with
  | None => pygame.collidelist_from i a (map Wall.rect walls) = (-1)%Z
  | Some wall =>
      exists n, pygame.collidelist_from i a (map Wall.rect walls) = (i + Z.of_nat n)%Z
                /\ nth_error walls n = Some wall
  end.
Proof.
  revert i. induction walls as [| wall walls IH]; intros i; cbn [find map pygame.collidelist_from].
  - reflexivity.
  - destruct (pygame.colliderect a (Wall.rect wall)).
    + exists 0%nat. split; [lia | reflexivity].
    + specialize (IH (i + 1)%Z).
      destruct (find _ walls) as [wall' |]; [| exact IH].
      destruct IH as [n [E Hn]]. exists (S n). split; [lia | exact Hn].
Qed.

(** The first wall of the list that the rectangle of the bat collides
    with decides alone, whatever the walls after it. *)
Lemma bat_test_collision_first (walls : list Wall.t) (self : Bat.t) (rect : pygame.Rect) :
  Bat.get_rect self = Ok rect ->
  Bat.test_collision walls self
  = match find (fun wall => pygame.colliderect rect (Wall.rect wall)) walls with
    | Some wall =>
        if Wall.collides_bat wall then Bat.test_collision [wall] self else Ok self
    | None => Ok self
    end.
Proof.
  intros Hr. pose proof (collidelist_from_find rect walls 0) as H.
  destruct (find _ walls) as [wall |] eqn:Hf.
  - destruct H as [n [E Hn]]. apply find_some in Hf. destruct Hf as [_ Hc].
    unfold Bat.test_collision. rewrite Hr, !bind_ok.
    unfold pygame.collidelist. rewrite E.
    cbn [map pygame.collidelist_from]. rewrite Hc.
    replace (0 + Z.of_nat n =? -1)%Z with false by (symmetry; apply Z.eqb_neq; lia).
    replace (Z.to_nat (0 + Z.of_nat n)) with n by lia.
    unfold getitem at 1. rewrite Hn, bind_ok.
    destruct (Wall.collides_bat wall) eqn:Hb; [| reflexivity].
    cbn [Z.eqb Z.to_nat getitem nth_error bind]. rewrite Hb. reflexivity.
  - unfold Bat.test_collision. rewrite Hr, bind_ok.
    unfold pygame.collidelist. rewrite H. reflexivity.
Qed.

Lemma bat_rect_sides (self : Bat.t) (rect : pygame.Rect) :
  Bat.get_rect self = Ok rect ->
  pygame.w rect = (2 * Bat.radius self)%Z /\ pygame.h rect = (2 * Bat.radius self)%Z.
Proof.
  unfold Bat.get_rect, get_rect_of.
  destruct (Vector.__round__ _) as [| x [| y [| z l]]]; try discriminate.
  intros H. injection H as <-. split; reflexivity.
Qed.

(** A rectangle of sides 20 does not reach from the pane at (150, 100) or
    the pane at (1000, 200) to the bar at (200, 500). *)
Lemma panes_away_from_bar (x y : Z) :
  let r := pygame.mkRect x y 20 20 in
  pygame.colliderect r (pygame.mkRect 200 500 500 10) = true ->
  pygame.colliderect r (pygame.mkRect 150 100 50 200) = false
  /\ pygame.colliderect r (pygame.mkRect 1000 200 10 300) = false.
Proof.
  intros r. unfold r, pygame.colliderect. cbn [pygame.x pygame.y pygame.w pygame.h Z.eqb orb].
  rewrite !andb_true_iff. intros [[[H1 H2] H3] H4].
  apply Z.ltb_lt in H1, H2. apply Z.gtb_lt in H3, H4.
  split; apply andb_false_iff.
  - left. apply andb_false_iff. left. apply andb_false_iff. right. apply Z.ltb_ge. lia.
  - left. apply andb_false_iff. right. rewrite Z.gtb_ltb. apply Z.ltb_ge. lia.
Qed.

(** In the arena of [main] the walls that let bats through never hide a
    wall that blocks them: a bat of the radius that [main] sets is treated
    by [test_collision] as if the arena held the blocking walls only,
    whatever the size of the screen and wherever the bat is. *)
Theorem arena_blocks_bats (w h : Z) (self : Bat.t) :
  Bat.radius self = BAT_RADIUS ->
  Bat.test_collision (arena w h) self
  = Bat.test_collision (filter Wall.collides_bat (arena w h)) self.
Proof.
  intros Hrad. destruct (Bat.get_rect self) as [rect | e] eqn:Hr.
  - rewrite !(bat_test_collision_first _ _ _ Hr).
    destruct (bat_rect_sides _ _ Hr) as [Hw Hh]. rewrite Hrad in Hw, Hh.
    destruct rect as [x y rw rh]. cbn in Hw, Hh. subst rw rh.
    pose proof (panes_away_from_bar x y) as Hbar. cbv zeta in Hbar.
    cbn [arena filter find Wall.init Wall.rect Wall.collides_bat fst snd].
    repeat match goal with
           | |- context [pygame.colliderect ?a ?b] =>
               destruct (pygame.colliderect a b) eqn:?; try reflexivity
           end;
      destruct (Hbar eq_refl); congruence.
  - unfold Bat.test_collision. rewrite Hr. reflexivity.
Qed.

Lemma arena_blocks_bats_witness :
  Bat.test_collision (arena 1280 720) bat_at_rest
  = Bat.test_collision (filter Wall.collides_bat (arena 1280 720)) bat_at_rest.
Proof. apply (arena_blocks_bats 1280 720 bat_at_rest eq_refl). Defined.

(** ** The loop over the rays, in general *)

Lemma advanced_2D (self : Ray.t) : ray_2D self -> ray_2D (advanced self).
Proof.
  intros [Hp Hf]. split; [| exact Hf].
  destruct (is_2D_inv _ Hp) as [px [py Ep]].
  destruct (is_2D_inv _ Hf) as [fx [fy Ef]].
  unfold is_2D. cbn [advanced Ray.pos Ray.set_pos]. rewrite Ep, Ef. reflexivity.
Qed.

Lemma rays_wf_remove (pre post : list Ray.t) (ray : Ray.t) :
  rays_wf (pre ++ ray :: post) -> rays_wf (pre ++ post).
Proof.
  intros [Hnd [H2 Hs]]. split; [| split].
  - rewrite map_app in *. cbn [map] in Hnd. exact (NoDup_remove_1 _ _ _ Hnd).
  - apply Forall_app in H2. destruct H2 as [Ha Hb]. inversion Hb; subst.
    apply Forall_app. split; assumption.
  - apply Forall_app in Hs. destruct Hs as [Ha Hb]. inversion Hb; subst.
    apply Forall_app. split; assumption.
Qed.

Lemma rays_wf_replace (pre post : list Ray.t) (ray ray' : Ray.t) :
  rays_wf (pre ++ ray :: post) ->
  Ray.id ray' = Ray.id ray -> ray_2D ray' -> 0 < Ray.strength ray' ->
  rays_wf (pre ++ ray' :: post).
Proof.
  intros [Hnd [H2 Hs]] Hid H2' Hs'. split; [| split].
  - rewrite map_app in *. cbn [map] in *. rewrite Hid. exact Hnd.
  - apply Forall_app in H2. destruct H2 as [Ha Hb]. inversion Hb; subst.
    apply Forall_app. split; [assumption | constructor; assumption].
  - apply Forall_app in Hs. destruct Hs as [Ha Hb]. inversion Hb; subst.
    apply Forall_app. split; [assumption | constructor; assumption].
Qed.

(** One turn of the loop on the ray at the position [length pre]: the ray
    leaves the list, or it is advanced in its place. *)
Lemma ray_update_at (walls : list Wall.t) (pre post : list Ray.t) (ray : Ray.t) :
  rays_wf (pre ++ ray :: post) ->
  exists mid,
    ray_2D mid
    /\ Ray.id mid = Ray.id ray
    /\ (Ray.strength mid = Ray.strength ray - RAY_DECAY
        \/ Ray.strength mid = Ray.strength ray - RAY_DECAY - WALL_DECAY)
    /\ ((Ray.strength mid <= 0
         /\ Ray.update walls ray (pre ++ ray :: post) = Ok (mid, pre ++ post))
        \/ (0 < Ray.strength mid
            /\ Ray.update walls ray (pre ++ ray :: post)
               = Ok (advanced mid, pre ++ advanced mid :: post))).
Proof.
  intros [Hnd [H2 _]].
  assert (Hray : ray_2D ray).
  { apply Forall_app in H2. destruct H2 as [_ Hb]. inversion Hb; assumption. }
  destruct (ray_test_collision_total walls
              (Ray.set_strength ray (Ray.strength ray - RAY_DECAY)) Hray)
    as [mid [Ht [Hm2 [Hid Hst]]]].
  cbn [Ray.id Ray.strength Ray.set_strength] in Hid, Hst.
  exists mid. split; [exact Hm2 |]. split; [exact Hid |]. split; [exact Hst |].
  unfold Ray.update. rewrite Ht, bind_ok.
  destruct (Rle_dec (Ray.strength mid) 0) as [Hle | Hgt].
  - left. split; [exact Hle |].
    rewrite list_remove_middle; [reflexivity | | symmetry; exact Hid].
    intros a Ha E. rewrite map_app in Hnd. cbn [map] in Hnd.
    apply (NoDup_remove_2 _ _ _ Hnd). apply in_or_app. left.
    rewrite <- Hid, <- E. apply in_map, Ha.
  - right. split; [lra |].
    fold (advanced mid). rewrite (store_middle pre post ray (advanced mid) Hnd Hid).
    reflexivity.
Qed.

Lemma update_rays_S (fuel : nat) (walls : list Wall.t) (i : nat) (rays : list Ray.t) :
  update_rays (S fuel) walls i rays
  = match nth_error rays i with
    | None => Ok rays
    | Some ray => st <- Ray.update walls ray rays ;; update_rays fuel walls (S i) (snd st)
    end.
Proof. reflexivity. Qed.

Lemma update_rays_end (fuel : nat) (walls : list Wall.t) (i : nat) (rays : list Ray.t) :
  (length rays <= i)%nat -> update_rays fuel walls i rays = Ok rays.
Proof.
  intros H. destruct fuel; [reflexivity |].
  rewrite update_rays_S. apply nth_error_None in H. rewrite H. reflexivity.
Qed.

(** One turn, by cases, on a well-formed list: the list after the turn is
    well formed, no longer, holds no new object and is the same before
    the position of the turn. *)
Lemma update_rays_turn (walls : list Wall.t) (i : nat) (rays : list Ray.t) (ray : Ray.t) :
  rays_wf rays ->
  nth_error rays i = Some ray ->
  exists self' rays',
    Ray.update walls ray rays = Ok (self', rays')
    /\ rays_wf rays'
    /\ firstn i rays' = firstn i rays
    /\ incl (map Ray.id rays') (map Ray.id rays)
    /\ (length rays' <= length rays)%nat.
Proof.
  intros Hwf Hn. destruct (nth_error_split _ _ Hn) as [pre [post [E Hlen]]]. subst rays i.
  destruct (ray_update_at walls pre post ray Hwf)
    as [mid [Hm2 [Hid [_ [[_ Hu] | [Hpos Hu]]]]]]; rewrite Hu.
  - exists mid, (pre ++ post). split; [reflexivity |].
    split; [exact (rays_wf_remove _ _ _ Hwf) |].
    split; [rewrite !firstn_app, Nat.sub_diag, !firstn_all; reflexivity |].
    split.
    + rewrite !map_app. cbn [map]. intros o Ho. apply in_app_or in Ho.
      apply in_or_app. destruct Ho; [left | right; right]; assumption.
    + rewrite !length_app. cbn [length]. lia.
  - exists (advanced mid), (pre ++ advanced mid :: post). split; [reflexivity |].
    split; [apply (rays_wf_replace pre post ray); try assumption;
            [exact (advanced_2D _ Hm2)] |].
    split; [rewrite !firstn_app, Nat.sub_diag, !firstn_all; reflexivity |].
    split.
    + rewrite !map_app. cbn [map]. change (Ray.id (advanced mid)) with (Ray.id mid).
      rewrite Hid. apply incl_refl.
    + rewrite !length_app. cbn [length]. lia.
Qed.

Lemma update_rays_from (walls : list Wall.t) (fuel : nat) :
  forall (i : nat) (rays : list Ray.t),
    rays_wf rays ->
    exists rays',
      update_rays fuel walls i rays = Ok rays'
      /\ rays_wf rays'
      /\ firstn i rays' = firstn i rays
      /\ incl (map Ray.id rays') (map Ray.id rays)
      /\ (length rays' <= length rays)%nat.
Proof.
  induction fuel as [| fuel IH]; intros i rays Hwf.
  - exists rays. split; [reflexivity |]. split; [exact Hwf |].
    split; [reflexivity |]. split; [apply incl_refl | lia].
  - rewrite update_rays_S. destruct (nth_error rays i) as [ray |] eqn:Hn.
    + destruct (update_rays_turn walls i rays ray Hwf Hn)
        as [self' [rays1 [Hu [Hwf1 [Hpre1 [Hin1 Hlen1]]]]]].
      rewrite Hu, bind_ok. cbn [snd].
      destruct (IH (S i) rays1 Hwf1) as [rays' [Hr [Hwf' [Hpre' [Hin' Hlen']]]]].
      exists rays'. split; [exact Hr |]. split; [exact Hwf' |].
      split; [| split; [eapply incl_tran; eassumption | lia]].
      rewrite <- Hpre1.
      replace i with (Nat.min i (S i)) at 1 2 by lia.
      rewrite <- !firstn_firstn, Hpre'. reflexivity.
    + exists rays. split; [reflexivity |]. split; [exact Hwf |].
      split; [reflexivity |]. split; [apply incl_refl | lia].
Qed.

Lemma update_rays_more_fuel (walls : list Wall.t) (fuel : nat) :
  forall (i : nat) (rays : list Ray.t),
    rays_wf rays ->
    (length rays <= i + fuel)%nat ->
    update_rays (S fuel) walls i rays = update_rays fuel walls i rays.
Proof.
  induction fuel as [| fuel IH]; intros i rays Hwf Hlen.
  - rewrite !update_rays_end by lia. reflexivity.
  - rewrite (update_rays_S (S fuel)), (update_rays_S fuel).
    destruct (nth_error rays i) as [ray |] eqn:Hn; [| reflexivity].
    destruct (update_rays_turn walls i rays ray Hwf Hn)
      as [self' [rays1 [Hu [Hwf1 [_ [_ Hlen1]]]]]].
    rewrite Hu, !bind_ok. cbn [snd]. apply IH; [exact Hwf1 | lia].
Qed.

(** The loop [for ray in bat.rays: ray.update()] on distinct 2D rays of
    positive strength never raises, and the list it leaves is again one
    of distinct 2D rays of positive strength, no longer than before and
    without a new object.  As many turns as the list is long end the
    loop. *)
Theorem update_rays_keeps_well_formed (walls : list Wall.t) (rays : list Ray.t) :
  rays_wf rays ->
  (exists rays',
     update_rays (length rays) walls 0 rays = Ok rays'
     /\ rays_wf rays'
     /\ incl (map Ray.id rays') (map Ray.id rays)
     /\ (length rays' <= length rays)%nat)
  /\ forall more,
       update_rays (length rays + more) walls 0 rays
       = update_rays (length rays) walls 0 rays.
Proof.
  intros Hwf. split.
  - destruct (update_rays_from walls (length rays) 0 rays Hwf)
      as [rays' [Hr [Hwf' [_ [Hin Hlen]]]]].
    exists rays'. repeat split; try assumption; apply Hwf'.
  - intros more. induction more as [| more IH].
    + rewrite Nat.add_0_r. reflexivity.
    + rewrite Nat.add_succ_r, update_rays_more_fuel; [exact IH | exact Hwf | lia].
Qed.

Lemma rising_ray_wf : rays_wf [rising_ray].
Proof.
  split; [| split].
  - constructor; [intros [] | constructor].
  - constructor; [split; reflexivity | constructor].
  - constructor; [cbn; unfold RAY_STRENGTH; lra | constructor].
Qed.

Lemma update_rays_keeps_well_formed_witness :
  exists rays',
    update_rays 1 [ceiling] 0 [rising_ray] = Ok rays'
    /\ rays_wf rays'
    /\ incl (map Ray.id rays') (map Ray.id [rising_ray])
    /\ (length rays' <= 1)%nat.
Proof.
  apply (proj1 (update_rays_keeps_well_formed [ceiling] [rising_ray] rising_ray_wf)).
Defined.

(** The list is read by position while [update] takes rays out of it: when
    the ray of a turn is on its last tick, it leaves the list and the ray
    that followed it takes its place, behind the position of the loop.
    That ray is passed over: at the end of the loop it is there as it was,
    with the strength and the position it had. *)
Theorem update_rays_passes_over_next (walls : list Wall.t) (pre post : list Ray.t)
    (a b : Ray.t) (fuel : nat) :
  rays_wf (pre ++ a :: b :: post) ->
  Ray.strength a <= RAY_DECAY ->
  exists rest,
    update_rays (S fuel) walls (length pre) (pre ++ a :: b :: post)
    = Ok (pre ++ b :: rest).
Proof.
  intros Hwf Hlast.
  destruct (ray_update_at walls pre (b :: post) a Hwf)
    as [mid [_ [_ [Hst [[_ Hu] | [Hpos Hu]]]]]].
  - rewrite update_rays_S.
    replace (nth_error (pre ++ a :: b :: post) (length pre)) with (Some a)
      by (symmetry; rewrite nth_error_app2, Nat.sub_diag by lia; reflexivity).
    rewrite Hu, bind_ok. cbn [snd].
    destruct (update_rays_from walls fuel (S (length pre)) (pre ++ b :: post)
                (rays_wf_remove _ _ _ Hwf)) as [rays' [Hr [_ [Hpre _]]]].
    rewrite Hr. exists (skipn (S (length pre)) rays'). f_equal.
    rewrite <- (firstn_skipn (S (length pre)) rays') at 1. rewrite Hpre.
    replace (pre ++ b :: post) with ((pre ++ [b]) ++ post)
      by (rewrite <- app_assoc; reflexivity).
    replace (S (length pre)) with (length (pre ++ [b]))
      by (rewrite length_app; cbn [length]; lia).
    rewrite firstn_app, Nat.sub_diag, firstn_all. cbn [firstn].
    rewrite app_nil_r, <- !app_assoc. reflexivity.
  - exfalso. unfold RAY_DECAY, WALL_DECAY in *. destruct Hst; lra.
Qed.

Lemma spent_rays_wf : rays_wf [spent_ray 1; spent_ray 2].
Proof.
  split; [| split].
  - cbn. constructor; [intros [H | []]; discriminate |].
    constructor; [intros [] | constructor].
  - repeat constructor.
  - repeat constructor; cbn; lra.
Qed.

Lemma spent_ray_last_tick : Ray.strength (spent_ray 1) <= RAY_DECAY.
Proof. cbn. unfold RAY_DECAY. lra. Qed.

Lemma update_rays_passes_over_next_witness :
  exists rest,
    update_rays 2 [] (length (@nil Ray.t)) ([] ++ [spent_ray 1; spent_ray 2])
    = Ok ([] ++ spent_ray 2 :: rest).
Proof.
  apply (update_rays_passes_over_next [] [] [] (spent_ray 1) (spent_ray 2) 1
           spent_rays_wf spent_ray_last_tick).
Defined.

(** ** The frame of a bat *)

Lemma emitted_wf (fresh : nat) (self : Bat.t) (a : R) (range : list nat) :
  is_2D (Bat.pos self) ->
  Forall (fun ray => ray_2D ray /\ 0 < Ray.strength ray)
    (map (emitted fresh self a) range).
Proof.
  intros Hp. apply Forall_forall. intros ray Hin. apply in_map_iff in Hin.
  destruct Hin as [i [<- _]]. split; [split; [exact Hp | reflexivity] |].
  cbn [emitted Ray.strength]. unfold RAY_STRENGTH. lra.
Qed.

Lemma emit_keeps_wf (fresh : nat) (self : Bat.t) :
  bat_wf fresh self ->
  exists self', Bat.emit fresh self = Ok self' /\ bat_wf (fresh + RAYS_PER_EMIT) self'.
Proof.
  intros [Hp [Hv [Hf [Hz [Hfr [[Hnd [H2 Hs]] [Hold Hbe]]]]]]].
  destruct (argument_2D_ok _ Hf Hz) as [a [Ea _]].
  rewrite (emit_eq fresh a self Ea). eexists. split; [reflexivity |].
  pose proof (emitted_wf fresh self a (seq 0 RAYS_PER_EMIT) Hp) as Hnew.
  assert (Hids : map Ray.id (map (emitted fresh self a) (seq 0 RAYS_PER_EMIT))
                 = seq fresh RAYS_PER_EMIT).
  { rewrite map_map. cbn [Ray.id emitted].
    rewrite (map_add_seq fresh RAYS_PER_EMIT 0), Nat.add_0_r. reflexivity. }
  destruct self as [id0 pos0 vel0 facing0 av fr rays0 beams0 rad]. unfold bat_wf.
  cbn [Bat.pos Bat.vel Bat.facing Bat.friction Bat.rays Bat.beams Bat.set_rays] in *.
  repeat (split; [assumption |]).
  split; [split; [| split] | split; [| assumption]].
  - rewrite map_app, Hids. apply NoDup_app; [exact Hnd | apply seq_NoDup |].
    intros o Ho Hn. apply in_seq in Hn. apply in_map_iff in Ho.
    destruct Ho as [ray [<- Hin]]. rewrite Forall_forall in Hold.
    specialize (Hold ray Hin). cbn beta in Hold. lia.
  - apply Forall_app. split; [exact H2 |].
    eapply Forall_impl; [| exact Hnew]. intros ray [H _]. exact H.
  - apply Forall_app. split; [exact Hs |].
    eapply Forall_impl; [| exact Hnew]. intros ray [_ H]. exact H.
  - apply Forall_app. split.
    + eapply Forall_impl; [| exact Hold]. intros ray H. cbn beta in *. lia.
    + apply Forall_forall. intros ray Hin.
      assert (Ho : In (Ray.id ray) (seq fresh RAYS_PER_EMIT))
        by (rewrite <- Hids; apply in_map, Hin).
      apply in_seq in Ho. lia.
Qed.

Lemma bat_wf_later (fresh more : nat) (self : Bat.t) :
  bat_wf fresh self -> bat_wf (fresh + more) self.
Proof.
  intros [Hp [Hv [Hf [Hz [Hfr [Hwf [Hold Hbe]]]]]]].
  repeat (split; [assumption |]). split; [| assumption].
  eapply Forall_impl; [| exact Hold]. intros ray H. cbn beta in *. lia.
Qed.

Lemma bat_update_keeps_wf (fresh : nat) (walls : list Wall.t) (self : Bat.t) :
  bat_wf fresh self ->
  exists self', Bat.update walls self = Ok self' /\ bat_wf fresh self'.
Proof.
  intros [Hp [Hv [Hf [Hz [Hfr [Hwf [Hold Hbe]]]]]]].
  destruct (proj1 (bat_update_total walls self Hp Hv Hf) Hfr)
    as [self' [E [Hp' [Hv' [Hf' [Hn [_ [_ [Hr [Hb [Hfr' _]]]]]]]]]]].
  exists self'. split; [exact E |].
  rewrite !norm_eq in Hn. injection Hn as Hn.
  repeat (split; [assumption |]).
  split; [| split; [congruence | rewrite Hr, Hb; split; [| split]; assumption]].
  intros Hz'. apply Hz. apply sqrt_sumsq_zero. rewrite <- Hn.
  apply sqrt_sumsq_zero, Hz'.
Qed.

Lemma beam_update_ok (beams : list Beam.t) (beam : Beam.t) :
  NoDup (map Beam.id beams) ->
  In beam beams ->
  exists self' beams',
    Beam.update beam beams = Ok (self', beams')
    /\ NoDup (map Beam.id beams')
    /\ (length beams' <= length beams)%nat.
Proof.
  intros Hnd Hin. unfold Beam.update. cbn [Beam.strength Beam.set_strength Beam.id].
  destruct (Rle_dec (Beam.strength beam - BEAM_DECAY) 0) as [Hle | Hgt].
  - assert (Hh : holds Beam.id beams (Beam.id beam)) by (apply in_map, Hin).
    destruct (list_remove_ok Beam.id _ beams Hh) as [beams' Hrm].
    rewrite Hrm, bind_ok. eexists _, beams'. split; [reflexivity |].
    split; [exact (proj1 (list_remove_ids Beam.id _ _ _ Hrm Hnd)) |].
    clear - Hrm. revert beams' Hrm.
    induction beams as [| b beams IH]; cbn [list_remove]; intros beams' H; [discriminate |].
    destruct (Nat.eqb (Beam.id b) (Beam.id beam)).
    + injection H as <-. cbn [length]. lia.
    + destruct (list_remove Beam.id (Beam.id beam) beams) as [t |]; [| discriminate].
      cbn [bind] in H. injection H as <-. specialize (IH t eq_refl). cbn [length]. lia.
  - eexists _, _. split; [reflexivity |].
    split; [rewrite store_ids; exact Hnd |].
    unfold store. rewrite length_map. lia.
Qed.

Lemma update_beams_from (fuel : nat) :
  forall (i : nat) (beams : list Beam.t),
    NoDup (map Beam.id beams) ->
    exists beams',
      update_beams fuel i beams = Ok beams' /\ NoDup (map Beam.id beams').
Proof.
  induction fuel as [| fuel IH]; intros i beams Hnd.
  - exists beams. split; [reflexivity | exact Hnd].
  - cbn [update_beams]. destruct (nth_error beams i) as [beam |] eqn:Hn.
    + destruct (beam_update_ok beams beam Hnd (nth_error_In _ _ Hn))
        as [self' [beams1 [Hu [Hnd1 _]]]].
      rewrite Hu, bind_ok. cbn [snd]. apply IH, Hnd1.
    + exists beams. split; [reflexivity | exact Hnd].
Qed.

(** The frame of a bat never raises on a well-formed bat, and leaves a
    well-formed bat, whatever the walls and the number of the frame: the
    facing stays a non-zero 2D vector, so that the next emission has an
    angle, and every ray left in the list has a positive strength.  A new
    bat at a 2D position is well formed. *)
Theorem frame_bat_safe (fresh frame : nat) (walls : list Wall.t) (bat : Bat.t) :
  bat_wf fresh bat ->
  (exists bat',
     frame_bat fresh frame walls bat = Ok bat'
     /\ bat_wf (fresh + RAYS_PER_EMIT) bat')
  /\ (forall id pos angle,
        is_2D pos ->
        exists new, Bat.init id pos angle = Ok new /\ bat_wf fresh new).
Proof.
  intros Hwf. split.
  - unfold frame_bat.
    assert (H1 : exists bat1,
               (if Nat.eqb (frame mod FRAMES_PER_EMIT) 0
                then Bat.emit fresh bat else Ok bat) = Ok bat1
               /\ bat_wf (fresh + RAYS_PER_EMIT) bat1).
    { destruct (Nat.eqb (frame mod FRAMES_PER_EMIT) 0).
      - apply emit_keeps_wf, Hwf.
      - exists bat. split; [reflexivity | apply bat_wf_later, Hwf]. }
    destruct H1 as [bat1 [E1 Hwf1]]. rewrite E1, bind_ok.
    destruct (bat_update_keeps_wf _ walls bat1 Hwf1) as [bat2 [E2 Hwf2]].
    rewrite E2, bind_ok.
    destruct Hwf2 as [Hp [Hv [Hf [Hz [Hfr [Hrays [Hold Hbe]]]]]]].
    destruct (update_rays_from walls (length (Bat.rays bat2)) 0 (Bat.rays bat2) Hrays)
      as [rays' [E3 [Hrays' [_ [Hincl _]]]]].
    rewrite E3, bind_ok. cbn [Bat.beams Bat.set_rays].
    destruct (update_beams_from (length (Bat.beams bat2)) 0 (Bat.beams bat2) Hbe)
      as [beams' [E4 Hbe']].
    rewrite E4, bind_ok. eexists. split; [reflexivity |].
    cbn [Bat.pos Bat.vel Bat.facing Bat.friction Bat.rays Bat.beams Bat.set_beams].
    repeat (split; [assumption |]). split; [| assumption].
    apply Forall_forall. intros ray Hin.
    assert (Ho : In (Ray.id ray) (map Ray.id (Bat.rays bat2)))
      by (apply Hincl, in_map, Hin).
    apply in_map_iff in Ho. destruct Ho as [old [Eid Hin']].
    rewrite Forall_forall in Hold. specialize (Hold old Hin'). cbn beta in Hold.
    rewrite <- Eid. exact Hold.
  - intros id pos angle Hp. unfold Bat.init. rewrite rotate_unit_x, bind_ok.
    eexists. split; [reflexivity |].
    cbn [bat_wf Bat.pos Bat.vel Bat.facing Bat.friction Bat.rays Bat.beams].
    unfold bat_wf. cbn [Bat.pos Bat.vel Bat.facing Bat.friction Bat.rays Bat.beams].
    split; [exact Hp |]. split; [reflexivity |]. split; [reflexivity |].
    split.
    + intros Hz. apply sqrt_sumsq_zero in Hz.
      pose proof (unit_circle_norm angle) as Hn. rewrite norm_eq in Hn.
      injection Hn as Hn. lra.
    + split; [lra |]. split; [| split; constructor].
      split; [constructor | split; constructor].
Qed.

Lemma bat_at_rest_wf : bat_wf 0 bat_at_rest.
Proof.
  unfold bat_wf, bat_at_rest.
  cbn [Bat.pos Bat.vel Bat.facing Bat.friction Bat.rays Bat.beams].
  split; [reflexivity |]. split; [reflexivity |]. split; [reflexivity |].
  split; [exact unit_x_not_zero |]. split; [lra |].
  split; [| split; constructor].
  split; [constructor | split; constructor].
Qed.

Lemma frame_bat_safe_witness :
  exists bat',
    frame_bat 0 0 (arena 1280 720) bat_at_rest = Ok bat'
    /\ bat_wf (0 + RAYS_PER_EMIT) bat'.
Proof.
  apply (proj1 (frame_bat_safe 0 0 (arena 1280 720) bat_at_rest bat_at_rest_wf)).
Defined.

(** ** The rectangle of a bat or a ray *)

Lemma round_nearest (x : R) : Rabs (IZR (Py.round x) - x) <= 1 / 2.
Proof.
  unfold Py.round. destruct (base_Int_part x) as [H1 H2].
  set (f := Int_part x) in *.
  destruct (Rlt_dec (x - IZR f) (1 / 2)) as [Hlt | Hge];
    [| destruct (Rlt_dec (1 / 2) (x - IZR f)) as [Hgt | Hle];
       [| destruct (Z.even f)]];
    rewrite ?plus_IZR; unfold Rabs;
    match goal with |- context [Rcase_abs ?a] => destruct (Rcase_abs a) end; lra.
Qed.

(** [get_rect] of a bat or a ray at a 2D position, when the corner
    [pos - radius] and the side [2 * radius] are in the range of a C int:
    the four numbers of the rectangle are in that range, so that pygame
    keeps them as they are, and the rectangle is the square of side
    [2 * radius] whose centre is within half a pixel of the position in
    each coordinate.  At a position of one component, or of more than
    two, [get_rect] raises TypeError. *)
Theorem get_rect_centred (pos : Vector.t) (radius : Z) :
  (forall px py,
     pos = [px; py] ->
     IZR INT_MIN <= px - IZR radius <= IZR INT_MAX ->
     IZR INT_MIN <= py - IZR radius <= IZR INT_MAX ->
     fits_int (2 * radius) ->
     exists rect,
       get_rect_of pos radius = Ok rect
       /\ fits_int (pygame.x rect) /\ fits_int (pygame.y rect)
       /\ fits_int (pygame.w rect) /\ fits_int (pygame.h rect)
       /\ pygame.w rect = (2 * radius)%Z /\ pygame.h rect = (2 * radius)%Z
       /\ Rabs (IZR (pygame.x rect + radius) - px) <= 1 / 2
       /\ Rabs (IZR (pygame.y rect + radius) - py) <= 1 / 2)
  /\ (pos <> [] -> ~ is_2D pos -> get_rect_of pos radius = Raise TypeError).
Proof.
  split.
  - intros px py -> Hx0 Hy0 Hr0. rewrite get_rect_of_2D. eexists.
    split; [reflexivity |].
    cbn [pygame.x pygame.y pygame.w pygame.h].
    split; [exact (round_between _ _ _ Hx0) |].
    split; [exact (round_between _ _ _ Hy0) |].
    split; [exact Hr0 |]. split; [exact Hr0 |].
    split; [reflexivity |].
    split; [reflexivity |]. rewrite !plus_IZR.
    pose proof (round_nearest (px - IZR radius)) as Hx.
    pose proof (round_nearest (py - IZR radius)) as Hy.
    split.
    + replace (IZR (Py.round (px - IZR radius)) + IZR radius - px)
        with (IZR (Py.round (px - IZR radius)) - (px - IZR radius)) by ring.
      exact Hx.
    + replace (IZR (Py.round (py - IZR radius)) + IZR radius - py)
        with (IZR (Py.round (py - IZR radius)) - (py - IZR radius)) by ring.
      exact Hy.
  - intros Hne H2. unfold is_2D in H2.
    destruct pos as [| a [| b [| c pos]]]; try reflexivity; [contradiction |].
    exfalso. apply H2. reflexivity.
Qed.

Lemma falling_bat_corner :
  IZR INT_MIN <= 100 - IZR BAT_RADIUS <= IZR INT_MAX
  /\ IZR INT_MIN <= 95 - IZR BAT_RADIUS <= IZR INT_MAX
  /\ fits_int (2 * BAT_RADIUS).
Proof.
  unfold fits_int, INT_MIN, INT_MAX, BAT_RADIUS. repeat split; try lra; lia.
Qed.

Lemma get_rect_centred_witness :
  exists rect,
    get_rect_of [100; 95] BAT_RADIUS = Ok rect
    /\ fits_int (pygame.x rect) /\ fits_int (pygame.y rect)
    /\ fits_int (pygame.w rect) /\ fits_int (pygame.h rect)
    /\ pygame.w rect = (2 * BAT_RADIUS)%Z /\ pygame.h rect = (2 * BAT_RADIUS)%Z
    /\ Rabs (IZR (pygame.x rect + BAT_RADIUS) - 100) <= 1 / 2
    /\ Rabs (IZR (pygame.y rect + BAT_RADIUS) - 95) <= 1 / 2.
Proof.
  apply (proj1 (get_rect_centred [100; 95] BAT_RADIUS) 100 95 eq_refl
           (proj1 falling_bat_corner)
           (proj1 (proj2 falling_bat_corner))
           (proj2 (proj2 falling_bat_corner))).
Defined.

(** ** A ray that outlives its strength *)

Lemma frames_S (n : nat) (walls : list Wall.t) (rays : list Ray.t) :
  frames (S n) walls rays
  = (rays' <- frames n walls rays ;; update_rays (length rays') walls 0 rays').
Proof. reflexivity. Qed.

Lemma clear_without_walls (self : Ray.t) : ray_2D self -> clear_of [] self.
Proof. intros H2. exact (clear_of_no_walls 0 self H2). Qed.

(** A frame of two rays that both last: each is called once. *)
Lemma frame_of_two_alive (a b : Ray.t) :
  ray_2D a -> ray_2D b -> Ray.id a <> Ray.id b ->
  0 < Ray.strength a - RAY_DECAY -> 0 < Ray.strength b - RAY_DECAY ->
  update_rays 2 [] 0 [a; b] = Ok [glide a; glide b].
Proof.
  intros Ha Hb Hid Hsa Hsb.
  assert (Hba : Nat.eqb (Ray.id b) (Ray.id a) = false)
    by (apply Nat.eqb_neq; intros E; apply Hid; symmetry; exact E).
  assert (Hab : Nat.eqb (Ray.id a) (Ray.id b) = false) by (apply Nat.eqb_neq, Hid).
  rewrite update_rays_S. cbn [nth_error].
  rewrite (update_clear_alive [] a [a; b] (clear_without_walls a Ha) Hsa), bind_ok.
  cbn [snd]. unfold store at 1. cbn [map].
  change (Ray.id (glide a)) with (Ray.id a). rewrite Nat.eqb_refl, Hba.
  rewrite update_rays_S. cbn [nth_error].
  rewrite (update_clear_alive [] b [glide a; b] (clear_without_walls b Hb) Hsb), bind_ok.
  cbn [snd]. unfold store at 1. cbn [map].
  change (Ray.id (glide b)) with (Ray.id b). change (Ray.id (glide a)) with (Ray.id a).
  rewrite Nat.eqb_refl, Hab. reflexivity.
Qed.

(** A frame of two rays of which the first is on its last call: it goes,
    and the loop ends without a call on the second. *)
Lemma frame_of_two_first_dead (a b : Ray.t) :
  ray_2D a -> Ray.strength a - RAY_DECAY <= 0 ->
  update_rays 2 [] 0 [a; b] = Ok [b].
Proof.
  intros Ha Hsa. rewrite update_rays_S. cbn [nth_error].
  rewrite (update_clear_dead [] a [a; b] (clear_without_walls a Ha) Hsa).
  cbn [list_remove]. rewrite Nat.eqb_refl, !bind_ok. cbn [snd].
  rewrite update_rays_S. reflexivity.
Qed.

Lemma frame_of_one_dead (b : Ray.t) :
  ray_2D b -> Ray.strength b - RAY_DECAY <= 0 ->
  update_rays 1 [] 0 [b] = Ok [].
Proof.
  intros Hb Hsb. rewrite update_rays_S. cbn [nth_error].
  rewrite (update_clear_dead [] b [b] (clear_without_walls b Hb) Hsb).
  cbn [list_remove]. rewrite Nat.eqb_refl, !bind_ok. reflexivity.
Qed.

(** C4.  The ticks of the program are its frames, and the loop of a frame
    reads the list of rays by position while [update] takes rays out of
    it.  Two distinct 2D rays of the same strength n + 1 (in units of
    [RAY_DECAY]) that meet no wall: both are in the list after each of the
    first n frames, each weaker by [RAY_DECAY] per frame; the frame n + 1
    takes the first one out and passes over the second, which is still in
    the list after that frame, with the positive strength [RAY_DECAY] it
    had before it; only the frame n + 2 takes it out.  So a ray of
    strength 200 that meets no wall is not always removed after 200
    ticks: next to a ray of the same age it lasts 201, its strength not
    lowered in the tick 200. *)
Theorem ray_outlives_its_strength (a b : Ray.t) (n : nat) :
  ray_2D a -> ray_2D b -> Ray.id a <> Ray.id b ->
  Ray.strength a = INR (S n) ->
  Ray.strength b = INR (S n) ->
  (forall k, (k <= n)%nat -> frames k [] [a; b] = Ok [flight k a; flight k b])
  /\ frames (S n) [] [a; b] = Ok [flight n b]
  /\ Ray.strength (flight n b) = RAY_DECAY
  /\ 0 < Ray.strength (flight n b)
  /\ frames (S (S n)) [] [a; b] = Ok [].
Proof.
  intros Ha Hb Hid Hsa Hsb.
  assert (Hall : forall k, (k <= n)%nat ->
                   frames k [] [a; b] = Ok [flight k a; flight k b]).
  { induction k as [| k IH]; intros Hk; [reflexivity |].
    rewrite frames_S, IH, bind_ok by lia. cbn [length].
    assert (Hlt : INR k + 1 <= INR n)
      by (rewrite <- S_INR; apply le_INR; exact Hk).
    rewrite frame_of_two_alive; [reflexivity | | | | |].
    - apply flight_2D, Ha.
    - apply flight_2D, Hb.
    - rewrite !flight_id. exact Hid.
    - rewrite flight_strength, Hsa, S_INR. unfold RAY_DECAY. lra.
    - rewrite flight_strength, Hsb, S_INR. unfold RAY_DECAY. lra. }
  assert (Hlast : frames (S n) [] [a; b] = Ok [flight n b]).
  { rewrite frames_S, Hall, bind_ok by lia. cbn [length].
    apply frame_of_two_first_dead; [apply flight_2D, Ha |].
    rewrite flight_strength, Hsa, S_INR. unfold RAY_DECAY. lra. }
  assert (Hstr : Ray.strength (flight n b) = RAY_DECAY)
    by (rewrite flight_strength, Hsb, S_INR; unfold RAY_DECAY; lra).
  split; [exact Hall |]. split; [exact Hlast |]. split; [exact Hstr |].
  split; [rewrite Hstr; unfold RAY_DECAY; lra |].
  rewrite frames_S, Hlast, bind_ok. cbn [length].
  apply frame_of_one_dead; [apply flight_2D, Hb |]. rewrite Hstr. lra.
Qed.

Lemma twin_rays_differ : Ray.id rising_ray <> Ray.id twin_ray.
Proof. discriminate. Qed.

Lemma ray_outlives_its_strength_witness :
  frames 200 [] [rising_ray; twin_ray] = Ok [flight 199 twin_ray]
  /\ Ray.strength (flight 199 twin_ray) = RAY_DECAY
  /\ 0 < Ray.strength (flight 199 twin_ray)
  /\ frames 201 [] [rising_ray; twin_ray] = Ok [].
Proof.
  apply (proj2 (ray_outlives_its_strength rising_ray twin_ray 199
                  (conj eq_refl eq_refl) (conj eq_refl eq_refl) twin_rays_differ
                  (eq_sym INR_200) (eq_sym INR_200))).
Defined.
